(** * cfgs: a shallow embedding of cmd/cfgs/main.go

    The development follows the layout of the Go program: Go strings and
    the [strings] / [path] / [path/filepath] helpers it calls, the ignore
    glob matcher, the managed-path classifier, then (further down) a model
    of the file system with the doctor, track and remove commands on top of
    it.  Definitions come first; all lemmas and theorems follow.

    Conventions.
    - A Go [string] is a Rocq [string] (a sequence of bytes).
    - The program is modelled as built for a Unix target: the path
      separator is [/], so [filepath.ToSlash] and [filepath.FromSlash] are
      the identity and [filepath.Clean] coincides with [path.Clean].
    - A Go function returning [(T, error)] returns [result T]. *)

From Stdlib Require Import String Ascii List Bool Arith Lia DecimalString Sorted.
From stdpp Require Import base option list strings gmap.
Import ListNotations.

Local Open Scope string_scope.
Local Open Scope list_scope.

(** ** Errors *)

Inductive errno :=
| ENOENT | ENOTDIR | EEXIST | ENOTEMPTY | EISDIR | ELOOP | EIO | EXDEV | EINVAL.

(** Go error values: plain messages ([errors.New], [fmt.Errorf] without
    [%w]), [*fs.PathError], [*os.LinkError], and [fmt.Errorf("...: %w")]. *)
Inductive error :=
| ErrMsg (msg : string)
| ErrPath (op path : string) (e : errno)
| ErrLink (op old new : string) (e : errno)
| ErrWrap (prefix : string) (inner : error).

Inductive result (A : Type) :=
| Ok (a : A)
| Err (e : error).
Arguments Ok {A} a.
Arguments Err {A} e.

Definition errnoString (e : errno) : string :=
  match e with
  | ENOENT => "no such file or directory"
  | ENOTDIR => "not a directory"
  | EEXIST => "file exists"
  | ENOTEMPTY => "directory not empty"
  | EISDIR => "is a directory"
  | ELOOP => "too many levels of symbolic links"
  | EIO => "input/output error"
  | EXDEV => "invalid cross-device link"
  | EINVAL => "invalid argument"
  end.

(** [err.Error()] *)
Fixpoint errorString (e : error) : string :=
  match e with
  | ErrMsg m => m
  | ErrPath op p n => op +:+ " " +:+ p +:+ ": " +:+ errnoString n
  | ErrLink op o n e' => op +:+ " " +:+ o +:+ " " +:+ n +:+ ": " +:+ errnoString e'
  | ErrWrap pre inner => pre +:+ ": " +:+ errorString inner
  end.

(** The [errno] an error chain bottoms out in, if any. *)
Fixpoint errnoOf (e : error) : option errno :=
  match e with
  | ErrMsg _ => None
  | ErrPath _ _ n => Some n
  | ErrLink _ _ _ n => Some n
  | ErrWrap _ inner => errnoOf inner
  end.

Definition errno_eqb (a b : errno) : bool :=
  match a, b with
  | ENOENT, ENOENT | ENOTDIR, ENOTDIR | EEXIST, EEXIST
  | ENOTEMPTY, ENOTEMPTY | EISDIR, EISDIR | ELOOP, ELOOP
  | EIO, EIO | EXDEV, EXDEV | EINVAL, EINVAL => true
  | _, _ => false
  end.

(** [errors.Is(err, fs.ErrNotExist)] *)
Definition isNotExist (e : error) : bool :=
  match errnoOf e with Some ENOENT => true | _ => false end.

(** [errors.Is(err, syscall.EXDEV)] *)
Definition isCrossDevice (e : error) : bool :=
  match errnoOf e with Some EXDEV => true | _ => false end.

(** ** Package [strings] *)

Definition byte (n : nat) : ascii := ascii_of_nat n.

(** [strings.HasPrefix(s, prefix)] *)
Definition HasPrefix (s p : string) : bool := String.prefix p s.

(** [strings.Contains(s, substr)] *)
Fixpoint Contains (s sub : string) : bool :=
  String.prefix sub s ||
  match s with
  | EmptyString => false
  | String _ s' => Contains s' sub
  end.

(** [strings.TrimPrefix(s, prefix)] *)
Fixpoint TrimPrefix (s p : string) : string :=
  match p, s with
  | EmptyString, _ => s
  | String a p', String b s' =>
      if Ascii.eqb a b && String.prefix p' s' then TrimPrefix s' p' else s
  | String _ _, EmptyString => s
  end.

(** Reversal of a string, used to scan from the end. *)
Fixpoint srev_onto (s acc : string) : string :=
  match s with
  | EmptyString => acc
  | String c s' => srev_onto s' (String c acc)
  end.

Definition srev (s : string) : string := srev_onto s EmptyString.

(** White space as [unicode.IsSpace] defines it, on UTF-8 encoded text.
    One byte: tab, line feed, vertical tab, form feed, carriage return and
    space.  Two bytes: U+0085 and U+00A0.  Three bytes: U+1680,
    U+2000..U+200A, U+2028, U+2029, U+202F, U+205F and U+3000. *)
Definition isSpace1 (c : ascii) : bool :=
  let n := nat_of_ascii c in
  (((9 <=? n) && (n <=? 13)) || (n =? 32))%nat.

Definition isSpace2 (c1 c2 : ascii) : bool :=
  ((nat_of_ascii c1 =? 194) &&
   ((nat_of_ascii c2 =? 133) || (nat_of_ascii c2 =? 160)))%nat.

Definition isSpace3 (c1 c2 c3 : ascii) : bool :=
  let a := nat_of_ascii c1 in
  let b := nat_of_ascii c2 in
  let c := nat_of_ascii c3 in
  (((a =? 225) && (b =? 154) && (c =? 128)) ||
   ((a =? 226) && (b =? 128) &&
      (((128 <=? c) && (c <=? 138)) || (c =? 168) || (c =? 169) || (c =? 175))) ||
   ((a =? 226) && (b =? 129) && (c =? 159)) ||
   ((a =? 227) && (b =? 128) && (c =? 128)))%nat.

(** [strings.TrimLeftFunc(s, unicode.IsSpace)] *)
Fixpoint trimLeftSpace (s : string) : string :=
  match s with
  | EmptyString => s
  | String c1 s1 =>
      if isSpace1 c1 then trimLeftSpace s1
      else
        match s1 with
        | EmptyString => s
        | String c2 s2 =>
            if isSpace2 c1 c2 then trimLeftSpace s2
            else
              match s2 with
              | EmptyString => s
              | String c3 s3 =>
                  if isSpace3 c1 c2 c3 then trimLeftSpace s3 else s
              end
        end
  end.

(** The same scan on the reversed text: the bytes of a multi-byte rune
    are met last byte first. *)
Fixpoint trimLeftSpaceRev (s : string) : string :=
  match s with
  | EmptyString => s
  | String c1 s1 =>
      if isSpace1 c1 then trimLeftSpaceRev s1
      else
        match s1 with
        | EmptyString => s
        | String c2 s2 =>
            if isSpace2 c2 c1 then trimLeftSpaceRev s2
            else
              match s2 with
              | EmptyString => s
              | String c3 s3 =>
                  if isSpace3 c3 c2 c1 then trimLeftSpaceRev s3 else s
              end
        end
  end.

(** [strings.TrimRightFunc(s, unicode.IsSpace)] *)
Definition trimRightSpace (s : string) : string :=
  srev (trimLeftSpaceRev (srev s)).

(** [strings.TrimSpace(s)] *)
Definition TrimSpace (s : string) : string :=
  trimRightSpace (trimLeftSpace s).

(** [strings.Split(s, "/")]: never empty, one more element than there
    are separators. *)
Fixpoint splitOn (sep : ascii) (s : string) : list string :=
  match s with
  | EmptyString => [EmptyString]
  | String c s' =>
      if Ascii.eqb c sep then EmptyString :: splitOn sep s'
      else
        match splitOn sep s' with
        | h :: t => String c h :: t
        | [] => [String c EmptyString]
        end
  end.

(** [strings.Join(elems, sep)] *)
Fixpoint Join (elems : list string) (sep : string) : string :=
  match elems with
  | [] => EmptyString
  | [x] => x
  | x :: rest => x +:+ sep +:+ Join rest sep
  end.

(** ** Packages [path] and [path/filepath] *)

Definition slash : ascii := "/"%char.

(** [filepath.ToSlash] and [filepath.FromSlash]: the separator is
    already [/]. *)
Definition ToSlash (p : string) : string := p.
Definition FromSlash (p : string) : string := p.

(** [filepath.IsAbs] *)
Definition IsAbs (p : string) : bool := HasPrefix p "/".

(** One path element met by [Clean], against the elements kept so far
    (last kept element first).  Empty and [.] elements are dropped; [..]
    removes the last kept element when there is one that is not itself
    [..], is dropped at the root, and is kept otherwise. *)
Definition cleanStep (rooted : bool) (kept : list string) (elem : string)
  : list string :=
  if (elem =? "")%string || (elem =? ".")%string then kept
  else if (elem =? "..")%string then
    match kept with
    | top :: below => if (top =? "..")%string then elem :: kept else below
    | [] => if rooted then [] else [elem]
    end
  else elem :: kept.

Definition cleanElems (rooted : bool) (elems : list string) : list string :=
  rev (fold_left (cleanStep rooted) elems []).

(** [path.Clean] / [filepath.Clean]: the shortest path equivalent to [p]
    by purely lexical processing. *)
Definition Clean (p : string) : string :=
  if (p =? "")%string then "."
  else
    let rooted := HasPrefix p "/" in
    let kept := cleanElems rooted (splitOn slash p) in
    if rooted then "/" +:+ Join kept "/"
    else match kept with
         | [] => "."
         | _ => Join kept "/"
         end.

(** [filepath.Join] of two elements: empty elements are ignored, the
    rest is joined by [/] and cleaned; all empty gives the empty string. *)
Definition JoinPath (a b : string) : string :=
  if (a =? "")%string then
    if (b =? "")%string then "" else Clean b
  else Clean (a +:+ "/" +:+ b).

(** The text of [p] up to and including its last separator. *)
Fixpoint dropToSlash (r : string) : string :=
  match r with
  | EmptyString => EmptyString
  | String c r' => if Ascii.eqb c slash then r else dropToSlash r'
  end.

(** [filepath.Dir] *)
Definition Dir (p : string) : string :=
  Clean (srev (dropToSlash (srev p))).

(** The elements of a cleaned path in the order the scanning loop of
    [filepath.Rel] meets them. *)
Definition relElems (p : string) : list string :=
  if (p =? "")%string then []
  else if (p =? "/")%string then [""]
  else splitOn slash p.

Fixpoint stripCommon (b t : list string) : list string * list string :=
  match b, t with
  | x :: b', y :: t' => if (x =? y)%string then stripCommon b' t' else (b, t)
  | _, _ => (b, t)
  end.

(** [filepath.Rel] *)
Definition Rel (basepath targpath : string) : result string :=
  let base := Clean basepath in
  let targ := Clean targpath in
  let cannot :=
    ErrMsg ("Rel: can't make " +:+ targpath +:+ " relative to " +:+ basepath) in
  if (targ =? base)%string then Ok "."
  else
    let base := if (base =? ".")%string then "" else base in
    if negb (Bool.eqb (HasPrefix base "/") (HasPrefix targ "/")) then Err cannot
    else
      let '(b, t) := stripCommon (relElems base) (relElems targ) in
      match b with
      | [] => Ok (Join t "/")
      | first :: _ =>
          if (first =? "..")%string then Err cannot
          else Ok (Join (repeat ".." (List.length b) ++ t) "/")
      end.

(** [pathWithin] *)
Definition pathWithin (base candidate : string) : result bool :=
  match Rel (Clean base) (Clean candidate) with
  | Err e => Err e
  | Ok rel =>
      if (rel =? ".")%string then Ok true
      else if (rel =? "..")%string || HasPrefix rel "../" then Ok false
      else Ok true
  end.

(** ** Package [sort] and the [unique] helper *)

Fixpoint insertString (x : string) (l : list string) : list string :=
  match l with
  | [] => [x]
  | y :: l' => if String.leb x y then x :: l else y :: insertString x l'
  end.

(** [sort.Strings]: byte-wise lexicographic order. *)
Definition sortStrings (l : list string) : list string :=
  fold_right insertString [] l.

Fixpoint dropRepeats (prev : string) (l : list string) : list string :=
  match l with
  | [] => []
  | x :: l' =>
      if (x =? prev)%string then dropRepeats prev l'
      else x :: dropRepeats x l'
  end.

(** [unique] *)
Definition unique (values : list string) : list string :=
  match sortStrings values with
  | [] => []
  | x :: l => x :: dropRepeats x l
  end.

(** ** The glob ignore matcher *)

(** The part of Go's regular expressions that [globToRegex] emits: a
    sequence of single-character items, some of them starred, between
    [^] and [$].  Matching is on bytes. *)
Inductive reItem :=
| ReAny                 (* [.] : anything but a line feed *)
| ReNotSlash            (* [[^/]] *)
| ReLit (c : ascii).    (* a literal, escaped or not *)

Inductive reAtom :=
| ReOne (i : reItem)
| ReStar (i : reItem).

Record regexp := {
  reBegin : bool;            (* starts with [^] *)
  reAtoms : list reAtom;
  reEnd : bool;              (* ends with [$] *)
}.

Record globMatcher := {
  pattern : string;
  regex : regexp;
}.

Definition defaultIgnoreGlobs : list string :=
  ["node_modules"; "node_modules/**"; "**/node_modules"; "**/node_modules/**"].

(** The characters of the raw string literal in [globToRegex] that get a
    backslash. *)
Definition regexMeta : string := ".+()|[]{}^$\\".

Fixpoint containsByte (s : string) (c : ascii) : bool :=
  match s with
  | EmptyString => false
  | String d s' => Ascii.eqb c d || containsByte s' c
  end.

(** The loop of [globToRegex] from position [i] on. *)
Fixpoint globBody (p : string) : string :=
  match p with
  | EmptyString => EmptyString
  | String ch p' =>
      if Ascii.eqb ch "*"%char then
        match p' with
        | String "*"%char p'' => ".*" +:+ globBody p''
        | _ => "[^/]*" +:+ globBody p'
        end
      else if Ascii.eqb ch "?"%char then "[^/]" +:+ globBody p'
      else if containsByte regexMeta ch then
        String "\"%char (String ch (globBody p'))
      else String ch (globBody p')
  end.

(** [globToRegex] *)
Definition globToRegex (pat : string) : result string :=
  let pat := TrimSpace pat in
  if (pat =? "")%string then Err (ErrMsg "empty pattern")
  else Ok ("^" +:+ globBody pat +:+ "$").

(** Parsing of the atoms of a regular expression source. *)
Definition starred (i : reItem) (rest : string) : reAtom * string :=
  match rest with
  | String "*"%char rest' => (ReStar i, rest')
  | _ => (ReOne i, rest)
  end.

Fixpoint parseAtoms (fuel : nat) (src : string) : option (list reAtom * bool) :=
  match fuel with
  | O => None
  | S fuel' =>
      match src with
      | EmptyString => Some ([], false)
      | String "$"%char EmptyString => Some ([], true)
      | String "."%char rest =>
          let '(a, rest') := starred ReAny rest in
          match parseAtoms fuel' rest' with
          | Some (l, e) => Some (a :: l, e)
          | None => None
          end
      | String "["%char (String "^"%char (String "/"%char (String "]"%char rest))) =>
          let '(a, rest') := starred ReNotSlash rest in
          match parseAtoms fuel' rest' with
          | Some (l, e) => Some (a :: l, e)
          | None => None
          end
      | String "\"%char (String c rest) =>
          if containsByte regexMeta c then
            let '(a, rest') := starred (ReLit c) rest in
            match parseAtoms fuel' rest' with
            | Some (l, e) => Some (a :: l, e)
            | None => None
            end
          else None
      | String c rest =>
          if containsByte regexMeta c || Ascii.eqb c "*"%char
             || Ascii.eqb c "?"%char
          then None
          else
            let '(a, rest') := starred (ReLit c) rest in
            match parseAtoms fuel' rest' with
            | Some (l, e) => Some (a :: l, e)
            | None => None
            end
      end
  end.

(** [regexp.Compile], on the sources in scope. *)
Definition regexpCompile (src : string) : result regexp :=
  let '(b, body) :=
    match src with
    | String "^"%char rest => (true, rest)
    | _ => (false, src)
    end in
  match parseAtoms (S (String.length body)) body with
  | Some (l, e) => Ok {| reBegin := b; reAtoms := l; reEnd := e |}
  | None => Err (ErrMsg ("error parsing regexp: " +:+ src))
  end.

Definition itemMatches (i : reItem) (c : ascii) : bool :=
  match i with
  | ReAny => negb (Ascii.eqb c (byte 10))
  | ReNotSlash => negb (Ascii.eqb c slash)
  | ReLit d => Ascii.eqb c d
  end.

(** Does some prefix of [s] match the atoms (the whole of [s] when
    [toEnd])? *)
Fixpoint matchHere (atoms : list reAtom) (toEnd : bool) (s : string) : bool :=
  match atoms with
  | [] => if toEnd then (s =? "")%string else true
  | ReOne i :: rest =>
      match s with
      | String c s' => itemMatches i c && matchHere rest toEnd s'
      | EmptyString => false
      end
  | ReStar i :: rest =>
      (fix star (s : string) : bool :=
         matchHere rest toEnd s ||
         match s with
         | String c s' => itemMatches i c && star s'
         | EmptyString => false
         end) s
  end.

Fixpoint matchAnywhere (atoms : list reAtom) (toEnd : bool) (s : string) : bool :=
  matchHere atoms toEnd s ||
  match s with
  | String _ s' => matchAnywhere atoms toEnd s'
  | EmptyString => false
  end.

(** [Regexp.MatchString] *)
Definition MatchString (re : regexp) (s : string) : bool :=
  if reBegin re then matchHere (reAtoms re) (reEnd re) s
  else matchAnywhere (reAtoms re) (reEnd re) s.

(** [strings.ReplaceAll(p, "\", "/")] *)
Fixpoint backslashToSlash (p : string) : string :=
  match p with
  | EmptyString => EmptyString
  | String c p' =>
      String (if Ascii.eqb c "\"%char then slash else c) (backslashToSlash p')
  end.

Fixpoint sanitizeEach (patterns : list string) : list string :=
  match patterns with
  | [] => []
  | pat :: rest =>
      let p := TrimSpace pat in
      if (p =? "")%string then sanitizeEach rest
      else TrimPrefix (backslashToSlash p) "./" :: sanitizeEach rest
  end.

(** [sanitizeIgnoreGlobs] *)
Definition sanitizeIgnoreGlobs (patterns : list string) : list string :=
  unique (sortStrings (sanitizeEach patterns)).

(** The [%q] verb, without escapes. *)
Definition quoted (s : string) : string :=
  String (byte 34) s +:+ String (byte 34) EmptyString.

Fixpoint compileEach (patterns : list string) : result (list globMatcher) :=
  match patterns with
  | [] => Ok []
  | pat :: rest =>
      match globToRegex pat with
      | Err e =>
          Err (ErrWrap ("invalid ignore glob " +:+ quoted pat) e)
      | Ok src =>
          match regexpCompile src with
          | Err e =>
              Err (ErrWrap ("invalid ignore glob " +:+ quoted pat) e)
          | Ok re =>
              match compileEach rest with
              | Err e => Err e
              | Ok ms => Ok ({| pattern := pat; regex := re |} :: ms)
              end
          end
      end
  end.

(** [compileGlobMatchers] *)
Definition compileGlobMatchers (patterns : list string)
  : result (list globMatcher) :=
  compileEach (sanitizeIgnoreGlobs patterns).

Fixpoint anyMatcher (rel : string) (isDir : bool) (matchers : list globMatcher)
  : bool :=
  match matchers with
  | [] => false
  | matcher :: rest =>
      if MatchString (regex matcher) rel then true
      else if isDir && MatchString (regex matcher) (rel +:+ "/") then true
      else anyMatcher rel isDir rest
  end.

(** [shouldIgnorePath] *)
Definition shouldIgnorePath (rel : string) (isDir : bool)
  (matchers : list globMatcher) : bool :=
  let rel := TrimSpace (ToSlash rel) in
  if (rel =? "")%string || (rel =? ".")%string then false
  else anyMatcher rel isDir matchers.

(** ** The managed-path classifier *)

(** [isMetadataPath] *)
Definition isMetadataPath (rel : string) : bool :=
  (rel =? ".git")%string || HasPrefix rel ".git/".

(** [normalizeManagedPath] *)
Definition normalizeManagedPath (rel : string) : result string :=
  let rel := ToSlash (TrimSpace rel) in
  let rel := Clean rel in
  if (rel =? ".")%string || (rel =? "")%string then
    Err (ErrMsg "invalid path")
  else if HasPrefix rel "/" then
    Err (ErrMsg "absolute paths are not allowed")
  else if HasPrefix rel "../" || Contains rel "/../" then
    Err (ErrMsg "path traversal is not allowed")
  else if isMetadataPath rel then
    Err (ErrMsg "path is reserved")
  else Ok rel.

(** ** The file system

    The state the program runs against.  Every entry is stored under the
    list of elements of its absolute, lexically cleaned path; the root is
    the empty list and always a directory.

    Scope of the model.
    - A path is resolved lexically, then every proper ancestor of the
      result must be a directory.  Symbolic links are followed in the
      last element only, to any depth: a link used as a directory in the
      middle of a path is not followed (lookups through it fail with
      [ENOTDIR]).
    - Permission bits, owners and times are not modelled.
    - [faults] is the outcome plan of the coming system calls, one item
      per call: [Pass] lets the call run, [IOFail] makes it fail with
      [EIO] without effect, [CrossDev] makes a rename fail with [EXDEV]
      (any other call treats it as [IOFail]).  An exhausted plan lets
      every call run. *)

Inductive node :=
| File (data : string)
| Symlink (target : string)
| Directory
| Special.

Inductive fault := Pass | IOFail | CrossDev.

Definition key := list string.

Record world := {
  files : gmap (list string) node;
  cwd : string;
  faults : list fault;
}.

Definition isRegular (n : node) : bool :=
  match n with File _ => true | _ => false end.
Definition isSymlink (n : node) : bool :=
  match n with Symlink _ => true | _ => false end.
Definition isDir (n : node) : bool :=
  match n with Directory => true | _ => false end.

(** Computations over the world. *)
Definition io (A : Type) : Type := world -> A * world.

Definition ret {A : Type} (a : A) : io A := fun w => (a, w).

Definition bind {A B : Type} (m : io A) (k : A -> io B) : io B :=
  fun w => let '(a, w') := m w in k a w'.

Notation "x <- c1 ;; c2" := (bind c1 (fun x => c2))
  (at level 100, c1 at next level, right associativity).

(** A [for ... range] loop whose body updates an accumulator. *)
Fixpoint forEach {A S : Type} (l : list A) (body : A -> S -> io S) (s : S)
  : io S :=
  match l with
  | [] => ret s
  | x :: rest => s' <- body x s ;; forEach rest body s'
  end.

Definition withFiles (w : world) (m : gmap (list string) node) : world :=
  {| files := m; cwd := cwd w; faults := faults w |}.

Definition nextFault : io fault :=
  fun w =>
    match faults w with
    | [] => (Pass, w)
    | f :: rest => (f, {| files := files w; cwd := cwd w; faults := rest |})
    end.

(** *** Keys *)

(** The key reached from directory [dir] by the text [p]. *)
Definition keyFrom (dir : list string) (p : string) : list string :=
  rev (fold_left (cleanStep true) (splitOn slash p) (rev dir)).

Definition pathKey (w : world) (p : string) : list string :=
  if IsAbs p then keyFrom [] p else keyFrom (keyFrom [] (cwd w)) p.

(** Where the target text of the link stored at [k] leads. *)
Definition targetKey (k : list string) (target : string) : list string :=
  if IsAbs target then keyFrom [] target else keyFrom (removelast k) target.

Definition keyPath (k : list string) : string := "/" +:+ Join k "/".

Definition nodeAt (m : gmap (list string) node) (k : list string)
  : option node :=
  match k with
  | [] => Some Directory
  | _ => m !! k
  end.

(** Walk from [cur] down the elements [rest]: every directory passed
    through must exist. *)
Fixpoint descend (m : gmap (list string) node) (cur rest : list string)
  : option errno :=
  match rest with
  | [] => None
  | c :: rest' =>
      match nodeAt m cur with
      | Some Directory => descend m (cur ++ [c]) rest'
      | Some _ => Some ENOTDIR
      | None => Some ENOENT
      end
  end.

Definition lstatKey (m : gmap (list string) node) (k : list string)
  : errno + node :=
  match descend m [] k with
  | Some e => inl e
  | None =>
      match nodeAt m k with
      | Some n => inr n
      | None => inl ENOENT
      end
  end.

(** Follow the links in the last element, at most [fuel] of them. *)
Fixpoint follow (fuel : nat) (m : gmap (list string) node) (k : list string)
  : errno + (list string * node) :=
  match lstatKey m k with
  | inl e => inl e
  | inr (Symlink t) =>
      if (t =? "")%string then inl ENOENT
      else
        match fuel with
        | O => inl ELOOP
        | S fuel' => follow fuel' m (targetKey k t)
        end
  | inr n => inr (k, n)
  end.

(** The kernel gives up after 40 links, [filepath.EvalSymlinks] after 255. *)
Definition maxLinksKernel : nat := 40.
Definition maxLinksEval : nat := 255.

(** What can name a directory entry: not empty, not [.] or [..], no
    separator in it. *)
Definition validName (name : string) : bool :=
  negb (name =? "")%string && negb (name =? ".")%string &&
  negb (name =? "..")%string && negb (containsByte name slash).

(** The name of [k'] under directory [k], when it is an entry of it. *)
Definition childName (k k' : list string) : option string :=
  match rev k' with
  | name :: up =>
      if validName name && bool_decide (rev up = k) then Some name else None
  | [] => None
  end.

Fixpoint insertEntry (x : string * node) (l : list (string * node))
  : list (string * node) :=
  match l with
  | [] => [x]
  | y :: l' =>
      if String.leb (fst x) (fst y) then x :: l else y :: insertEntry x l'
  end.

(** The entries of directory [k], sorted by name. *)
Definition children (m : gmap (list string) node) (k : list string)
  : list (string * node) :=
  fold_right insertEntry []
    (omap (fun kn : list string * node =>
             match childName k (fst kn) with
             | Some name => Some (name, snd kn)
             | None => None
             end)
          (map_to_list m)).

(** *** System calls *)

(** A call that only reads. *)
Definition sysRead {A : Type} (mkErr : errno -> error)
  (f : world -> errno + A) : io (result A) :=
  flt <- nextFault ;;
  fun w =>
    match flt with
    | Pass =>
        match f w with
        | inl e => (Err (mkErr e), w)
        | inr a => (Ok a, w)
        end
    | _ => (Err (mkErr EIO), w)
    end.

(** A call that replaces the set of entries when it succeeds. *)
Definition sysWrite (mkErr : errno -> error)
  (f : world -> errno + gmap (list string) node) : io (option error) :=
  flt <- nextFault ;;
  fun w =>
    match flt with
    | Pass =>
        match f w with
        | inl e => (Some (mkErr e), w)
        | inr m => (None, withFiles w m)
        end
    | _ => (Some (mkErr EIO), w)
    end.

Definition nonEmptyPath {A : Type} (p : string) (r : errno + A) : errno + A :=
  if (p =? "")%string then inl ENOENT else r.

(** [os.Lstat] *)
Definition Lstat (p : string) : io (result node) :=
  sysRead (ErrPath "lstat" p)
    (fun w => nonEmptyPath p (lstatKey (files w) (pathKey w p))).

(** [os.Stat] *)
Definition Stat (p : string) : io (result node) :=
  sysRead (ErrPath "stat" p)
    (fun w =>
       nonEmptyPath p
         match follow maxLinksKernel (files w) (pathKey w p) with
         | inl e => inl e
         | inr (_, n) => inr n
         end).

(** [os.Readlink] *)
Definition Readlink (p : string) : io (result string) :=
  sysRead (ErrPath "readlink" p)
    (fun w =>
       nonEmptyPath p
         match lstatKey (files w) (pathKey w p) with
         | inl e => inl e
         | inr (Symlink t) => inr t
         | inr _ => inl EINVAL
         end).

(** [os.ReadFile] *)
Definition ReadFile (p : string) : io (result string) :=
  sysRead (ErrPath "open" p)
    (fun w =>
       nonEmptyPath p
         match follow maxLinksKernel (files w) (pathKey w p) with
         | inl e => inl e
         | inr (_, File d) => inr d
         | inr (_, Directory) => inl EISDIR
         | inr _ => inl EINVAL
         end).

(** [os.ReadDir]: the entries with their types, sorted by name. *)
Definition ReadDir (p : string) : io (result (list (string * node))) :=
  sysRead (ErrPath "open" p)
    (fun w =>
       nonEmptyPath p
         match follow maxLinksKernel (files w) (pathKey w p) with
         | inl e => inl e
         | inr (k, Directory) => inr (children (files w) k)
         | inr _ => inl ENOTDIR
         end).

(** [os.Remove]: unlinks a file or link, removes an empty directory. *)
Definition Remove (p : string) : io (option error) :=
  sysWrite (ErrPath "remove" p)
    (fun w =>
       let m := files w in
       let k := pathKey w p in
       nonEmptyPath p
         match k with
         | [] => inl EINVAL
         | _ =>
             match lstatKey m k with
             | inl e => inl e
             | inr Directory =>
                 match children m k with
                 | [] => inr (delete k m)
                 | _ => inl ENOTEMPTY
                 end
             | inr _ => inr (delete k m)
             end
         end).

(** Creation of a fresh entry: the parent must exist and the name must
    be free. *)
Definition createAt (m : gmap (list string) node) (k : list string) (n : node)
  : errno + gmap (list string) node :=
  match descend m [] k with
  | Some e => inl e
  | None =>
      match nodeAt m k with
      | Some _ => inl EEXIST
      | None => inr (<[k := n]> m)
      end
  end.

(** [os.Symlink] *)
Definition Symlink_ (oldname newname : string) : io (option error) :=
  sysWrite (ErrLink "symlink" oldname newname)
    (fun w =>
       nonEmptyPath newname
         (createAt (files w) (pathKey w newname) (Symlink oldname))).

(** [os.Mkdir] *)
Definition Mkdir (p : string) : io (option error) :=
  sysWrite (ErrPath "mkdir" p)
    (fun w => nonEmptyPath p (createAt (files w) (pathKey w p) Directory)).

(** What a rename does to the entries.  The program renames regular
    files only (see [moveFile]); renaming a directory is outside the
    model and refused. *)
Definition renameAt (m : gmap (list string) node) (ko kn : list string)
  : errno + gmap (list string) node :=
  match lstatKey m ko with
  | inl e => inl e
  | inr Directory => inl EINVAL
  | inr n =>
      match descend m [] kn with
      | Some e => inl e
      | None =>
          match nodeAt m kn with
          | Some Directory => inl EISDIR
          | _ =>
              inr (if decide (ko = kn) then m
                   else <[kn := n]> (delete ko m))
          end
      end
  end.

(** [os.Rename] *)
Definition Rename (oldpath newpath : string) : io (option error) :=
  flt <- nextFault ;;
  fun w =>
    let mkErr := ErrLink "rename" oldpath newpath in
    match flt with
    | IOFail => (Some (mkErr EIO), w)
    | CrossDev => (Some (mkErr EXDEV), w)
    | Pass =>
        if (oldpath =? "")%string || (newpath =? "")%string
        then (Some (mkErr ENOENT), w)
        else
          match renameAt (files w) (pathKey w oldpath) (pathKey w newpath) with
          | inl e => (Some (mkErr e), w)
          | inr m => (None, withFiles w m)
          end
    end.

(** [os.Open]: the file read from, as the key the name resolves to. *)
Definition Open (p : string) : io (result (list string)) :=
  sysRead (ErrPath "open" p)
    (fun w =>
       nonEmptyPath p
         match follow maxLinksKernel (files w) (pathKey w p) with
         | inl e => inl e
         | inr (k, _) => inr k
         end).

(** Resolution for [O_CREATE|O_TRUNC|O_WRONLY]: links are followed, an
    existing regular file is emptied, a missing last element is created. *)
Fixpoint openTrunc (fuel : nat) (m : gmap (list string) node)
  (k : list string) : errno + (list string * gmap (list string) node) :=
  match descend m [] k with
  | Some e => inl e
  | None =>
      match nodeAt m k with
      | None => inr (k, <[k := File ""]> m)
      | Some (File _) => inr (k, <[k := File ""]> m)
      | Some Directory => inl EISDIR
      | Some Special => inl EINVAL
      | Some (Symlink t) =>
          if (t =? "")%string then inl ENOENT
          else
            match fuel with
            | O => inl ELOOP
            | S fuel' => openTrunc fuel' m (targetKey k t)
            end
      end
  end.

(** [os.OpenFile(p, os.O_CREATE|os.O_TRUNC|os.O_WRONLY, perm)] *)
Definition OpenFileTrunc (p : string) : io (result (list string)) :=
  flt <- nextFault ;;
  fun w =>
    match flt with
    | Pass =>
        if (p =? "")%string then (Err (ErrPath "open" p ENOENT), w)
        else
          match openTrunc maxLinksKernel (files w) (pathKey w p) with
          | inl e => (Err (ErrPath "open" p e), w)
          | inr (k, m) => (Ok k, withFiles w m)
          end
    | _ => (Err (ErrPath "open" p EIO), w)
    end.

(** [io.Copy(target, source)] on two open files. *)
Definition ioCopy (target source : list string) : io (option error) :=
  sysWrite (ErrPath "read" (keyPath source))
    (fun w =>
       match files w !! source with
       | Some (File d) => inr (<[target := File d]> (files w))
       | Some Directory => inl EISDIR
       | _ => inl EINVAL
       end).

(** [filepath.Abs] *)
Definition Abs (p : string) : io (result string) :=
  fun w => (Ok (if IsAbs p then Clean p else JoinPath (cwd w) p), w).

(** [filepath.EvalSymlinks] *)
Definition EvalSymlinks (p : string) : io (result string) :=
  sysRead (ErrPath "lstat" p)
    (fun w =>
       nonEmptyPath p
         match follow maxLinksEval (files w) (pathKey w p) with
         | inl e => inl e
         | inr (k, _) => inr (keyPath k)
         end).

(** The text before the last element of [p], as [os.MkdirAll] cuts it:
    trailing separators are skipped first. *)
Fixpoint dropSlashes (r : string) : string :=
  match r with
  | String c r' => if Ascii.eqb c slash then dropSlashes r' else r
  | EmptyString => r
  end.

Definition parentText (p : string) : string :=
  srev (dropToSlash (dropSlashes (srev p))).

(** [os.MkdirAll] *)
Fixpoint MkdirAllFuel (fuel : nat) (p : string) : io (option error) :=
  match fuel with
  | O => ret (Some (ErrPath "mkdir" p ELOOP))
  | S fuel' =>
      dir <- Stat p ;;
      match dir with
      | Ok n =>
          if isDir n then ret None
          else ret (Some (ErrPath "mkdir" p ENOTDIR))
      | Err _ =>
          let parent := parentText p in
          err <- (if (0 <? String.length parent)%nat
                  then MkdirAllFuel fuel' parent else ret None) ;;
          match err with
          | Some e => ret (Some e)
          | None =>
              err <- Mkdir p ;;
              match err with
              | None => ret None
              | Some e =>
                  dir1 <- Lstat p ;;
                  match dir1 with
                  | Ok n => if isDir n then ret None else ret (Some e)
                  | Err _ => ret (Some e)
                  end
              end
          end
      end
  end.

Definition MkdirAll (p : string) : io (option error) :=
  MkdirAllFuel (S (String.length p)) p.

(** ** File helpers of the program *)

(** [copyFile] *)
Definition copyFile (src dst : string) : io (option error) :=
  srcInfo <- Stat src ;;
  match srcInfo with
  | Err e => ret (Some e)
  | Ok n =>
      if negb (isRegular n) then
        ret (Some (ErrMsg "source is not a regular file"))
      else
        err <- MkdirAll (Dir dst) ;;
        match err with
        | Some e => ret (Some e)
        | None =>
            source <- Open src ;;
            match source with
            | Err e => ret (Some e)
            | Ok source =>
                target <- OpenFileTrunc dst ;;
                match target with
                | Err e => ret (Some e)
                | Ok target => ioCopy target source
                end
            end
        end
  end.

(** [moveFile] *)
Definition moveFile (src dst : string) : io (option error) :=
  err <- Rename src dst ;;
  match err with
  | None => ret None
  | Some e =>
      if negb (isCrossDevice e) then ret (Some e)
      else
        err <- copyFile src dst ;;
        match err with
        | Some e => ret (Some e)
        | None => Remove src
        end
  end.

(** [filesEqual] *)
Definition filesEqual (left right : string) : io (result bool) :=
  leftData <- ReadFile left ;;
  match leftData with
  | Err e => ret (Err e)
  | Ok leftData =>
      rightData <- ReadFile right ;;
      match rightData with
      | Err e => ret (Err e)
      | Ok rightData => ret (Ok (leftData =? rightData)%string)
      end
  end.

(** [symlinkPointsTo] *)
Definition symlinkPointsTo (linkPath targetPath : string) : io (result bool) :=
  resolved <- EvalSymlinks linkPath ;;
  match resolved with
  | Err e => ret (Err e)
  | Ok resolved =>
      resolvedAbs <- Abs resolved ;;
      match resolvedAbs with
      | Err e => ret (Err e)
      | Ok resolvedAbs =>
          targetAbs <- Abs targetPath ;;
          match targetAbs with
          | Err e => ret (Err e)
          | Ok targetAbs =>
              ret (Ok (Clean resolvedAbs =? Clean targetAbs)%string)
          end
      end
  end.

(** ** External collaborators

    What the program obtains from outside the file system: the output of
    [git ls-files], the environment, and the decoded configuration file. *)

Record cfgsConfig := {
  RepoPath : string;
  IgnoreGlobs : list string;
}.

Record collaborators := {
  (* combined output of [git ls-files] run in the given directory *)
  gitLsFiles : string -> result string;
  (* [os.Getenv("XDG_CONFIG_HOME")] *)
  envXDGConfigHome : string;
  (* [os.UserHomeDir()] *)
  userHomeDir : result string;
  (* the configuration file read and decoded: an error, no file, or the
     record as written *)
  configFile : result (option cfgsConfig);
}.

(** [xdgConfigHome] *)
Definition xdgConfigHome (c : collaborators) : result string :=
  let configured := TrimSpace (envXDGConfigHome c) in
  if negb (configured =? "")%string then Ok configured
  else
    match userHomeDir c with
    | Err e => Err (ErrWrap "resolve home directory" e)
    | Ok home => Ok (JoinPath home ".config")
    end.

(** [loadCfgsConfig]: [Ok None] stands for [ok == false]. *)
Definition loadCfgsConfig (c : collaborators) : result (option cfgsConfig) :=
  match xdgConfigHome c with
  | Err e => Err e
  | Ok _ =>
      match configFile c with
      | Err e => Err e
      | Ok None => Ok None
      | Ok (Some cfg) =>
          let repo := TrimSpace (RepoPath cfg) in
          let globs := sanitizeIgnoreGlobs (IgnoreGlobs cfg) in
          if (repo =? "")%string then Ok None
          else Ok (Some {| RepoPath := repo; IgnoreGlobs := globs |})
      end
  end.

(** [configuredIgnoreMatchers] *)
Definition configuredIgnoreMatchers (c : collaborators)
  : result (list globMatcher) :=
  match loadCfgsConfig c with
  | Err e => Err e
  | Ok cfg =>
      let patterns :=
        match cfg with
        | Some cfg =>
            if (0 <? List.length (IgnoreGlobs cfg))%nat then IgnoreGlobs cfg
            else defaultIgnoreGlobs
        | None => defaultIgnoreGlobs
        end in
      compileGlobMatchers patterns
  end.

Definition newline : ascii := byte 10.

Fixpoint normalizeLines (lines : list string) : list string :=
  match lines with
  | [] => []
  | line :: rest =>
      let line := TrimSpace line in
      if (line =? "")%string then normalizeLines rest
      else
        match normalizeManagedPath line with
        | Err _ => normalizeLines rest
        | Ok rel => rel :: normalizeLines rest
        end
  end.

(** [gitTrackedFiles] *)
Definition gitTrackedFiles (c : collaborators) (repoPath : string)
  : result (list string) :=
  match gitLsFiles c repoPath with
  | Err e => Err e
  | Ok output =>
      let out := TrimSpace output in
      if (TrimSpace out =? "")%string then Ok []
      else Ok (unique (sortStrings (normalizeLines (splitOn newline out))))
  end.

(** [loadManagedFiles] *)
Definition loadManagedFiles (c : collaborators) (repoPath : string)
  : result (list string) :=
  match gitTrackedFiles c repoPath with
  | Err e => Err e
  | Ok tracked =>
      Ok (unique (sortStrings
                    (filter (fun rel => negb (isMetadataPath rel)) tracked)))
  end.

(** [sliceToSet] *)
Definition sliceToSet (values : list string) : gset string :=
  list_to_set values.

Definition inSet (rel : string) (set : gset string) : bool :=
  bool_decide (rel ∈ set).

(** ** The doctor *)

Record doctorReport := {
  didNotTouch : list string;
  replacedWithSymlink : list string;
  unlinkedOrphanSymlink : list string;
  requireManualResolve : list string;
}.

Definition emptyDoctorReport : doctorReport :=
  {| didNotTouch := []; replacedWithSymlink := [];
     unlinkedOrphanSymlink := []; requireManualResolve := [] |}.

Definition addDidNotTouch (r : doctorReport) (rel : string) : doctorReport :=
  {| didNotTouch := didNotTouch r ++ [rel];
     replacedWithSymlink := replacedWithSymlink r;
     unlinkedOrphanSymlink := unlinkedOrphanSymlink r;
     requireManualResolve := requireManualResolve r |}.

Definition addReplaced (r : doctorReport) (rel : string) : doctorReport :=
  {| didNotTouch := didNotTouch r;
     replacedWithSymlink := replacedWithSymlink r ++ [rel];
     unlinkedOrphanSymlink := unlinkedOrphanSymlink r;
     requireManualResolve := requireManualResolve r |}.

Definition addUnlinked (r : doctorReport) (rel : string) : doctorReport :=
  {| didNotTouch := didNotTouch r;
     replacedWithSymlink := replacedWithSymlink r;
     unlinkedOrphanSymlink := unlinkedOrphanSymlink r ++ [rel];
     requireManualResolve := requireManualResolve r |}.

Definition addManual (r : doctorReport) (rel : string) : doctorReport :=
  {| didNotTouch := didNotTouch r;
     replacedWithSymlink := replacedWithSymlink r;
     unlinkedOrphanSymlink := unlinkedOrphanSymlink r;
     requireManualResolve := requireManualResolve r ++ [rel] |}.

(** One iteration of the loop over the managed paths in
    [cmdDoctorWithRepo]. *)
Definition doctorManagedPath (repoPath xdg : string) (rel : string)
  (report : doctorReport) : io doctorReport :=
  let repoFile := JoinPath repoPath (FromSlash rel) in
  let liveFile := JoinPath xdg (FromSlash rel) in
  repoInfo <- Stat repoFile ;;
  match repoInfo with
  | Err _ => ret (addManual report rel)
  | Ok repoInfo =>
      if negb (isRegular repoInfo) then ret (addManual report rel)
      else
        liveInfo <- Lstat liveFile ;;
        match liveInfo with
        | Err err =>
            if negb (isNotExist err) then ret (addManual report rel)
            else
              err <- MkdirAll (Dir liveFile) ;;
              match err with
              | Some _ => ret (addManual report rel)
              | None =>
                  err <- Symlink_ repoFile liveFile ;;
                  match err with
                  | Some _ => ret (addManual report rel)
                  | None => ret (addReplaced report rel)
                  end
              end
        | Ok liveInfo =>
            if isSymlink liveInfo then
              ok <- symlinkPointsTo liveFile repoFile ;;
              match ok with
              | Err _ => ret (addManual report rel)
              | Ok true => ret (addDidNotTouch report rel)
              | Ok false => ret (addManual report rel)
              end
            else if negb (isRegular liveInfo) then
              ret (addManual report rel)
            else
              same <- filesEqual repoFile liveFile ;;
              match same with
              | Err _ => ret (addManual report rel)
              | Ok false => ret (addManual report rel)
              | Ok true =>
                  err <- Remove liveFile ;;
                  match err with
                  | Some _ => ret (addManual report rel)
                  | None =>
                      err <- Symlink_ repoFile liveFile ;;
                      match err with
                      | Some _ => ret (addManual report rel)
                      | None => ret (addReplaced report rel)
                      end
                  end
              end
        end
  end.

(** [symlinkRepoTarget]: [Ok (target, inRepo)] or the error. *)
Definition symlinkRepoTarget (linkPath repoPath : string)
  : io (result (string * bool)) :=
  rawTarget <- Readlink linkPath ;;
  match rawTarget with
  | Err e => ret (Err e)
  | Ok rawTarget =>
      let targetPath := rawTarget in
      let targetPath :=
        if negb (IsAbs targetPath)
        then JoinPath (Dir linkPath) targetPath else targetPath in
      let targetPath := Clean targetPath in
      match pathWithin repoPath targetPath with
      | Err e => ret (Err e)
      | Ok false => ret (Ok ("", false))
      | Ok true => ret (Ok (targetPath, true))
      end
  end.

(** What a [fs.WalkDirFunc] returns here: [nil] or [filepath.SkipDir]. *)
Inductive walkAction := WalkOn | SkipDir.

(** The function literal passed to [filepath.WalkDir] in
    [reconcileOrphanRepoSymlinks]. *)
Definition orphanVisit (repoPath xdg : string) (managed : gset string)
  (ignoreMatchers : list globMatcher)
  (fullPath : string) (d : option node) (walkErr : option error)
  (report : doctorReport) : io (doctorReport * walkAction) :=
  match walkErr, d with
  | Some _, _ => ret (report, WalkOn)
  | None, None => ret (report, WalkOn)
  | None, Some d =>
      match Rel xdg fullPath with
      | Err _ => ret (report, WalkOn)
      | Ok rel =>
          let rel := ToSlash rel in
          if isDir d then
            if shouldIgnorePath rel true ignoreMatchers
            then ret (report, SkipDir)
            else ret (report, WalkOn)
          else if shouldIgnorePath rel false ignoreMatchers then
            ret (report, WalkOn)
          else if negb (isSymlink d) then ret (report, WalkOn)
          else
            match normalizeManagedPath rel with
            | Err _ => ret (report, WalkOn)
            | Ok rel =>
                if inSet rel managed then ret (report, WalkOn)
                else
                  found <- symlinkRepoTarget fullPath repoPath ;;
                  match found with
                  | Err _ => ret (report, WalkOn)
                  | Ok (_, false) => ret (report, WalkOn)
                  | Ok (target, true) =>
                      targetInfo <- Stat target ;;
                      match targetInfo with
                      | Err err =>
                          if isNotExist err then
                            err <- Remove fullPath ;;
                            match err with
                            | Some _ => ret (addManual report rel, WalkOn)
                            | None =>
                                ret (addUnlinked report
                                       (rel +:+ " (removed dangling symlink)"),
                                     WalkOn)
                            end
                          else ret (addManual report rel, WalkOn)
                      | Ok targetInfo =>
                          if negb (isRegular targetInfo) then
                            ret (addManual report rel, WalkOn)
                          else
                            err <- Remove fullPath ;;
                            match err with
                            | Some _ => ret (addManual report rel, WalkOn)
                            | None =>
                                err <- copyFile target fullPath ;;
                                match err with
                                | Some _ =>
                                    ret (addManual report rel, WalkOn)
                                | None => ret (addUnlinked report rel, WalkOn)
                                end
                            end
                      end
                  end
            end
      end
  end.

(** [filepath.WalkDir]'s recursive helper [walkDir].  The result says
    whether [SkipDir] is handed up to the caller, which then stops
    reading the directory it is in. *)
Fixpoint walkDir {S : Type} (fuel : nat)
  (fn : string -> option node -> option error -> S -> io (S * walkAction))
  (path : string) (d : node) (s : S) : io (S * walkAction) :=
  match fuel with
  | O => ret (s, WalkOn)
  | Datatypes.S fuel' =>
      r <- fn path (Some d) None s ;;
      let '(s1, act) := r in
      match act, isDir d with
      | SkipDir, true => ret (s1, WalkOn)
      | SkipDir, false => ret (s1, SkipDir)
      | WalkOn, false => ret (s1, WalkOn)
      | WalkOn, true =>
          dirs <- ReadDir path ;;
          match dirs with
          | Err e =>
              r <- fn path (Some d) (Some e) s1 ;;
              ret (fst r, WalkOn)
          | Ok dirs =>
              (fix each (dirs : list (string * node)) (s : S)
                 : io (S * walkAction) :=
                 match dirs with
                 | [] => ret (s, WalkOn)
                 | d1 :: rest =>
                     r <- walkDir fuel' fn (JoinPath path (fst d1)) (snd d1) s ;;
                     match snd r with
                     | SkipDir => ret (fst r, WalkOn)
                     | WalkOn => each rest (fst r)
                     end
                 end) dirs s1
          end
      end
  end.

(** [filepath.WalkDir].  No directory nests deeper than there are
    entries, which bounds the recursion. *)
Definition WalkDir {S : Type} (root : string)
  (fn : string -> option node -> option error -> S -> io (S * walkAction))
  (s : S) : io S :=
  info <- Lstat root ;;
  match info with
  | Err e => r <- fn root None (Some e) s ;; ret (fst r)
  | Ok d =>
      fun w =>
        (r <- walkDir (Datatypes.S (size (files w))) fn root d s ;;
         ret (fst r)) w
  end.

(** [reconcileOrphanRepoSymlinks].  The walk function never returns an
    error other than [SkipDir], so neither does the walk. *)
Definition reconcileOrphanRepoSymlinks (repoPath xdg : string)
  (managed : gset string) (ignoreMatchers : list globMatcher)
  : io (result doctorReport) :=
  let report := emptyDoctorReport in
  let repoPath := Clean repoPath in
  report <- WalkDir xdg (orphanVisit repoPath xdg managed ignoreMatchers)
              report ;;
  ret (Ok {| didNotTouch := didNotTouch report;
             replacedWithSymlink := replacedWithSymlink report;
             unlinkedOrphanSymlink :=
               sortStrings (unlinkedOrphanSymlink report);
             requireManualResolve :=
               sortStrings (requireManualResolve report) |}).

(** One bucket as [printDoctorReport] prints it. *)
Definition printBucket (title : string) (items : list string) : list string :=
  title ::
  match items with
  | [] => ["  (none)"]
  | _ => map (fun item => "  - " +:+ item) items
  end.

(** [printDoctorReport]: the lines written. *)
Definition printDoctorReport (report : doctorReport) : list string :=
  printBucket "did not touch:" (didNotTouch report) ++
  printBucket "replaced with symlink:" (replacedWithSymlink report) ++
  printBucket "unlinked orphan symlink:" (unlinkedOrphanSymlink report) ++
  printBucket "require manual reconcile:" (requireManualResolve report).

(** The [%d] verb. *)
Definition decimal (n : nat) : string :=
  NilEmpty.string_of_uint (Nat.to_uint n).

(** How far [cmdDoctorWithRepo] gets: an early error, the early return
    on an empty managed set, or the report as it stands when it is
    printed. *)
Inductive doctorOutcome :=
| DoctorError (e : error)
| DoctorNoTracked
| DoctorReported (report : doctorReport).

(** [cmdDoctorWithRepo] up to the point where the report is complete. *)
Definition doctorReconcile (c : collaborators) (repoPath : string)
  : io doctorOutcome :=
  match loadManagedFiles c repoPath with
  | Err e => ret (DoctorError e)
  | Ok managed =>
      if (List.length managed =? 0)%nat then ret DoctorNoTracked
      else
        match xdgConfigHome c with
        | Err e => ret (DoctorError e)
        | Ok xdg =>
            let managedSet := sliceToSet managed in
            report <- forEach managed (doctorManagedPath repoPath xdg)
                        emptyDoctorReport ;;
            match configuredIgnoreMatchers c with
            | Err e => ret (DoctorError e)
            | Ok ignoreMatchers =>
                orphanReport <- reconcileOrphanRepoSymlinks repoPath xdg
                                  managedSet ignoreMatchers ;;
                match orphanReport with
                | Err e => ret (DoctorError e)
                | Ok orphanReport =>
                    ret (DoctorReported
                           {| didNotTouch := didNotTouch report;
                              replacedWithSymlink :=
                                replacedWithSymlink report;
                              unlinkedOrphanSymlink :=
                                unlinkedOrphanSymlink report ++
                                unlinkedOrphanSymlink orphanReport;
                              requireManualResolve :=
                                requireManualResolve report ++
                                requireManualResolve orphanReport |})
                end
            end
        end
  end.

(** [cmdDoctorWithRepo]: the lines written to the output and the error
    returned ([None] is success). *)
Definition cmdDoctorWithRepo (c : collaborators) (repoPath : string)
  : io (list string * option error) :=
  o <- doctorReconcile c repoPath ;;
  match o with
  | DoctorError e => ret ([], Some e)
  | DoctorNoTracked => ret (["No tracked files found."], None)
  | DoctorReported report =>
      let n := List.length (requireManualResolve report) in
      ret (printDoctorReport report,
           if (0 <? n)%nat then
             Some (ErrMsg ("manual reconcile required for " +:+ decimal n
                           +:+ " file(s)"))
           else None)
  end.

(** ** Track and remove *)

Record operationReport := {
  changed : bool;
  succeeded : list string;
  skipped : list string;
  failed : list string;
}.

Definition emptyOperationReport : operationReport :=
  {| changed := false; succeeded := []; skipped := []; failed := [] |}.

Definition addSucceeded (r : operationReport) (item : string)
  : operationReport :=
  {| changed := true; succeeded := succeeded r ++ [item];
     skipped := skipped r; failed := failed r |}.

Definition addSkipped (r : operationReport) (item : string)
  : operationReport :=
  {| changed := changed r; succeeded := succeeded r;
     skipped := skipped r ++ [item]; failed := failed r |}.

Definition addFailed (r : operationReport) (item : string)
  : operationReport :=
  {| changed := changed r; succeeded := succeeded r;
     skipped := skipped r; failed := failed r ++ [item] |}.

(** One iteration of the loop of [trackSelections]. *)
Definition trackSelection (repoPath xdg : string) (raw : string)
  (st : operationReport * gset string) : io (operationReport * gset string) :=
  let '(report, managedSet) := st in
  match normalizeManagedPath raw with
  | Err _ => ret (addFailed report (raw +:+ ": invalid path"), managedSet)
  | Ok rel =>
      if inSet rel managedSet then
        ret (addSkipped report (rel +:+ ": already tracked"), managedSet)
      else
        let liveFile := JoinPath xdg (FromSlash rel) in
        let repoFile := JoinPath repoPath (FromSlash rel) in
        liveInfo <- Lstat liveFile ;;
        match liveInfo with
        | Err _ =>
            ret (addFailed report (rel +:+ ": source file missing"),
                 managedSet)
        | Ok liveInfo =>
            if negb (isRegular liveInfo) then
              ret (addSkipped report
                     (rel +:+ ": source is not a regular file"), managedSet)
            else
              repoInfo <- Stat repoFile ;;
              match repoInfo with
              | Ok _ =>
                  ret (addFailed report
                         (rel +:+ ": repo file already exists"), managedSet)
              | Err err =>
                  if negb (isNotExist err) then
                    ret (addFailed report
                           (rel +:+ ": repo file check failed: "
                            +:+ errorString err), managedSet)
                  else
                    err <- MkdirAll (Dir repoFile) ;;
                    match err with
                    | Some err =>
                        ret (addFailed report
                               (rel +:+ ": create repo dir: "
                                +:+ errorString err), managedSet)
                    | None =>
                        err <- moveFile liveFile repoFile ;;
                        match err with
                        | Some err =>
                            ret (addFailed report
                                   (rel +:+ ": move file: "
                                    +:+ errorString err), managedSet)
                        | None =>
                            err <- MkdirAll (Dir liveFile) ;;
                            match err with
                            | Some err =>
                                _ <- moveFile repoFile liveFile ;;
                                ret (addFailed report
                                       (rel
                                        +:+ ": restore after mkdir failure: "
                                        +:+ errorString err), managedSet)
                            | None =>
                                err <- Symlink_ repoFile liveFile ;;
                                match err with
                                | Some err =>
                                    _ <- moveFile repoFile liveFile ;;
                                    ret (addFailed report
                                           (rel +:+ ": create symlink: "
                                            +:+ errorString err), managedSet)
                                | None =>
                                    ret (addSucceeded report rel,
                                         {[rel]} ∪ managedSet)
                                end
                            end
                        end
                    end
              end
        end
  end.







(** * Vocabulary of the properties *)

(** ** Paths *)

Definition noSlash (c : string) : Prop := containsByte c slash = false.

(** A path element that [Clean] keeps as it is. *)
Definition plainElem (c : string) : Prop :=
  c <> "" /\ c <> "." /\ c <> ".." /\ noSlash c.

(** The elements kept by [Clean], last kept first: plain elements above
    a run of [..], which is empty for a rooted path. *)
Definition keptOk (rooted : bool) (kept : list string) : Prop :=
  exists names k,
    kept = names ++ repeat ".." k /\ Forall plainElem names /\
    (rooted = true -> k = 0).

(** A cleaned path, from what [Clean] kept. *)
Definition render (rooted : bool) (kept : list string) : string :=
  if rooted then "/" +:+ Join kept "/"
  else match kept with
       | [] => "."
       | _ => Join kept "/"
       end.

(** The path the walk builds for the entry reached from [root] through
    the directory entries [names]. *)
Definition namedPath (root : string) (names : list string) : string :=
  fold_left JoinPath names root.

(** The target of a link as [symlinkRepoTarget] computes it from the
    text of the link. *)
Definition lexTarget (linkPath rawTarget : string) : string :=
  Clean (if negb (IsAbs rawTarget)
         then JoinPath (Dir linkPath) rawTarget else rawTarget).

(** The path under which the pass reports the link found at [q]. *)
Definition orphanLabel (xdg q : string) : option string :=
  match Rel xdg q with
  | Ok relq =>
      match normalizeManagedPath (ToSlash relq) with
      | Ok rel => Some rel
      | Err _ => None
      end
  | Err _ => None
  end.

(** ** Worlds *)

(** Two worlds that differ in the fault plan at most. *)
Definition sameFiles (w w' : world) : Prop :=
  files w' = files w /\ cwd w' = cwd w.

(** [w'] has every entry of [w], and whatever it has more is a
    directory. *)
Definition grownByDirs (w w' : world) : Prop :=
  cwd w' = cwd w /\
  files w ⊆ files w' /\
  forall k n, files w' !! k = Some n -> files w !! k = Some n \/ n = Directory.

(** Every entry can be reached from the root through directories. *)
Definition treeShaped (m : gmap (list string) node) : Prop :=
  forall k n, m !! k = Some n -> descend m [] k = None.

(** ** Example file systems *)

(** The repository is [/repo] and the live tree [/live]; the current
    directory is the root.  [git ls-files] prints [tracked]; there is no
    configuration file. *)
Definition exampleCollaborators (tracked : string) : collaborators :=
  {| gitLsFiles := fun _ => Ok tracked;
     envXDGConfigHome := "/live";
     userHomeDir := Ok "/home/user";
     configFile := Ok None |}.

(** A live tree with an identical copy, a divergent copy, a link that
    leaves the repository alone and a dangling link into it. *)
Definition doctorExampleWorld : world :=
  {| files := list_to_map
       [ (["repo"], Directory); (["repo"; "nvim"], Directory);
         (["repo"; "nvim"; "init.lua"], File "set number");
         (["repo"; "git"], Directory);
         (["repo"; "git"; "config"], File "[user]");
         (["live"], Directory); (["live"; "nvim"], Directory);
         (["live"; "nvim"; "init.lua"], File "set mouse=a");
         (["live"; "git"], Directory);
         (["live"; "git"; "config"], File "[user]");
         (["live"; "hosts"], Symlink "/etc/hosts");
         (["live"; "stale"], Symlink "/repo/gone") ];
     cwd := "/"; faults := [] |}.

Definition doctorExampleTracked : string :=
  "git/config" +:+ String newline "nvim/init.lua".

(** The repository tracks a symbolic link next to the file it names. *)
Definition doctorLinkedWorld : world :=
  {| files := list_to_map
       [ (["repo"], Directory);
         (["repo"; "zshrc"], File "export EDITOR=vi");
         (["repo"; "zshenv"], Symlink "zshrc");
         (["live"], Directory) ];
     cwd := "/"; faults := [] |}.

Definition doctorLinkedTracked : string :=
  "zshenv" +:+ String newline "zshrc".

(** The live link of a tracked file reaches the repository through a
    second live link, which nothing tracks. *)
Definition doctorChainWorld : world :=
  {| files := list_to_map
       [ (["repo"], Directory);
         (["repo"; "zshrc"], File "export EDITOR=vi");
         (["live"], Directory);
         (["live"; "zshrc"], Symlink "/live/zshrc.link");
         (["live"; "zshrc.link"], Symlink "/repo/zshrc") ];
     cwd := "/"; faults := [] |}.

(** A live file about to be tracked, under a plan of failing calls. *)
Definition trackExampleWorld (plan : list fault) : world :=
  {| files := list_to_map
       [ (["repo"], Directory); (["live"], Directory);
         (["live"; "nvim"], Directory);
         (["live"; "nvim"; "init.lua"], File "set number") ];
     cwd := "/"; faults := plan |}.


Definition removeExampleLinked : world :=
  {| files := list_to_map
       [ (["repo"], Directory); (["repo"; "nvim"], Directory);
         (["repo"; "nvim"; "init.lua"], File "set number");
         (["live"], Directory); (["live"; "nvim"], Directory);
         (["live"; "nvim"; "init.lua"], Symlink "/repo/nvim/init.lua") ];
     cwd := "/"; faults := [] |}.

(** * Properties *)

(** ** Strings and path elements *)

Lemma eqb_string_true (a b : string) : (a =? b)%string = true <-> a = b.
Proof. apply String.eqb_eq. Qed.

Lemma eqb_string_false (a b : string) : (a =? b)%string = false <-> a <> b.
Proof. apply String.eqb_neq. Qed.

Lemma noSlash_cons c x :
  noSlash (String c x) <-> Ascii.eqb c slash = false /\ noSlash x.
Proof.
  unfold noSlash. cbn [containsByte]. rewrite (Ascii.eqb_sym slash c).
  apply orb_false_iff.
Qed.

Lemma noSlash_empty : noSlash "".
Proof. reflexivity. Qed.

Lemma splitOn_nonempty sep s : splitOn sep s <> [].
Proof.
  destruct s as [|c s]; cbn [splitOn]; [discriminate|].
  destruct (Ascii.eqb c sep); [discriminate|].
  destruct (splitOn sep s); discriminate.
Qed.

Lemma splitOn_noSlash s : Forall noSlash (splitOn slash s).
Proof.
  induction s as [|c s IH]; cbn [splitOn].
  - constructor; [apply noSlash_empty|constructor].
  - destruct (Ascii.eqb c slash) eqn:Hc.
    + constructor; [apply noSlash_empty|exact IH].
    + destruct (splitOn slash s) as [|h t].
      * constructor; [|constructor]. apply noSlash_cons. split; [assumption|apply noSlash_empty].
      * inversion IH; subst. constructor; [|assumption].
        apply noSlash_cons. split; assumption.
Qed.

Lemma append_empty_l (s : string) : "" +:+ s = s.
Proof. reflexivity. Qed.

Lemma append_cons (c : ascii) (x y : string) :
  String c x +:+ y = String c (x +:+ y).
Proof. reflexivity. Qed.

Lemma splitOn_app_slash x r :
  noSlash x -> splitOn slash (x +:+ String slash r) = x :: splitOn slash r.
Proof.
  induction x as [|c x IH]; intros Hx.
  - rewrite append_empty_l. cbn [splitOn]. rewrite Ascii.eqb_refl. reflexivity.
  - apply noSlash_cons in Hx as [Hc Hx].
    rewrite append_cons. cbn [splitOn]. rewrite Hc, (IH Hx). reflexivity.
Qed.

Lemma splitOn_plain x : noSlash x -> splitOn slash x = [x].
Proof.
  induction x as [|c x IH]; intros Hx; [reflexivity|].
  apply noSlash_cons in Hx as [Hc Hx].
  cbn [splitOn]. rewrite Hc, (IH Hx). reflexivity.
Qed.

Lemma Join_cons2 x y l sep :
  Join (x :: y :: l) sep = x +:+ sep +:+ Join (y :: l) sep.
Proof. reflexivity. Qed.

Lemma splitOn_Join l :
  l <> [] -> Forall noSlash l -> splitOn slash (Join l "/") = l.
Proof.
  induction l as [|x l IH]; [congruence|].
  intros _ Hl. inversion Hl as [|? ? Hx Hl']; subst.
  destruct l as [|y l].
  - cbn [Join]. apply splitOn_plain; assumption.
  - rewrite Join_cons2.
    change ("/" +:+ Join (y :: l) "/") with (String slash (Join (y :: l) "/")).
    rewrite splitOn_app_slash by assumption.
    rewrite IH; [reflexivity|discriminate|assumption].
Qed.

(** ** [Clean] *)

Lemma keptOk_nil rooted : keptOk rooted [].
Proof. exists [], 0. split; [reflexivity|]. split; [constructor|reflexivity]. Qed.

Lemma cleanStep_keptOk rooted kept c :
  noSlash c -> keptOk rooted kept -> keptOk rooted (cleanStep rooted kept c).
Proof.
  intros Hc (names & k & -> & Hn & Hk). unfold cleanStep.
  destruct (String.eqb_spec c ""); [exists names, k; auto|].
  destruct (String.eqb_spec c "."); [exists names, k; auto|].
  cbn [orb].
  destruct (String.eqb_spec c "..") as [->|Hdd].
  - destruct names as [|top names].
    + cbn [app]. destruct k as [|k]; cbn [repeat].
      * destruct rooted; [apply keptOk_nil|]. exists [], 1.
        split; [reflexivity|]. split; [constructor|discriminate].
      * rewrite String.eqb_refl. exists [], (S (S k)).
        split; [reflexivity|]. split; [constructor|].
        intros Hr. specialize (Hk Hr). discriminate.
    + cbn [app]. inversion Hn as [|? ? Htop Hn']; subst.
      destruct (String.eqb_spec top "..") as [->|_].
      * destruct Htop as (_ & _ & Hbad & _). congruence.
      * exists names, k. auto.
  - exists (c :: names), k. split; [reflexivity|]. split; [|assumption].
    constructor; [|assumption]. unfold plainElem. auto.
Qed.

Lemma fold_cleanStep_keptOk rooted elems kept :
  Forall noSlash elems -> keptOk rooted kept ->
  keptOk rooted (fold_left (cleanStep rooted) elems kept).
Proof.
  revert kept. induction elems as [|c elems IH]; intros kept He Hk; [exact Hk|].
  inversion He; subst. cbn [fold_left]. apply IH; [assumption|].
  apply cleanStep_keptOk; assumption.
Qed.

Lemma cleanStep_plain rooted kept c :
  plainElem c -> cleanStep rooted kept c = c :: kept.
Proof.
  intros (H1 & H2 & H3 & _). unfold cleanStep.
  apply String.eqb_neq in H1, H2, H3. rewrite H1, H2, H3. reflexivity.
Qed.

Lemma fold_cleanStep_plain rooted names kept :
  Forall plainElem names ->
  fold_left (cleanStep rooted) names kept = rev names ++ kept.
Proof.
  revert kept. induction names as [|c names IH]; intros kept Hn; [reflexivity|].
  inversion Hn; subst. cbn [fold_left rev].
  rewrite cleanStep_plain by assumption. rewrite IH by assumption.
  rewrite <- app_assoc. reflexivity.
Qed.

Lemma fold_cleanStep_dotdots k j :
  fold_left (cleanStep false) (repeat ".." k) (repeat ".." j)
  = repeat ".." (k + j).
Proof.
  revert j. induction k as [|k IH]; intros j; [reflexivity|].
  cbn [repeat fold_left].
  replace (cleanStep false (repeat ".." j) "..") with (repeat ".." (S j)).
  - rewrite IH. f_equal. lia.
  - destruct j; reflexivity.
Qed.

(** Cleaning what [Clean] kept changes nothing. *)
Lemma cleanElems_fixed rooted kept :
  keptOk rooted kept -> cleanElems rooted (rev kept) = rev kept.
Proof.
  intros (names & k & -> & Hn & Hk). unfold cleanElems. f_equal.
  rewrite rev_app_distr, fold_left_app.
  assert (Hd : fold_left (cleanStep rooted) (rev (repeat ".." k)) []
               = repeat ".." k).
  { destruct rooted.
    - rewrite (Hk eq_refl). reflexivity.
    - rewrite rev_repeat. pose proof (fold_cleanStep_dotdots k 0) as H.
      cbn [repeat] in H. rewrite H. f_equal. lia. }
  rewrite Hd. rewrite fold_cleanStep_plain.
  - rewrite rev_involutive. reflexivity.
  - apply Forall_rev. assumption.
Qed.

Lemma keptOk_elems rooted kept :
  keptOk rooted kept -> Forall (fun c => c <> "" /\ noSlash c) kept.
Proof.
  intros (names & k & -> & Hn & _). apply Forall_app. split.
  - eapply Forall_impl; [exact Hn|]. intros c (H1 & _ & _ & H4). auto.
  - clear. induction k; cbn [repeat]; constructor; [|assumption].
    split; [discriminate|reflexivity].
Qed.

Lemma HasPrefix_slash c s : HasPrefix (String c s) "/" = Ascii.eqb c slash.
Proof.
  unfold HasPrefix. cbn [String.prefix].
  destruct (ascii_dec "/" c) as [<-|Hne].
  - destruct s; reflexivity.
  - symmetry. apply Ascii.eqb_neq. intros ->. apply Hne. reflexivity.
Qed.

Lemma HasPrefix_empty p : HasPrefix "" (String slash p) = false.
Proof. reflexivity. Qed.

Lemma Join_head_nonempty x l :
  x <> "" -> exists c s, Join (x :: l) "/" = String c s /\ x = String c (match x with String _ t => t | _ => "" end).
Proof.
  intros Hx. destruct x as [|c t]; [congruence|].
  destruct l as [|y l].
  - exists c, t. split; reflexivity.
  - rewrite Join_cons2, append_cons. eexists c, _. split; reflexivity.
Qed.

Lemma cleanElems_fixed' rooted kept :
  keptOk rooted (rev kept) -> cleanElems rooted kept = kept.
Proof.
  intros Hk. rewrite <- (rev_involutive kept) at 1.
  rewrite cleanElems_fixed by assumption. apply rev_involutive.
Qed.

Lemma cleanElems_skip_empty rooted elems :
  cleanElems rooted ("" :: elems) = cleanElems rooted elems.
Proof. reflexivity. Qed.

Lemma Clean_rooted_form (kept : list string) :
  keptOk true (rev kept) ->
  Clean ("/" +:+ Join kept "/") = "/" +:+ Join kept "/".
Proof.
  intros Hk. unfold Clean.
  change ("/" +:+ Join kept "/") with (String slash (Join kept "/")).
  cbn [String.eqb]. rewrite HasPrefix_slash, Ascii.eqb_refl.
  cbn [splitOn]. rewrite Ascii.eqb_refl, cleanElems_skip_empty.
  destruct kept as [|x kept].
  - reflexivity.
  - rewrite splitOn_Join; [|discriminate|].
    + rewrite cleanElems_fixed' by assumption. reflexivity.
    + apply keptOk_elems in Hk. apply Forall_rev in Hk.
      rewrite rev_involutive in Hk.
      eapply Forall_impl; [exact Hk|]. intros c [_ H]. exact H.
Qed.

Lemma Clean_relative_form (kept : list string) :
  kept <> [] -> keptOk false (rev kept) ->
  Clean (Join kept "/") = Join kept "/".
Proof.
  intros Hne Hk.
  assert (Hel : Forall (fun c => c <> "" /\ noSlash c) kept).
  { apply keptOk_elems in Hk. apply Forall_rev in Hk.
    rewrite rev_involutive in Hk. exact Hk. }
  destruct kept as [|x kept]; [congruence|].
  inversion Hel as [|? ? [Hx Hxs] Hel']; subst.
  destruct (Join_head_nonempty x kept Hx) as (c & s & HJ & Hxc).
  unfold Clean. rewrite HJ. cbn [String.eqb]. rewrite HasPrefix_slash.
  rewrite Hxc in Hxs. apply noSlash_cons in Hxs as [Hc _]. rewrite Hc.
  rewrite <- HJ. rewrite splitOn_Join; [|discriminate|].
  - rewrite cleanElems_fixed' by assumption. reflexivity.
  - eapply Forall_impl; [exact Hel|]. intros ? [_ H]. exact H.
Qed.

Lemma cleanElems_keptOk rooted p :
  keptOk rooted (rev (cleanElems rooted (splitOn slash p))).
Proof.
  unfold cleanElems. rewrite rev_involutive.
  apply fold_cleanStep_keptOk; [apply splitOn_noSlash|apply keptOk_nil].
Qed.

(** [Clean] is idempotent. *)
Lemma Clean_idempotent p : Clean (Clean p) = Clean p.
Proof.
  destruct (String.eqb_spec p "") as [->|Hp]; [reflexivity|].
  unfold Clean at 2 3. apply String.eqb_neq in Hp. rewrite Hp.
  pose proof (cleanElems_keptOk (HasPrefix p "/") p) as Hk.
  destruct (HasPrefix p "/").
  - apply Clean_rooted_form. exact Hk.
  - destruct (cleanElems false (splitOn slash p)) as [|x kept] eqn:E.
    + reflexivity.
    + apply Clean_relative_form; [discriminate|exact Hk].
Qed.

(** ** The managed-path classifier *)

Lemma HasPrefix_append p s : HasPrefix (p +:+ s) p = true.
Proof.
  unfold HasPrefix. induction p as [|c p IH].
  - destruct s; reflexivity.
  - rewrite append_cons. cbn [String.prefix].
    destruct (ascii_dec c c); [exact IH|congruence].
Qed.

Lemma Clean_rooted p : HasPrefix p "/" = true -> HasPrefix (Clean p) "/" = true.
Proof.
  intros Hp. unfold Clean. destruct (String.eqb_spec p "") as [->|_]; [discriminate|].
  rewrite Hp. apply (HasPrefix_append "/").
Qed.

(** A cleaned relative path with a [..] element either is [..] or
    starts with [../]. *)
Lemma Clean_dotdot_prefix p :
  HasPrefix (Clean p) "/" = false ->
  In ".." (splitOn slash (Clean p)) ->
  Clean p = ".." \/ HasPrefix (Clean p) "../" = true.
Proof.
  intros Habs Hin.
  destruct (HasPrefix p "/") eqn:Hr.
  { rewrite (Clean_rooted p Hr) in Habs. discriminate. }
  pose proof (cleanElems_keptOk false p) as Hk.
  destruct (String.eqb_spec p "") as [Hp|Hp].
  { rewrite Hp in Hin. cbn in Hin. destruct Hin as [H|[]]; discriminate. }
  unfold Clean in *. apply String.eqb_neq in Hp. rewrite Hp, Hr in *.
  destruct (cleanElems false (splitOn slash p)) as [|x kept] eqn:E.
  { cbn in Hin. destruct Hin as [H|[]]; discriminate. }
  pose proof (keptOk_elems _ _ Hk) as Hel. apply Forall_rev in Hel.
  rewrite rev_involutive in Hel.
  rewrite splitOn_Join in Hin; [|discriminate|].
  2:{ eapply Forall_impl; [exact Hel|]. intros ? [_ H]; exact H. }
  destruct Hk as (names & k & Hst & Hn & _).
  apply (f_equal (@rev string)) in Hst.
  rewrite rev_involutive, rev_app_distr, rev_repeat in Hst.
  destruct k as [|k].
  - cbn [repeat app] in Hst. rewrite Hst in Hin. apply in_rev in Hin.
    rewrite Forall_forall in Hn. apply list_elem_of_In in Hin. apply Hn in Hin.
    destruct Hin as (_ & _ & Hbad & _). congruence.
  - cbn [repeat app] in Hst. injection Hst as -> ->.
    destruct (repeat ".." k ++ rev names) as [|y rest].
    + left. reflexivity.
    + right. rewrite Join_cons2. apply (HasPrefix_append "../").
Qed.

(** Every input whose cleaned form is [.], absolute, reserved, or
    holds a [..] element without being [..] itself is rejected. *)
Lemma normalizeManagedPath_rejects raw :
  let c := Clean (ToSlash (TrimSpace raw)) in
  c = "." \/ c = "" \/ HasPrefix c "/" = true \/
  (In ".." (splitOn slash c) /\ c <> "..") \/ isMetadataPath c = true ->
  exists e, normalizeManagedPath raw = Err e.
Proof.
  intros c H. unfold normalizeManagedPath. fold c.
  destruct ((c =? ".")%string || (c =? "")%string) eqn:H1; [eauto|].
  destruct (HasPrefix c "/") eqn:H2; [eauto|].
  destruct (HasPrefix c "../" || Contains c "/../") eqn:H3; [eauto|].
  destruct (isMetadataPath c) eqn:H4; [eauto|].
  exfalso. apply orb_false_iff in H1 as [H1a H1b], H3 as [H3a H3b].
  apply String.eqb_neq in H1a, H1b.
  destruct H as [H|[H|[H|[[Hin Hne]|H]]]]; try congruence.
  destruct (Clean_dotdot_prefix (ToSlash (TrimSpace raw)) H2 Hin) as [Hd|Hd];
    fold c in Hd; congruence.
Qed.

(** C7, the concrete cases the specification lists: four rejections and
    one normalisation. *)
Lemma normalizeManagedPath_examples :
  (exists e, normalizeManagedPath "/etc/passwd" = Err e) /\
  (exists e, normalizeManagedPath "../../etc/passwd" = Err e) /\
  (exists e, normalizeManagedPath ".git" = Err e) /\
  (exists e, normalizeManagedPath ".git/config" = Err e) /\
  normalizeManagedPath "nvim/init.lua" = Ok "nvim/init.lua" /\
  normalizeManagedPath "./nvim/init.lua" = Ok "nvim/init.lua".
Proof. repeat split; try (eexists; reflexivity); reflexivity. Qed.

(** C7 (code defect).  The classifier is meant to reject any path whose
    cleaned form holds a [..] traversal element.  The input [..] cleans to
    [..], which is such an element, and is accepted: the traversal test
    looks for [../] at the start and [/../] inside, and misses the bare
    [..]. *)
Theorem normalizeManagedPath_accepts_dotdot :
  In ".." (splitOn slash (Clean (ToSlash (TrimSpace "..")))) /\
  normalizeManagedPath ".." = Ok "..".
Proof. split; [left; reflexivity|reflexivity]. Qed.

(** [pathWithin], the sibling test in the same program, does treat the
    bare [..] as leaving the base. *)
Lemma pathWithin_dotdot : pathWithin "/repo" "/" = Ok false.
Proof. reflexivity. Qed.

(** C10, as stated, fails: the classifier trims white space before it
    cleans, so cleaning can bring white space to the edge of the result,
    and a second pass trims it. *)
Lemma normalizeManagedPath_not_idempotent :
  normalizeManagedPath "./ a" = Ok " a" /\
  normalizeManagedPath " a" = Ok "a" /\
  normalizeManagedPath "./ .git" = Ok " .git" /\
  normalizeManagedPath " .git" = Err (ErrMsg "path is reserved").
Proof. repeat split; reflexivity. Qed.

(** C10, amended.  An accepted path that has no white space at either
    end is a fixed point of the classifier. *)
Theorem normalizeManagedPath_stable (raw rel : string) :
  normalizeManagedPath raw = Ok rel ->
  TrimSpace rel = rel ->
  normalizeManagedPath rel = Ok rel.
Proof.
  intros Hn Ht. unfold normalizeManagedPath in Hn.
  set (c := Clean (ToSlash (TrimSpace raw))) in Hn.
  destruct ((c =? ".")%string || (c =? "")%string) eqn:H1; [discriminate|].
  destruct (HasPrefix c "/") eqn:H2; [discriminate|].
  destruct (HasPrefix c "../" || Contains c "/../") eqn:H3; [discriminate|].
  destruct (isMetadataPath c) eqn:H4; [discriminate|].
  injection Hn as <-.
  unfold normalizeManagedPath. rewrite Ht. unfold ToSlash.
  assert (Hc : Clean c = c) by apply Clean_idempotent.
  rewrite Hc, H1, H2, H3, H4. reflexivity.
Qed.

Lemma normalizeManagedPath_stable_witness :
  normalizeManagedPath "nvim/init.lua" = Ok "nvim/init.lua".
Proof.
  apply (normalizeManagedPath_stable "./nvim/init.lua" "nvim/init.lua");
    reflexivity.
Defined.

(** ** The glob ignore matcher *)

(** C8, as stated, fails twice: [node_modules/**] does match the
    directory [node_modules] (a directory is also tried with a trailing
    slash), and [**/node_modules] does not match the bare [node_modules]
    (the expression asks for a slash before the name). *)
Lemma glob_claim_counterexample :
  exists m1 m2,
    compileGlobMatchers ["node_modules/**"] = Ok m1 /\
    compileGlobMatchers ["**/node_modules"] = Ok m2 /\
    shouldIgnorePath "node_modules" true m1 = true /\
    shouldIgnorePath "node_modules" false m2 = false /\
    shouldIgnorePath "node_modules" true m2 = false.
Proof. do 2 eexists. repeat split; reflexivity. Qed.

(** C8, amended.  The matcher for [node_modules/**] matches
    [node_modules/pkg/index.js]; it does not match [node_modules] taken as
    a file and matches it taken as a directory.  The matcher for
    [**/node_modules] matches [a/b/node_modules] and does not match the
    bare [node_modules]. *)
Theorem glob_matcher_examples :
  exists m1 m2,
    compileGlobMatchers ["node_modules/**"] = Ok m1 /\
    compileGlobMatchers ["**/node_modules"] = Ok m2 /\
    globToRegex "node_modules/**" = Ok "^node_modules/.*$" /\
    globToRegex "**/node_modules" = Ok "^.*/node_modules$" /\
    shouldIgnorePath "node_modules/pkg/index.js" false m1 = true /\
    shouldIgnorePath "node_modules" false m1 = false /\
    shouldIgnorePath "node_modules" true m1 = true /\
    shouldIgnorePath "a/b/node_modules" false m2 = true /\
    shouldIgnorePath "a/b/node_modules" true m2 = true /\
    shouldIgnorePath "node_modules" false m2 = false /\
    shouldIgnorePath "node_modules" true m2 = false.
Proof. do 2 eexists. repeat split; reflexivity. Qed.

(** The default set covers the bare directory name with a pattern of
    its own. *)
Lemma default_globs_cover_bare_name :
  exists ms,
    compileGlobMatchers defaultIgnoreGlobs = Ok ms /\
    shouldIgnorePath "node_modules" true ms = true /\
    shouldIgnorePath "node_modules" false ms = true.
Proof. eexists. repeat split; reflexivity. Qed.

(** ** The doctor command *)

(** C9.  With an empty managed set the command prints its one line,
    returns success and leaves the world as it found it: no entry is
    created, changed or removed, no system call is even made, and the
    orphan pass does not run. *)
Theorem doctor_no_tracked_files (c : collaborators) (repoPath : string)
  (w : world) :
  loadManagedFiles c repoPath = Ok [] ->
  cmdDoctorWithRepo c repoPath w = ((["No tracked files found."], None), w) /\
  doctorReconcile c repoPath w = (DoctorNoTracked, w).
Proof.
  intros H. unfold cmdDoctorWithRepo, bind, doctorReconcile.
  rewrite H. split; reflexivity.
Qed.

Lemma doctor_no_tracked_files_witness :
  cmdDoctorWithRepo (exampleCollaborators "") "/repo" doctorExampleWorld
  = ((["No tracked files found."], None), doctorExampleWorld) /\
  doctorReconcile (exampleCollaborators "") "/repo" doctorExampleWorld
  = (DoctorNoTracked, doctorExampleWorld).
Proof.
  apply (doctor_no_tracked_files (exampleCollaborators "") "/repo"
           doctorExampleWorld).
  vm_compute. reflexivity.
Defined.



(** ** System calls: what they read and what they change *)

Lemma sameFiles_refl w : sameFiles w w.
Proof. split; reflexivity. Qed.

Lemma sameFiles_trans w1 w2 w3 :
  sameFiles w1 w2 -> sameFiles w2 w3 -> sameFiles w1 w3.
Proof. intros [A B] [C D]. split; congruence. Qed.

Lemma pathKey_sameFiles w w' p : sameFiles w w' -> pathKey w' p = pathKey w p.
Proof. intros [_ H]. unfold pathKey. rewrite H. reflexivity. Qed.

Lemma nextFault_sameFiles w f w' : nextFault w = (f, w') -> sameFiles w w'.
Proof.
  unfold nextFault. destruct (faults w); intros H; injection H as <- <-;
    split; reflexivity.
Qed.

(** A reading call either fails with [EIO] by the fault plan or returns
    what the file system holds; it never changes an entry. *)
Lemma sysRead_spec {A : Type} (mkErr : errno -> error)
  (f : world -> errno + A) (w : world) (r : result A) (w' : world) :
  sysRead mkErr f w = (r, w') ->
  sameFiles w w' /\
  (r = Err (mkErr EIO) \/
   r = match f w' with inl e => Err (mkErr e) | inr a => Ok a end).
Proof.
  unfold sysRead, bind. destruct (nextFault w) as [flt w1] eqn:E.
  apply nextFault_sameFiles in E.
  destruct flt.
  - destruct (f w1) eqn:F; intros H; injection H as <- <-;
      (split; [exact E|right; rewrite F; reflexivity]).
  - intros H; injection H as <- <-. split; [exact E|left; reflexivity].
  - intros H; injection H as <- <-. split; [exact E|left; reflexivity].
Qed.

(** A writing call either fails and changes nothing, or succeeds with
    the entries its body computed. *)
Lemma sysWrite_spec (mkErr : errno -> error)
  (f : world -> errno + gmap (list string) node) (w : world)
  (r : option error) (w' : world) :
  sysWrite mkErr f w = (r, w') ->
  cwd w' = cwd w /\
  ((exists e, r = Some e /\ files w' = files w) \/
   (exists w1, sameFiles w w1 /\ r = None /\ f w1 = inr (files w'))).
Proof.
  unfold sysWrite, bind. destruct (nextFault w) as [flt w1] eqn:E.
  apply nextFault_sameFiles in E. destruct E as [Ef Ec].
  destruct flt.
  - destruct (f w1) eqn:F; intros H; injection H as <- <-.
    + split; [exact Ec|left; eauto].
    + split; [exact Ec|right]. exists w1. repeat split; assumption.
  - intros H; injection H as <- <-. split; [exact Ec|left; eauto].
  - intros H; injection H as <- <-. split; [exact Ec|left; eauto].
Qed.

Lemma Stat_spec p w r w' :
  Stat p w = (r, w') ->
  sameFiles w w' /\
  (r = Err (ErrPath "stat" p EIO) \/
   r = match nonEmptyPath p
               match follow maxLinksKernel (files w) (pathKey w p) with
               | inl e => inl e
               | inr (_, n) => inr n
               end with
       | inl e => Err (ErrPath "stat" p e)
       | inr n => Ok n
       end).
Proof.
  intros H. apply sysRead_spec in H as [Hs H]. split; [exact Hs|].
  cbv beta in H. rewrite (pathKey_sameFiles _ _ p Hs) in H.
  destruct Hs as [Hf _]. rewrite Hf in H. exact H.
Qed.

Lemma Lstat_spec p w r w' :
  Lstat p w = (r, w') ->
  sameFiles w w' /\
  (r = Err (ErrPath "lstat" p EIO) \/
   r = match nonEmptyPath p (lstatKey (files w) (pathKey w p)) with
       | inl e => Err (ErrPath "lstat" p e)
       | inr n => Ok n
       end).
Proof.
  intros H. apply sysRead_spec in H as [Hs H]. split; [exact Hs|].
  cbv beta in H. rewrite (pathKey_sameFiles _ _ p Hs) in H.
  destruct Hs as [Hf _]. rewrite Hf in H. exact H.
Qed.

Lemma ReadFile_spec p w r w' :
  ReadFile p w = (r, w') ->
  sameFiles w w' /\
  (r = Err (ErrPath "open" p EIO) \/
   r = match nonEmptyPath p
               match follow maxLinksKernel (files w) (pathKey w p) with
               | inl e => inl e
               | inr (_, File d) => inr d
               | inr (_, Directory) => inl EISDIR
               | inr _ => inl EINVAL
               end with
       | inl e => Err (ErrPath "open" p e)
       | inr d => Ok d
       end).
Proof.
  intros H. apply sysRead_spec in H as [Hs H]. split; [exact Hs|].
  cbv beta in H. rewrite (pathKey_sameFiles _ _ p Hs) in H.
  destruct Hs as [Hf _]. rewrite Hf in H. exact H.
Qed.

Lemma follow_regular fuel m k d :
  lstatKey m k = inr (File d) -> follow fuel m k = inr (k, File d).
Proof. intros H. destruct fuel; cbn [follow]; rewrite H; reflexivity. Qed.

Lemma Clean_nonempty p : Clean p <> "".
Proof.
  unfold Clean.
  destruct (String.eqb_spec p ""); [discriminate|].
  destruct (HasPrefix p "/"); [discriminate|].
  pose proof (cleanElems_keptOk false p) as Hk.
  destruct (cleanElems false (splitOn slash p)) as [|x kept]; [discriminate|].
  apply keptOk_elems in Hk. apply Forall_rev in Hk. rewrite rev_involutive in Hk.
  inversion Hk as [|? ? [Hx _] _]; subst.
  destruct x; [congruence|]. destruct kept; [discriminate|].
  rewrite Join_cons2, append_cons. discriminate.
Qed.

Lemma JoinPath_nonempty a b : b <> "" -> JoinPath a b <> "".
Proof.
  intros Hb. unfold JoinPath. apply String.eqb_neq in Hb. rewrite Hb.
  destruct (a =? "")%string; apply Clean_nonempty.
Qed.



(** *** Writing calls *)

Lemma Remove_spec p w r w' :
  Remove p w = (r, w') ->
  cwd w' = cwd w /\
  ((exists e, r = Some e /\ files w' = files w) \/
   (r = None /\ p <> "" /\ pathKey w p <> [] /\
    (exists n, lstatKey (files w) (pathKey w p) = inr n /\
               (n = Directory -> children (files w) (pathKey w p) = [])) /\
    files w' = delete (pathKey w p) (files w))).
Proof.
  intros H. apply sysWrite_spec in H as [Hc [H|(w1 & Hs & -> & H)]].
  { split; [exact Hc|left; exact H]. }
  split; [exact Hc|right]. cbv beta zeta in H.
  rewrite (pathKey_sameFiles _ _ p Hs) in H. destruct Hs as [Hf _].
  rewrite Hf in H. unfold nonEmptyPath in H.
  destruct (String.eqb_spec p "") as [|Hp]; [discriminate|].
  destruct (pathKey w p) as [|x k] eqn:K; [discriminate|].
  destruct (lstatKey (files w) (x :: k)) as [e|n] eqn:L; [discriminate|].
  split; [reflexivity|]. split; [assumption|]. split; [discriminate|].
  destruct n.
  - injection H as <-. split; [eexists; split; [reflexivity|discriminate]|reflexivity].
  - injection H as <-. split; [eexists; split; [reflexivity|discriminate]|reflexivity].
  - destruct (children (files w) (x :: k)) eqn:C; [|discriminate].
    injection H as <-. split; [eexists; split; [reflexivity|auto]|reflexivity].
  - injection H as <-. split; [eexists; split; [reflexivity|discriminate]|reflexivity].
Qed.

Lemma createAt_spec m k n m' :
  createAt m k n = inr m' ->
  descend m [] k = None /\ nodeAt m k = None /\ m' = <[k := n]> m.
Proof.
  unfold createAt. destruct (descend m [] k); [discriminate|].
  destruct (nodeAt m k); [discriminate|]. intros H; injection H as <-. auto.
Qed.

Lemma nodeAt_None m k : nodeAt m k = None -> k <> [] /\ m !! k = None.
Proof. destruct k; [discriminate|]. cbn. intros H. split; [discriminate|exact H]. Qed.

Lemma Symlink_spec oldname newname w r w' :
  Symlink_ oldname newname w = (r, w') ->
  cwd w' = cwd w /\
  ((exists e, r = Some e /\ files w' = files w) \/
   (r = None /\ newname <> "" /\
    descend (files w) [] (pathKey w newname) = None /\
    files w !! pathKey w newname = None /\
    files w' = <[pathKey w newname := Symlink oldname]> (files w))).
Proof.
  intros H. apply sysWrite_spec in H as [Hc [H|(w1 & Hs & -> & H)]].
  { split; [exact Hc|left; exact H]. }
  split; [exact Hc|right]. cbv beta in H.
  rewrite (pathKey_sameFiles _ _ _ Hs) in H. destruct Hs as [Hf _].
  rewrite Hf in H. unfold nonEmptyPath in H.
  destruct (String.eqb_spec newname "") as [|Hp]; [discriminate|].
  apply createAt_spec in H as (Hd & Hn & ->).
  apply nodeAt_None in Hn as [_ Hn]. auto.
Qed.

Lemma Mkdir_spec p w r w' :
  Mkdir p w = (r, w') ->
  cwd w' = cwd w /\
  ((exists e, r = Some e /\ files w' = files w) \/
   (r = None /\ p <> "" /\
    descend (files w) [] (pathKey w p) = None /\
    files w !! pathKey w p = None /\
    files w' = <[pathKey w p := Directory]> (files w))).
Proof.
  intros H. apply sysWrite_spec in H as [Hc [H|(w1 & Hs & -> & H)]].
  { split; [exact Hc|left; exact H]. }
  split; [exact Hc|right]. cbv beta in H.
  rewrite (pathKey_sameFiles _ _ _ Hs) in H. destruct Hs as [Hf _].
  rewrite Hf in H. unfold nonEmptyPath in H.
  destruct (String.eqb_spec p "") as [|Hp]; [discriminate|].
  apply createAt_spec in H as (Hd & Hn & ->).
  apply nodeAt_None in Hn as [_ Hn]. auto.
Qed.

Lemma grownByDirs_refl w : grownByDirs w w.
Proof. split; [reflexivity|]. split; [reflexivity|]. auto. Qed.

Lemma grownByDirs_same w w' : sameFiles w w' -> grownByDirs w w'.
Proof.
  intros [Hf Hc]. split; [exact Hc|]. rewrite Hf. split; [reflexivity|]. auto.
Qed.

Lemma grownByDirs_trans w1 w2 w3 :
  grownByDirs w1 w2 -> grownByDirs w2 w3 -> grownByDirs w1 w3.
Proof.
  intros (C1 & S1 & D1) (C2 & S2 & D2). split; [congruence|].
  split; [etransitivity; eassumption|].
  intros k n H. destruct (D2 k n H) as [H'|H']; [|auto]. apply D1. exact H'.
Qed.

Lemma Mkdir_grows p w r w' : Mkdir p w = (r, w') -> grownByDirs w w'.
Proof.
  intros H. apply Mkdir_spec in H as [Hc [(e & _ & Hf)|(_ & _ & _ & Hn & Hf)]].
  - apply grownByDirs_same. split; assumption.
  - split; [exact Hc|]. rewrite Hf. split.
    + apply insert_subseteq. exact Hn.
    + intros k n. rewrite lookup_insert. case_decide.
      * intros Hk; injection Hk as <-. auto.
      * auto.
Qed.

Lemma MkdirAllFuel_grows fuel p w r w' :
  MkdirAllFuel fuel p w = (r, w') -> grownByDirs w w'.
Proof.
  revert p w r w'. induction fuel as [|fuel IH]; intros p w r w'.
  - cbn. intros H; injection H as <- <-. apply grownByDirs_refl.
  - cbn [MkdirAllFuel]. unfold bind.
    destruct (Stat p w) as [r1 w1] eqn:E1.
    apply Stat_spec in E1 as [S1 _]. apply grownByDirs_same in S1.
    destruct r1 as [n|e].
    { destruct (isDir n); intros H; injection H as <- <-; exact S1. }
    destruct ((0 <? String.length (parentText p))%nat).
    + destruct (MkdirAllFuel fuel (parentText p) w1) as [r2 w2] eqn:E2.
      apply IH in E2. pose proof (grownByDirs_trans _ _ _ S1 E2) as S2.
      destruct r2 as [e2|].
      { intros H; injection H as <- <-. exact S2. }
      destruct (Mkdir p w2) as [r3 w3] eqn:E3. apply Mkdir_grows in E3.
      pose proof (grownByDirs_trans _ _ _ S2 E3) as S3.
      destruct r3 as [e3|].
      * destruct (Lstat p w3) as [r4 w4] eqn:E4.
        apply Lstat_spec in E4 as [S4 _]. apply grownByDirs_same in S4.
        pose proof (grownByDirs_trans _ _ _ S3 S4) as S5.
        destruct r4 as [n4|e4]; [destruct (isDir n4)|];
          intros H; injection H as <- <-; exact S5.
      * intros H; injection H as <- <-. exact S3.
    + unfold ret at 1.
      destruct (Mkdir p w1) as [r3 w3] eqn:E3. apply Mkdir_grows in E3.
      pose proof (grownByDirs_trans _ _ _ S1 E3) as S3.
      destruct r3 as [e3|].
      * destruct (Lstat p w3) as [r4 w4] eqn:E4.
        apply Lstat_spec in E4 as [S4 _]. apply grownByDirs_same in S4.
        pose proof (grownByDirs_trans _ _ _ S3 S4) as S5.
        destruct r4 as [n4|e4]; [destruct (isDir n4)|];
          intros H; injection H as <- <-; exact S5.
      * intros H; injection H as <- <-. exact S3.
Qed.

Lemma MkdirAll_grows p w r w' : MkdirAll p w = (r, w') -> grownByDirs w w'.
Proof. apply MkdirAllFuel_grows. Qed.

(** *** Lookups survive growth *)

Lemma nodeAt_mono (m m' : gmap (list string) node) k n :
  m ⊆ m' -> nodeAt m k = Some n -> nodeAt m' k = Some n.
Proof.
  intros Hs. destruct k; cbn; [auto|]. intros H. eapply lookup_weaken; eassumption.
Qed.

Lemma descend_mono (m m' : gmap (list string) node) cur rest :
  m ⊆ m' -> descend m cur rest = None -> descend m' cur rest = None.
Proof.
  intros Hs. revert cur. induction rest as [|c rest IH]; intros cur; [auto|].
  cbn [descend]. destruct (nodeAt m cur) as [n|] eqn:E; [|discriminate].
  rewrite (nodeAt_mono _ _ _ _ Hs E). destruct n; auto.
Qed.

Lemma lstatKey_mono (m m' : gmap (list string) node) k n :
  m ⊆ m' -> lstatKey m k = inr n -> lstatKey m' k = inr n.
Proof.
  intros Hs. unfold lstatKey.
  destruct (descend m [] k) eqn:D; [discriminate|].
  rewrite (descend_mono _ _ _ _ Hs D).
  destruct (nodeAt m k) as [n'|] eqn:E; [|discriminate].
  rewrite (nodeAt_mono _ _ _ _ Hs E). auto.
Qed.

Lemma follow_mono (fuel : nat) (m m' : gmap (list string) node) k r :
  m ⊆ m' -> follow fuel m k = inr r -> follow fuel m' k = inr r.
Proof.
  intros Hs. revert k. induction fuel as [|fuel IH]; intros k; cbn [follow].
  - destruct (lstatKey m k) as [e|n] eqn:L; [discriminate|].
    rewrite (lstatKey_mono _ _ _ _ Hs L). auto.
  - destruct (lstatKey m k) as [e|n] eqn:L; [discriminate|].
    rewrite (lstatKey_mono _ _ _ _ Hs L). destruct n as [d|t| |]; auto.
    destruct (t =? "")%string; auto.
Qed.

Lemma lstatKey_nodeAt m k n : lstatKey m k = inr n -> nodeAt m k = Some n.
Proof.
  unfold lstatKey. destruct (descend m [] k); [discriminate|].
  destruct (nodeAt m k); [|discriminate]. intros H; injection H as <-. reflexivity.
Qed.

Lemma nodeAt_lookup m k n : m !! k = Some n -> k <> [] -> nodeAt m k = Some n.
Proof. destruct k; [congruence|]. auto. Qed.

Lemma pathKey_cwd w w' p : cwd w' = cwd w -> pathKey w' p = pathKey w p.
Proof. intros H. unfold pathKey. rewrite H. reflexivity. Qed.

Lemma renameAt_spec m ko kn m' :
  renameAt m ko kn = inr m' ->
  exists n, lstatKey m ko = inr n /\ n <> Directory /\
            descend m [] kn = None /\
            nodeAt m kn <> Some Directory /\
            m' = if decide (ko = kn) then m else <[kn := n]> (delete ko m).
Proof.
  unfold renameAt. destruct (lstatKey m ko) as [e|n]; [discriminate|].
  destruct (descend m [] kn) eqn:D; [destruct n; discriminate|].
  destruct (nodeAt m kn) as [nn|] eqn:N.
  - destruct n, nn; try discriminate; intros H; injection H as <-;
      eexists; (split; [reflexivity|]); (split; [discriminate|]);
      (split; [reflexivity|]); (split; [discriminate|reflexivity]).
  - destruct n; try discriminate; intros H; injection H as <-;
      eexists; (split; [reflexivity|]); (split; [discriminate|]);
      (split; [reflexivity|]); (split; [discriminate|reflexivity]).
Qed.

Lemma Rename_spec oldpath newpath w r w' :
  Rename oldpath newpath w = (r, w') ->
  cwd w' = cwd w /\
  ((exists e, r = Some e /\ files w' = files w) \/
   (r = None /\ oldpath <> "" /\ newpath <> "" /\
    renameAt (files w) (pathKey w oldpath) (pathKey w newpath)
      = inr (files w'))).
Proof.
  unfold Rename, bind. destruct (nextFault w) as [flt w1] eqn:E.
  apply nextFault_sameFiles in E. destruct E as [Ef Ec].
  cbv zeta. rewrite !(pathKey_cwd w w1 _ Ec), Ef.
  destruct flt.
  2,3: intros H; injection H as <- <-; split; [exact Ec|left; eauto].
  destruct (String.eqb_spec oldpath "") as [|Ho].
  { intros H; injection H as <- <-; split; [exact Ec|left; eauto]. }
  destruct (String.eqb_spec newpath "") as [|Hn].
  { intros H; injection H as <- <-; split; [exact Ec|left; eauto]. }
  cbn [orb].
  destruct (renameAt (files w) (pathKey w oldpath) (pathKey w newpath)) eqn:R;
    intros H; injection H as <- <-.
  - split; [exact Ec|left; eauto].
  - split; [exact Ec|right]. auto.
Qed.

(** ** Track: the compensating move *)

Lemma moveFile_cwd_and_rename src dst w w' :
  Rename src dst w = (None, w') -> moveFile src dst w = (None, w').
Proof. intros H. unfold moveFile, bind. rewrite H. reflexivity. Qed.




(** ** Copying onto a free name *)

Lemma Open_spec p w r w' :
  Open p w = (r, w') ->
  sameFiles w w' /\
  (r = Err (ErrPath "open" p EIO) \/
   r = match nonEmptyPath p
               match follow maxLinksKernel (files w) (pathKey w p) with
               | inl e => inl e
               | inr (k, _) => inr k
               end with
       | inl e => Err (ErrPath "open" p e)
       | inr k => Ok k
       end).
Proof.
  intros H. apply sysRead_spec in H as [Hs H]. split; [exact Hs|].
  cbv beta in H. rewrite (pathKey_sameFiles _ _ p Hs) in H.
  destruct Hs as [Hf _]. rewrite Hf in H. exact H.
Qed.

Lemma OpenFileTrunc_spec p w r w' :
  OpenFileTrunc p w = (r, w') ->
  cwd w' = cwd w /\
  ((exists e, r = Err e /\ files w' = files w) \/
   (exists k, r = Ok k /\ p <> "" /\
      openTrunc maxLinksKernel (files w) (pathKey w p) = inr (k, files w'))).
Proof.
  unfold OpenFileTrunc, bind. destruct (nextFault w) as [flt w1] eqn:E.
  apply nextFault_sameFiles in E. destruct E as [Ef Ec].
  rewrite (pathKey_cwd w w1 _ Ec), Ef.
  destruct flt.
  2,3: intros H; injection H as <- <-; split; [exact Ec|left; eauto].
  destruct (String.eqb_spec p "") as [|Hp].
  { intros H; injection H as <- <-; split; [exact Ec|left; eauto]. }
  destruct (openTrunc maxLinksKernel (files w) (pathKey w p)) as [e|[k m]] eqn:O;
    intros H; injection H as <- <-.
  - split; [exact Ec|left; eauto].
  - split; [exact Ec|right]. exists k. auto.
Qed.

Lemma ioCopy_spec target source w r w' :
  ioCopy target source w = (r, w') ->
  cwd w' = cwd w /\
  ((exists e, r = Some e /\ files w' = files w) \/
   (r = None /\ exists d, files w !! source = Some (File d) /\
                          files w' = <[target := File d]> (files w))).
Proof.
  intros H. apply sysWrite_spec in H as [Hc [H|(w1 & [Hf _] & -> & H)]].
  { split; [exact Hc|left; exact H]. }
  split; [exact Hc|right]. split; [reflexivity|]. cbv beta in H. rewrite Hf in H.
  destruct (files w !! source) as [[d|t| |]|]; try discriminate.
  injection H as <-. eauto.
Qed.

Lemma openTrunc_free fuel m k r :
  m !! k = None -> k <> [] ->
  openTrunc fuel m k = inr r ->
  r = (k, <[k := File ""]> m) /\ descend m [] k = None.
Proof.
  intros Hk Hne. destruct fuel; cbn [openTrunc];
    (destruct (descend m [] k); [discriminate|]);
    (destruct k; [congruence|]); cbn [nodeAt]; rewrite Hk;
    intros H; injection H as <-; split; reflexivity.
Qed.

Lemma lstatKey_present (m : gmap (list string) node) k n :
  descend m [] k = None -> m !! k = Some n -> k <> [] -> lstatKey m k = inr n.
Proof.
  intros Hd Hk Hne. unfold lstatKey. rewrite Hd.
  rewrite (nodeAt_lookup _ _ _ Hk Hne). reflexivity.
Qed.

Lemma openTrunc_dir fuel m k :
  m !! k = Some Directory -> k <> [] -> exists e, openTrunc fuel m k = inl e.
Proof.
  intros Hk Hne. destruct fuel; cbn [openTrunc];
    (destruct (descend m [] k); [eauto|]);
    (destruct k; [congruence|]); cbn [nodeAt]; rewrite Hk; eauto.
Qed.

Lemma follow_key_present fuel m k k' d :
  follow fuel m k = inr (k', File d) -> k' <> [] /\ m !! k' = Some (File d).
Proof.
  revert k. induction fuel as [|fuel IH]; intros k; cbn [follow];
    (destruct (lstatKey m k) as [e|n] eqn:L; [discriminate|]);
    destruct n as [d0|t| |]; try discriminate.
  - intros H; injection H as <- <-. apply lstatKey_nodeAt in L.
    destruct k; [discriminate|]. split; [discriminate|exact L].
  - destruct (t =? "")%string; discriminate.
  - intros H; injection H as <- <-. apply lstatKey_nodeAt in L.
    destruct k; [discriminate|]. split; [discriminate|exact L].
  - destruct (t =? "")%string; [discriminate|]. apply IH.
Qed.

(** Copying to a name that is free: every entry there was stays, the
    only entries added are directories and the copy itself, and on
    success the copy holds what the source resolves to. *)
Lemma copyFile_onto_free src dst w r w' :
  files w !! pathKey w dst = None -> pathKey w dst <> [] ->
  copyFile src dst w = (r, w') ->
  cwd w' = cwd w /\
  files w ⊆ files w' /\
  (forall k n, files w' !! k = Some n ->
     files w !! k = Some n \/ n = Directory \/ k = pathKey w dst) /\
  (r = None ->
   exists ks d,
     follow maxLinksKernel (files w') (pathKey w src) = inr (ks, File d) /\
     lstatKey (files w') (pathKey w dst) = inr (File d)).
Proof.
  intros Hfree Hroot. unfold copyFile, bind.
  set (kd := pathKey w dst) in *.
  assert (Hsame : forall w0, sameFiles w w0 ->
    cwd w0 = cwd w /\ files w ⊆ files w0 /\
    (forall k n, files w0 !! k = Some n ->
       files w !! k = Some n \/ n = Directory \/ k = kd)).
  { intros w0 [Hf Hc]. split; [exact Hc|]. rewrite Hf. split; [reflexivity|auto]. }
  assert (Hgrown : forall w0, grownByDirs w w0 ->
    cwd w0 = cwd w /\ files w ⊆ files w0 /\
    (forall k n, files w0 !! k = Some n ->
       files w !! k = Some n \/ n = Directory \/ k = kd)).
  { intros w0 (Hc & Hs & Hd). split; [exact Hc|]. split; [exact Hs|].
    intros k n H. destruct (Hd k n H); auto. }
  destruct (Stat src w) as [r1 w1] eqn:E1.
  apply Stat_spec in E1 as [S1 R1].
  destruct r1 as [n1|e1].
  2:{ intros H; injection H as <- <-.
      destruct (Hsame w1 S1) as (? & ? & ?). repeat split; auto; discriminate. }
  destruct n1 as [d| | |]; cbn [isRegular negb].
  2-4: intros H; injection H as <- <-;
       destruct (Hsame w1 S1) as (? & ? & ?); repeat split; auto; discriminate.
  assert (Hsrc : exists ks, follow maxLinksKernel (files w) (pathKey w src)
                            = inr (ks, File d)).
  { destruct R1 as [R1|R1]; [discriminate|]. unfold nonEmptyPath in R1.
    destruct (src =? "")%string; [discriminate|].
    destruct (follow maxLinksKernel (files w) (pathKey w src)) as [e|[ks n]];
      [discriminate|]. injection R1 as ->. eauto. }
  destruct Hsrc as (ks & Hsrc).
  destruct (follow_key_present _ _ _ _ _ Hsrc) as [Hks0 Hks].
  destruct (MkdirAll (Dir dst) w1) as [r2 w2] eqn:E2.
  apply MkdirAll_grows in E2.
  pose proof (grownByDirs_trans _ _ _ (grownByDirs_same _ _ S1) E2) as G2.
  destruct r2 as [e2|].
  { intros H; injection H as <- <-.
    destruct (Hgrown w2 G2) as (? & ? & ?). repeat split; auto; discriminate. }
  destruct (Open src w2) as [r3 w3] eqn:E3.
  apply Open_spec in E3 as [S3 R3].
  pose proof (grownByDirs_trans _ _ _ G2 (grownByDirs_same _ _ S3)) as G3.
  destruct G2 as (C2 & Sub2 & D2).
  destruct r3 as [k3|e3].
  2:{ intros H; injection H as <- <-.
      destruct (Hgrown w3 G3) as (? & ? & ?). repeat split; auto; discriminate. }
  assert (k3 = ks).
  { destruct R3 as [R3|R3]; [discriminate|]. unfold nonEmptyPath in R3.
    destruct (src =? "")%string; [discriminate|].
    rewrite (pathKey_cwd w w2 _ C2) in R3.
    rewrite (follow_mono _ _ _ _ _ Sub2 Hsrc) in R3. congruence. }
  subst k3.
  destruct (OpenFileTrunc dst w3) as [r4 w4] eqn:E4.
  apply OpenFileTrunc_spec in E4 as [C4 R4].
  destruct G3 as (C3 & Sub3 & D3).
  destruct R4 as [(e4 & -> & F4)|(k4 & -> & Hdst & O4)].
  { intros H; injection H as <- <-. split; [congruence|]. rewrite F4.
    split; [exact Sub3|]. split; [|discriminate].
    intros k n H. destruct (D3 k n H); auto. }
  rewrite (pathKey_cwd w w3 _ C3) in O4. fold kd in O4.
  assert (H3 : files w3 !! kd = None).
  { destruct (files w3 !! kd) as [n|] eqn:E; [|reflexivity].
    destruct (D3 kd n E) as [Hbad| ->]; [congruence|].
    destruct (openTrunc_dir maxLinksKernel _ _ E Hroot) as [e He]. congruence. }
  apply (openTrunc_free _ _ _ _ H3 Hroot) in O4 as [O4 Hdesc].
  injection O4 as -> F4.
  assert (Hne : ks <> kd) by congruence.
  assert (Sub4 : files w ⊆ files w4).
  { rewrite F4. etransitivity; [exact Sub3|]. apply insert_subseteq. exact H3. }
  assert (D4 : forall k n, files w4 !! k = Some n ->
             files w !! k = Some n \/ n = Directory \/ k = kd).
  { intros k n. rewrite F4, lookup_insert. case_decide; [auto|].
    intros H'. destruct (D3 k n H'); auto. }
  destruct (ioCopy kd ks w4) as [r5 w5] eqn:E5.
  apply ioCopy_spec in E5 as [C5 R5].
  intros H; injection H as <- <-.
  destruct R5 as [(e5 & -> & F5)|(-> & d5 & Hd5 & F5)].
  { split; [congruence|]. rewrite F5. repeat split; auto; discriminate. }
  assert (d5 = d).
  { rewrite F4, lookup_insert_ne in Hd5 by congruence.
    pose proof (lookup_weaken _ _ _ _ Hks Sub3). congruence. }
  subst d5.
  assert (Sub5 : files w ⊆ files w5).
  { rewrite F5, F4, insert_insert_eq. etransitivity; [exact Sub3|].
    apply insert_subseteq. exact H3. }
  split; [congruence|]. split; [exact Sub5|]. split.
  - intros k n. rewrite F5, lookup_insert. case_decide; [auto|]. apply D4.
  - intros _. exists ks, d. split.
    + eapply follow_mono; [exact Sub5|exact Hsrc].
    + apply lstatKey_present; [|rewrite F5; apply lookup_insert_eq|exact Hroot].
      eapply descend_mono; [|exact Hdesc]. rewrite F5, F4, insert_insert_eq.
      apply insert_subseteq. exact H3.
Qed.

(** Copying to a name held by a directory fails, and adds directories
    at most. *)
Lemma copyFile_onto_dir src dst w r w' :
  files w !! pathKey w dst = Some Directory -> pathKey w dst <> [] ->
  copyFile src dst w = (r, w') ->
  r <> None /\ grownByDirs w w'.
Proof.
  intros Hdir Hroot. unfold copyFile, bind.
  destruct (Stat src w) as [r1 w1] eqn:E1.
  apply Stat_spec in E1 as [S1 _]. apply grownByDirs_same in S1.
  destruct r1 as [n1|e1].
  2:{ intros H; injection H as <- <-. split; [discriminate|exact S1]. }
  destruct (isRegular n1); cbn [negb].
  2:{ intros H; injection H as <- <-. split; [discriminate|exact S1]. }
  destruct (MkdirAll (Dir dst) w1) as [r2 w2] eqn:E2.
  apply MkdirAll_grows in E2.
  pose proof (grownByDirs_trans _ _ _ S1 E2) as G2.
  destruct r2 as [e2|].
  { intros H; injection H as <- <-. split; [discriminate|exact G2]. }
  destruct (Open src w2) as [r3 w3] eqn:E3.
  apply Open_spec in E3 as [S3 _].
  pose proof (grownByDirs_trans _ _ _ G2 (grownByDirs_same _ _ S3)) as G3.
  destruct r3 as [k3|e3].
  2:{ intros H; injection H as <- <-. split; [discriminate|exact G3]. }
  destruct (OpenFileTrunc dst w3) as [r4 w4] eqn:E4.
  apply OpenFileTrunc_spec in E4 as [C4 R4].
  destruct R4 as [(e4 & -> & F4)|(k4 & -> & Hdst & O4)].
  { intros H; injection H as <- <-. split; [discriminate|].
    eapply grownByDirs_trans; [exact G3|].
    apply grownByDirs_same. split; assumption. }
  exfalso. destruct G3 as (C3 & Sub3 & _).
  rewrite (pathKey_cwd w w3 _ C3) in O4.
  pose proof (lookup_weaken _ _ _ _ Hdir Sub3) as Hdir3.
  destruct (openTrunc_dir maxLinksKernel _ _ Hdir3 Hroot) as [e He]. congruence.
Qed.

(** ** Paths and keys *)

Lemma splitOn_app_sep a b :
  splitOn slash (a +:+ "/" +:+ b) = splitOn slash a ++ splitOn slash b.
Proof.
  induction a as [|c a IH].
  - rewrite append_empty_l. change ("/" +:+ b) with (String slash b).
    cbn [splitOn]. rewrite Ascii.eqb_refl. reflexivity.
  - rewrite append_cons. cbn [splitOn]. rewrite IH.
    destruct (Ascii.eqb c slash); [reflexivity|].
    pose proof (splitOn_nonempty slash a) as Hne.
    destruct (splitOn slash a); [congruence|reflexivity].
Qed.

Lemma IsAbs_app a b : a <> "" -> IsAbs (a +:+ b) = IsAbs a.
Proof.
  intros Ha. destruct a as [|c a]; [congruence|].
  rewrite append_cons. unfold IsAbs. rewrite !HasPrefix_slash. reflexivity.
Qed.

Lemma keyFrom_app base a b :
  keyFrom base (a +:+ "/" +:+ b) = keyFrom (keyFrom base a) b.
Proof.
  unfold keyFrom. rewrite splitOn_app_sep, fold_left_app, rev_involutive.
  reflexivity.
Qed.

Lemma keyFrom_plain base c : plainElem c -> keyFrom base c = base ++ [c].
Proof.
  intros Hc. unfold keyFrom. destruct Hc as (H1 & H2 & H3 & H4).
  rewrite (splitOn_plain c H4). cbn [fold_left].
  rewrite cleanStep_plain by (unfold plainElem; auto).
  cbn [rev]. rewrite rev_involutive. reflexivity.
Qed.

Lemma keyFrom_plains base comps :
  comps <> [] -> Forall plainElem comps ->
  keyFrom base (Join comps "/") = base ++ comps.
Proof.
  intros Hne Hc. unfold keyFrom. rewrite splitOn_Join; [|exact Hne|].
  - rewrite fold_cleanStep_plain by exact Hc.
    rewrite rev_app_distr, !rev_involutive. reflexivity.
  - eapply Forall_impl; [exact Hc|]. intros c (_ & _ & _ & H). exact H.
Qed.

(** Popping at the root of a rooted path does nothing. *)
Lemma fold_cleanStep_pops st k :
  Forall plainElem st ->
  fold_left (cleanStep true) (repeat ".." k) st = drop k st.
Proof.
  revert st. induction k as [|k IH]; intros st Hst; [reflexivity|].
  cbn [repeat fold_left]. destruct st as [|top st].
  - cbn [cleanStep String.eqb Ascii.eqb orb]. cbn. rewrite IH by constructor.
    destruct k; reflexivity.
  - inversion Hst as [|? ? Htop Hst']; subst.
    assert (E : cleanStep true (top :: st) ".." = st).
    { unfold cleanStep. cbn [String.eqb Ascii.eqb orb]. cbn.
      destruct Htop as (_ & _ & Hdd & _). apply String.eqb_neq in Hdd.
      rewrite Hdd. reflexivity. }
    rewrite E. apply IH. exact Hst'.
Qed.

(** The elements kept for a relative path, replayed on top of a base. *)
Lemma fold_cleanStep_relative st elems :
  Forall plainElem st -> Forall noSlash elems ->
  exists names k,
    fold_left (cleanStep false) elems [] = names ++ repeat ".." k /\
    Forall plainElem names /\
    fold_left (cleanStep true) elems st = names ++ drop k st.
Proof.
  intros Hst. induction elems as [|c elems IH] using rev_ind; intros He.
  - exists [], 0. split; [reflexivity|]. split; [constructor|]. reflexivity.
  - apply Forall_app in He as [He Hc]. inversion Hc as [|? ? Hc' _]; subst.
    destruct (IH He) as (names & k & Hf & Hn & Ht).
    rewrite !fold_left_app. cbn [fold_left]. rewrite Hf, Ht.
    unfold cleanStep.
    destruct (String.eqb_spec c "") as [->|H1];
      [exists names, k; auto|].
    destruct (String.eqb_spec c ".") as [->|H2];
      [exists names, k; auto|].
    cbn [orb].
    destruct (String.eqb_spec c "..") as [->|H3].
    + destruct names as [|top names].
      * cbn [app].
        exists [], (S k). split.
        { destruct k; reflexivity. }
        split; [constructor|]. cbn [app].
        replace (drop (S k) st) with (drop 1 (drop k st))
          by (rewrite drop_drop; f_equal; lia).
        pose proof (Forall_drop _ k _ Hst) as Hd.
        destruct (drop k st) as [|top below]; [reflexivity|].
        inversion Hd as [|? ? Htop _]; subst.
        destruct Htop as (_ & _ & Hdd & _). apply String.eqb_neq in Hdd.
        rewrite Hdd. reflexivity.
      * cbn [app]. inversion Hn as [|? ? Htop Hn']; subst.
        destruct Htop as (_ & _ & Hdd & _). apply String.eqb_neq in Hdd.
        rewrite Hdd. exists names, k. auto.
    + exists (c :: names), k. split; [reflexivity|]. split; [|reflexivity].
      constructor; [|exact Hn]. unfold plainElem. auto.
Qed.

Lemma cleanStep_true_plain st c :
  Forall plainElem st -> noSlash c -> Forall plainElem (cleanStep true st c).
Proof.
  intros Hst Hc. unfold cleanStep.
  destruct (String.eqb_spec c "") as [->|H1]; [exact Hst|].
  destruct (String.eqb_spec c ".") as [->|H2]; [exact Hst|].
  cbn [orb]. destruct (String.eqb_spec c "..") as [->|H3].
  - destruct st as [|top st]; [constructor|].
    inversion Hst as [|? ? Htop Hst']; subst.
    destruct Htop as (_ & _ & Hdd & _). apply String.eqb_neq in Hdd.
    rewrite Hdd. exact Hst'.
  - constructor; [|exact Hst]. unfold plainElem. auto.
Qed.

Lemma fold_cleanStep_true_plain elems st :
  Forall plainElem st -> Forall noSlash elems ->
  Forall plainElem (fold_left (cleanStep true) elems st).
Proof.
  revert st. induction elems as [|c elems IH]; intros st Hst He; [exact Hst|].
  inversion He; subst. cbn [fold_left]. apply IH; [|assumption].
  apply cleanStep_true_plain; assumption.
Qed.

Lemma keyFrom_plainElems base p :
  Forall plainElem base -> Forall plainElem (keyFrom base p).
Proof.
  intros Hb. unfold keyFrom. apply Forall_rev.
  apply fold_cleanStep_true_plain; [apply Forall_rev; exact Hb|].
  apply splitOn_noSlash.
Qed.

Lemma pathKey_plainElems w p : Forall plainElem (pathKey w p).
Proof.
  unfold pathKey. destruct (IsAbs p).
  - apply keyFrom_plainElems. constructor.
  - apply keyFrom_plainElems. apply keyFrom_plainElems. constructor.
Qed.

Lemma IsAbs_Clean p : IsAbs (Clean p) = IsAbs p.
Proof.
  unfold IsAbs. destruct (HasPrefix p "/") eqn:Hr.
  - apply Clean_rooted. exact Hr.
  - unfold Clean. destruct (String.eqb_spec p "") as [->|Hp]; [reflexivity|].
    rewrite Hr. pose proof (cleanElems_keptOk false p) as Hk.
    destruct (cleanElems false (splitOn slash p)) as [|x kept]; [reflexivity|].
    apply keptOk_elems in Hk. apply Forall_rev in Hk.
    rewrite rev_involutive in Hk. inversion Hk as [|? ? [Hx Hs] _]; subst.
    destruct (Join_head_nonempty x kept Hx) as (c & s & HJ & Hxc).
    rewrite HJ, HasPrefix_slash. rewrite Hxc in Hs.
    apply noSlash_cons in Hs as [Hc _]. exact Hc.
Qed.

Lemma keyFrom_skip_empty base p :
  keyFrom base (String slash p) = keyFrom base p.
Proof. unfold keyFrom. cbn [splitOn]. rewrite Ascii.eqb_refl. reflexivity. Qed.

(** Cleaning a path does not change the entry it names. *)
Lemma keyFrom_Clean base p :
  Forall plainElem base ->
  keyFrom (if IsAbs p then [] else base) (Clean p)
  = keyFrom (if IsAbs p then [] else base) p.
Proof.
  intros Hb. unfold IsAbs. destruct (HasPrefix p "/") eqn:Hr.
  - (* rooted *)
    unfold Clean. destruct (String.eqb_spec p "") as [->|Hp]; [discriminate|].
    rewrite Hr. pose proof (cleanElems_keptOk true p) as Hk.
    change ("/" +:+ Join (cleanElems true (splitOn slash p)) "/")
      with (String slash (Join (cleanElems true (splitOn slash p)) "/")).
    rewrite keyFrom_skip_empty.
    set (kept := cleanElems true (splitOn slash p)) in *.
    unfold keyFrom at 1. cbn [rev].
    destruct kept as [|x kept'] eqn:E.
    + cbn. unfold keyFrom. cbn [rev]. fold (cleanElems true (splitOn slash p)).
      symmetry. exact E.
    + rewrite splitOn_Join; [|discriminate|].
      * change (rev (fold_left (cleanStep true) (x :: kept') []))
          with (cleanElems true (x :: kept')).
        rewrite cleanElems_fixed' by exact Hk. unfold keyFrom. cbn [rev].
        fold (cleanElems true (splitOn slash p)). symmetry. exact E.
      * apply keptOk_elems in Hk. apply Forall_rev in Hk.
        rewrite rev_involutive in Hk.
        eapply Forall_impl; [exact Hk|]. intros ? [_ H]; exact H.
  - (* relative *)
    destruct (fold_cleanStep_relative (rev base) (splitOn slash p))
      as (names & k & Hf & Hn & Ht);
      [apply Forall_rev; exact Hb|apply splitOn_noSlash|].
    assert (Hgoal : keyFrom base p = rev (names ++ drop k (rev base))).
    { unfold keyFrom. rewrite Ht. reflexivity. }
    rewrite Hgoal. unfold Clean.
    destruct (String.eqb_spec p "") as [->|Hp].
    { cbn in Hf. unfold keyFrom. cbn.
      destruct names; [|discriminate]. destruct k; [|discriminate].
      reflexivity. }
    rewrite Hr. unfold cleanElems. rewrite Hf.
    destruct (rev (names ++ repeat ".." k)) as [|x kept] eqn:E.
    { apply (f_equal (@rev string)) in E. rewrite rev_involutive in E.
      cbn in E. apply app_eq_nil in E as [-> Hk0].
      destruct k; [|discriminate]. unfold keyFrom. cbn. reflexivity. }
    unfold keyFrom. rewrite splitOn_Join; [|discriminate|].
    + rewrite <- E. rewrite rev_app_distr, rev_repeat, fold_left_app.
      rewrite fold_cleanStep_pops by (apply Forall_rev; exact Hb).
      rewrite fold_cleanStep_plain by (apply Forall_rev; exact Hn).
      rewrite rev_involutive. reflexivity.
    + rewrite <- E. apply Forall_rev. apply Forall_app. split.
      * eapply Forall_impl; [exact Hn|]. intros ? (_ & _ & _ & H); exact H.
      * clear. induction k; cbn [repeat]; constructor; [reflexivity|assumption].
Qed.

Lemma pathKey_Clean w p : pathKey w (Clean p) = pathKey w p.
Proof.
  unfold pathKey. rewrite IsAbs_Clean.
  assert (H := keyFrom_Clean (keyFrom [] (cwd w)) p
                 (keyFrom_plainElems [] (cwd w) (List.Forall_nil _))).
  destruct (IsAbs p); exact H.
Qed.

Lemma pathKey_JoinPath w a b :
  a <> "" -> pathKey w (JoinPath a b) = keyFrom (pathKey w a) b.
Proof.
  intros Ha. unfold JoinPath. apply String.eqb_neq in Ha as Ha'. rewrite Ha'.
  rewrite pathKey_Clean. unfold pathKey.
  rewrite IsAbs_app by exact Ha. destruct (IsAbs a); apply keyFrom_app.
Qed.

Lemma pathKey_JoinPath_name w a name :
  a <> "" -> plainElem name ->
  pathKey w (JoinPath a name) = pathKey w a ++ [name].
Proof.
  intros Ha Hn. rewrite pathKey_JoinPath by exact Ha.
  apply keyFrom_plain. exact Hn.
Qed.

(** An accepted path is [..] or a sequence of plain elements. *)
Lemma normalizeManagedPath_shape raw rel :
  normalizeManagedPath raw = Ok rel ->
  rel = ".." \/
  exists comps, comps <> [] /\ Forall plainElem comps /\ rel = Join comps "/".
Proof.
  unfold normalizeManagedPath. set (x := ToSlash (TrimSpace raw)).
  destruct ((Clean x =? ".")%string || (Clean x =? "")%string) eqn:H1;
    [discriminate|].
  destruct (HasPrefix (Clean x) "/") eqn:H2; [discriminate|].
  destruct (HasPrefix (Clean x) "../" || Contains (Clean x) "/../") eqn:H3;
    [discriminate|].
  destruct (isMetadataPath (Clean x)); [discriminate|].
  intros H; injection H as <-.
  apply orb_false_iff in H1 as [H1 _], H3 as [H3 _].
  apply String.eqb_neq in H1.
  assert (Hr : HasPrefix x "/" = false).
  { destruct (HasPrefix x "/") eqn:E; [|reflexivity].
    rewrite (Clean_rooted x E) in H2. discriminate. }
  pose proof (cleanElems_keptOk false x) as Hk.
  unfold Clean in *. destruct (String.eqb_spec x "") as [|Hx]; [congruence|].
  rewrite Hr in *.
  destruct (cleanElems false (splitOn slash x)) as [|c kept] eqn:E;
    [congruence|].
  destruct Hk as (names & k & Hst & Hn & _).
  apply (f_equal (@rev string)) in Hst.
  rewrite rev_involutive, rev_app_distr, rev_repeat in Hst.
  destruct k as [|k].
  - right. exists (c :: kept). split; [discriminate|]. split; [|reflexivity].
    rewrite Hst. cbn [repeat app]. apply Forall_rev. exact Hn.
  - cbn [repeat app] in Hst. injection Hst as -> ->.
    destruct (repeat ".." k ++ rev names) as [|y rest]; [left; reflexivity|].
    rewrite Join_cons2 in H3.
    assert (Hp : HasPrefix (".." +:+ "/" +:+ Join (y :: rest) "/") "../" = true)
      by apply (HasPrefix_append "../").
    congruence.
Qed.

(** ** Remove: the live copy comes first *)

(** A check of [treeShaped] that can be run. *)
Lemma treeShaped_check (m : gmap (list string) node) :
  forallb (fun kn : list string * node =>
             match descend m [] kn.1 with None => true | Some _ => false end)
          (map_to_list m) = true ->
  treeShaped m.
Proof.
  intros H k n Hk. rewrite forallb_forall in H.
  apply elem_of_map_to_list, list_elem_of_In in Hk.
  specialize (H _ Hk). cbn in H. destruct (descend m [] k); [discriminate|reflexivity].
Qed.

Lemma lstatKey_ENOENT_absent m k :
  treeShaped m -> lstatKey m k = inl ENOENT -> m !! k = None /\ k <> [].
Proof.
  intros Ht H. destruct k as [|x k].
  { cbn in H. discriminate. }
  split; [|discriminate]. unfold lstatKey in H.
  destruct (m !! (x :: k)) as [n|] eqn:E; [|reflexivity].
  rewrite (Ht _ n E) in H. cbn [nodeAt] in H. rewrite E in H. discriminate.
Qed.

Lemma EvalSymlinks_same p w r w' : EvalSymlinks p w = (r, w') -> sameFiles w w'.
Proof. intros H. apply sysRead_spec in H as [Hs _]. exact Hs. Qed.

Lemma symlinkPointsTo_same link target w r w' :
  symlinkPointsTo link target w = (r, w') -> sameFiles w w'.
Proof.
  unfold symlinkPointsTo, bind, Abs, ret.
  destruct (EvalSymlinks link w) as [r1 w1] eqn:E1.
  apply EvalSymlinks_same in E1.
  destruct r1; intros H; injection H as <- <-; exact E1.
Qed.

Lemma Lstat_Ok p w n w' :
  Lstat p w = (Ok n, w') ->
  sameFiles w w' /\ lstatKey (files w) (pathKey w p) = inr n.
Proof.
  intros H. apply Lstat_spec in H as [Hs [H|H]]; [discriminate|].
  split; [exact Hs|]. unfold nonEmptyPath in H.
  destruct (p =? "")%string; [discriminate|].
  destruct (lstatKey (files w) (pathKey w p)); [discriminate|congruence].
Qed.


Lemma Stat_Ok p w n w' :
  Stat p w = (Ok n, w') ->
  sameFiles w w' /\
  exists k, follow maxLinksKernel (files w) (pathKey w p) = inr (k, n).
Proof.
  intros H. apply Stat_spec in H as [Hs [H|H]]; [discriminate|].
  split; [exact Hs|]. unfold nonEmptyPath in H.
  destruct (p =? "")%string; [discriminate|].
  destruct (follow maxLinksKernel (files w) (pathKey w p)) as [|[k n']];
    [discriminate|]. injection H as ->. eauto.
Qed.



(** ** [filepath.Dir] on cleaned paths *)

Lemma append_assoc (a b c : string) : (a +:+ b) +:+ c = a +:+ (b +:+ c).
Proof. induction a as [|x a IH]; [reflexivity|]. rewrite !append_cons, IH. reflexivity. Qed.

Lemma append_empty_r (a : string) : a +:+ "" = a.
Proof. induction a as [|x a IH]; [reflexivity|]. rewrite append_cons, IH. reflexivity. Qed.

Lemma srev_onto_app s acc : srev_onto s acc = srev s +:+ acc.
Proof.
  unfold srev. revert acc. induction s as [|c s IH]; intros acc; [reflexivity|].
  cbn [srev_onto]. rewrite IH, (IH (String c "")), append_assoc. reflexivity.
Qed.

Lemma srev_cons c s : srev (String c s) = srev s +:+ String c "".
Proof. unfold srev at 1. cbn [srev_onto]. apply srev_onto_app. Qed.

Lemma srev_app a b : srev (a +:+ b) = srev b +:+ srev a.
Proof.
  induction a as [|c a IH].
  - rewrite append_empty_l. symmetry. apply append_empty_r.
  - rewrite append_cons, !srev_cons, IH, append_assoc. reflexivity.
Qed.

Lemma srev_involutive s : srev (srev s) = s.
Proof.
  induction s as [|c s IH]; [reflexivity|].
  rewrite srev_cons, srev_app, IH. reflexivity.
Qed.

Lemma noSlash_app a b : noSlash (a +:+ b) <-> noSlash a /\ noSlash b.
Proof.
  induction a as [|c a IH].
  - rewrite append_empty_l. split; [intros H; split; [reflexivity|exact H]|intros [_ H]; exact H].
  - rewrite append_cons, !noSlash_cons, IH. tauto.
Qed.

Lemma noSlash_srev s : noSlash s -> noSlash (srev s).
Proof.
  induction s as [|c s IH]; intros H; [reflexivity|].
  apply noSlash_cons in H as [Hc Hs]. rewrite srev_cons. apply noSlash_app.
  split; [apply IH; exact Hs|]. apply noSlash_cons. split; [exact Hc|reflexivity].
Qed.

Lemma dropToSlash_noSlash x : noSlash x -> dropToSlash x = "".
Proof.
  induction x as [|c x IH]; intros H; [reflexivity|].
  apply noSlash_cons in H as [Hc Hx]. cbn [dropToSlash]. rewrite Hc. auto.
Qed.

Lemma dropToSlash_app x z :
  noSlash x -> dropToSlash (x +:+ String slash z) = String slash z.
Proof.
  induction x as [|c x IH]; intros H.
  - rewrite append_empty_l. cbn [dropToSlash]. rewrite Ascii.eqb_refl. reflexivity.
  - apply noSlash_cons in H as [Hc Hx]. rewrite append_cons.
    cbn [dropToSlash]. rewrite Hc. auto.
Qed.

(** The text [Dir] cleans: everything up to the last separator. *)
Lemma dirText_name name : noSlash name -> srev (dropToSlash (srev name)) = "".
Proof. intros H. rewrite dropToSlash_noSlash by (apply noSlash_srev; exact H). reflexivity. Qed.

Lemma dirText_app x name :
  noSlash name ->
  srev (dropToSlash (srev (x +:+ "/" +:+ name))) = x +:+ "/".
Proof.
  intros H. rewrite srev_app, srev_app.
  change (srev "/") with (String slash "").
  rewrite append_assoc. rewrite append_cons, append_empty_l.
  rewrite dropToSlash_app by (apply noSlash_srev; exact H).
  change (String slash (srev x)) with ("/" +:+ srev x).
  rewrite srev_app, srev_involutive. reflexivity.
Qed.

Lemma Clean_render p :
  p <> "" ->
  Clean p = render (HasPrefix p "/") (cleanElems (HasPrefix p "/") (splitOn slash p)).
Proof. intros Hp. unfold Clean. apply String.eqb_neq in Hp. rewrite Hp. reflexivity. Qed.

Lemma Join_snoc l c :
  l <> [] -> Join (l ++ [c]) "/" = Join l "/" +:+ "/" +:+ c.
Proof.
  induction l as [|x l IH]; [congruence|]. intros _.
  destruct l as [|y l].
  - reflexivity.
  - change ((x :: y :: l) ++ [c]) with (x :: (y :: l) ++ [c]).
    change ((y :: l) ++ [c]) with (y :: l ++ [c]) at 1.
    rewrite Join_cons2. change (y :: l ++ [c]) with ((y :: l) ++ [c]).
    rewrite IH by discriminate. rewrite Join_cons2, !append_assoc. reflexivity.
Qed.

Lemma splitOn_trailing_slash x :
  splitOn slash (x +:+ "/") = splitOn slash x ++ [""].
Proof.
  replace (x +:+ "/") with (x +:+ "/" +:+ "") by reflexivity.
  rewrite splitOn_app_sep. reflexivity.
Qed.

Lemma Clean_trailing_slash x : x <> "" -> Clean (x +:+ "/") = Clean x.
Proof.
  intros Hx. unfold Clean.
  assert (Hne : x +:+ "/" <> "").
  { destruct x; [congruence|]. rewrite append_cons. discriminate. }
  apply String.eqb_neq in Hx, Hne. rewrite Hx, Hne.
  assert (Hr : HasPrefix (x +:+ "/") "/" = HasPrefix x "/").
  { apply (IsAbs_app x "/"). apply String.eqb_neq. exact Hx. }
  rewrite Hr. unfold cleanElems. rewrite splitOn_trailing_slash, fold_left_app.
  reflexivity.
Qed.

Lemma render_nonempty rooted kept :
  Forall (fun c => c <> "" /\ noSlash c) kept -> render rooted kept <> "".
Proof.
  intros Hk. unfold render. destruct rooted; [discriminate|].
  destruct kept as [|x kept]; [discriminate|].
  inversion Hk as [|? ? [Hx _] _]; subst.
  destruct (Join_head_nonempty x kept Hx) as (c & s & HJ & _).
  rewrite HJ. discriminate.
Qed.

Lemma Clean_render_fixed rooted kept :
  keptOk rooted (rev kept) -> Clean (render rooted kept) = render rooted kept.
Proof.
  intros Hk. unfold render. destruct rooted.
  - apply Clean_rooted_form. exact Hk.
  - destruct kept as [|x kept]; [reflexivity|].
    apply Clean_relative_form; [discriminate|exact Hk].
Qed.

(** [Dir] drops the last kept element. *)
Lemma Dir_render rooted kept c :
  keptOk rooted (rev kept) -> c <> "" -> noSlash c ->
  Dir (render rooted (kept ++ [c])) = render rooted kept.
Proof.
  intros Hk Hc Hs. unfold Dir.
  assert (Hel : Forall (fun c => c <> "" /\ noSlash c) kept).
  { apply keptOk_elems in Hk. apply Forall_rev in Hk.
    rewrite rev_involutive in Hk. exact Hk. }
  destruct kept as [|x kept].
  - cbn [app]. unfold render. destruct rooted.
    + change ("/" +:+ Join [c] "/") with ("" +:+ "/" +:+ c).
      rewrite dirText_app by exact Hs. reflexivity.
    + cbn [Join]. rewrite dirText_name by exact Hs. reflexivity.
  - assert (Hre : render rooted ((x :: kept) ++ [c])
                  = render rooted (x :: kept) +:+ "/" +:+ c).
    { unfold render. rewrite Join_snoc by discriminate.
      destruct rooted.
      - rewrite !append_assoc. reflexivity.
      - destruct ((x :: kept) ++ [c]) eqn:E; [discriminate|]. reflexivity. }
    rewrite Hre, dirText_app by exact Hs.
    rewrite Clean_trailing_slash by (apply render_nonempty; exact Hel).
    apply Clean_render_fixed. exact Hk.
Qed.



Lemma plainElems_noSlash comps : Forall plainElem comps -> Forall noSlash comps.
Proof.
  intros H. eapply Forall_impl; [exact H|]. intros c (_ & _ & _ & Hc). exact Hc.
Qed.




Lemma ReadDir_Ok p w l w' :
  ReadDir p w = (Ok l, w') ->
  sameFiles w w' /\
  exists k, follow maxLinksKernel (files w) (pathKey w p) = inr (k, Directory) /\
            l = children (files w) k.
Proof.
  intros H. apply sysRead_spec in H as [Hs [H|H]]; [discriminate|].
  split; [exact Hs|]. cbv beta in H.
  rewrite (pathKey_sameFiles _ _ p Hs) in H. destruct Hs as [Hf _].
  rewrite Hf in H. unfold nonEmptyPath in H.
  destruct (p =? "")%string; [discriminate|].
  destruct (follow maxLinksKernel (files w) (pathKey w p)) as [|[k n]];
    [discriminate|].
  destruct n; try discriminate. injection H as ->. eauto.
Qed.

Lemma ReadDir_same p w r w' : ReadDir p w = (r, w') -> sameFiles w w'.
Proof. intros H. apply sysRead_spec in H as [Hs _]. exact Hs. Qed.







(** ** The orphan pass *)

Lemma validName_plainElem name : validName name = true -> plainElem name.
Proof.
  unfold validName, plainElem, noSlash. intros H.
  apply andb_true_iff in H as [H H4]. apply andb_true_iff in H as [H H3].
  apply andb_true_iff in H as [H1 H2].
  apply negb_true_iff in H1, H2, H3, H4.
  apply String.eqb_neq in H1, H2, H3. auto.
Qed.

Lemma In_insertEntry x y l : In x (insertEntry y l) <-> x = y \/ In x l.
Proof.
  induction l as [|z l IH]; cbn [insertEntry].
  - cbn. intuition congruence.
  - destruct (String.leb (fst y) (fst z)); cbn [In]; [intuition congruence|].
    rewrite IH. intuition congruence.
Qed.

Lemma In_sortEntries x l : In x (fold_right insertEntry [] l) <-> In x l.
Proof.
  induction l as [|y l IH]; cbn [fold_right]; [reflexivity|].
  rewrite In_insertEntry, IH. cbn. intuition congruence.
Qed.

Lemma children_valid (m : gmap (list string) node) k name n :
  In (name, n) (children m k) ->
  plainElem name /\ m !! (k ++ [name]) = Some n.
Proof.
  unfold children. rewrite In_sortEntries. intros H.
  apply list_elem_of_In in H. apply list_elem_of_omap in H as ([k' n'] & Hin & Hf).
  cbn [fst snd] in Hf. apply elem_of_map_to_list in Hin.
  unfold childName in Hf. destruct (rev k') as [|nm up] eqn:E; [discriminate|].
  destruct (validName nm) eqn:V; [|discriminate]. cbn [andb] in Hf.
  destruct (bool_decide (rev up = k)) eqn:B; [|discriminate].
  apply bool_decide_eq_true in B. injection Hf as -> ->.
  split; [apply validName_plainElem; exact V|].
  apply (f_equal (@rev string)) in E. rewrite rev_involutive in E.
  cbn [rev] in E. rewrite B in E. rewrite <- E. exact Hin.
Qed.

Lemma Readlink_Ok p w t w' :
  Readlink p w = (Ok t, w') ->
  sameFiles w w' /\ lstatKey (files w) (pathKey w p) = inr (Symlink t).
Proof.
  intros H. apply sysRead_spec in H as [Hs [H|H]]; [discriminate|].
  split; [exact Hs|]. cbv beta in H.
  rewrite (pathKey_sameFiles _ _ p Hs) in H. destruct Hs as [Hf _].
  rewrite Hf in H. unfold nonEmptyPath in H.
  destruct (p =? "")%string; [discriminate|].
  destruct (lstatKey (files w) (pathKey w p)) as [|n]; [discriminate|].
  destruct n; try discriminate. congruence.
Qed.

Lemma Readlink_same p w r w' : Readlink p w = (r, w') -> sameFiles w w'.
Proof. intros H. apply sysRead_spec in H as [Hs _]. exact Hs. Qed.

Lemma symlinkRepoTarget_spec linkPath repoPath w r w' :
  symlinkRepoTarget linkPath repoPath w = (r, w') ->
  sameFiles w w' /\
  forall target,
    r = Ok (target, true) ->
    exists t,
      lstatKey (files w) (pathKey w linkPath) = inr (Symlink t) /\
      target = lexTarget linkPath t /\
      pathWithin repoPath (lexTarget linkPath t) = Ok true.
Proof.
  unfold symlinkRepoTarget, bind, ret.
  destruct (Readlink linkPath w) as [r1 w1] eqn:E1.
  destruct r1 as [t|e].
  2:{ apply Readlink_same in E1. intros H; injection H as <- <-.
      split; [exact E1|discriminate]. }
  apply Readlink_Ok in E1 as [S1 L1]. fold (lexTarget linkPath t).
  destruct (pathWithin repoPath (lexTarget linkPath t)) as [[|]|e] eqn:P;
    intros H; injection H as <- <-; (split; [exact S1|]); try discriminate.
  intros target H; injection H as <-. eauto.
Qed.

Lemma Stat_same p w r w' : Stat p w = (r, w') -> sameFiles w w'.
Proof. intros H. apply Stat_spec in H as [Hs _]. exact Hs. Qed.

(** What one call of the walk function does.  Unless it met a link
    whose target lies within the repository, it changes neither the file
    system nor the report.  If it did meet one, it files one entry under
    the cleaned relative path of the link, and every other entry of the
    file system stays. *)
Lemma orphanVisit_effect repoPath xdg managed ms q d err s w r w' :
  orphanVisit repoPath xdg managed ms q d err s w = (r, w') ->
  cwd w' = cwd w /\
  ((files w' = files w /\ fst r = s) \/
   (exists t rel,
      lstatKey (files w) (pathKey w q) = inr (Symlink t) /\
      pathWithin repoPath (lexTarget q t) = Ok true /\
      orphanLabel xdg q = Some rel /\
      (fst r = addManual s rel \/ fst r = addUnlinked s rel \/
       fst r = addUnlinked s (rel +:+ " (removed dangling symlink)")) /\
      (forall k n, files w !! k = Some n -> k <> pathKey w q ->
                   files w' !! k = Some n))).
Proof.
  unfold orphanVisit.
  assert (Hnone : forall a, (s, a, w) = (r, w') ->
    cwd w' = cwd w /\
    ((files w' = files w /\ fst r = s) \/
     (exists t rel,
        lstatKey (files w) (pathKey w q) = inr (Symlink t) /\
        pathWithin repoPath (lexTarget q t) = Ok true /\
        orphanLabel xdg q = Some rel /\
        (fst r = addManual s rel \/ fst r = addUnlinked s rel \/
         fst r = addUnlinked s (rel +:+ " (removed dangling symlink)")) /\
        (forall k n, files w !! k = Some n -> k <> pathKey w q ->
                     files w' !! k = Some n)))).
  { intros a H; injection H as <- <-. auto. }
  destruct err as [e|]; [apply Hnone|].
  destruct d as [d|]; [|apply Hnone].
  destruct (Rel xdg q) as [relq|e] eqn:ER; [|apply Hnone].
  destruct (isDir d).
  { destruct (shouldIgnorePath (ToSlash relq) true ms); apply Hnone. }
  destruct (shouldIgnorePath (ToSlash relq) false ms); [apply Hnone|].
  destruct (isSymlink d); cbn [negb]; [|apply Hnone].
  destruct (normalizeManagedPath (ToSlash relq)) as [rel|e] eqn:EN; [|apply Hnone].
  destruct (inSet rel managed); [apply Hnone|].
  unfold bind.
  destruct (symlinkRepoTarget q repoPath w) as [r1 w1] eqn:E1.
  apply symlinkRepoTarget_spec in E1 as [[F1 C1] Htarget].
  assert (Hsame : forall w2 a, sameFiles w1 w2 -> (s, a, w2) = (r, w') ->
    cwd w' = cwd w /\
    ((files w' = files w /\ fst r = s) \/
     (exists t rel,
        lstatKey (files w) (pathKey w q) = inr (Symlink t) /\
        pathWithin repoPath (lexTarget q t) = Ok true /\
        orphanLabel xdg q = Some rel /\
        (fst r = addManual s rel \/ fst r = addUnlinked s rel \/
         fst r = addUnlinked s (rel +:+ " (removed dangling symlink)")) /\
        (forall k n, files w !! k = Some n -> k <> pathKey w q ->
                     files w' !! k = Some n)))).
  { intros w2 a [F2 C2] H; injection H as <- <-.
    split; [congruence|left]. split; [congruence|reflexivity]. }
  destruct r1 as [[target [|]]|e1]; try (apply (Hsame w1); apply sameFiles_refl).
  destruct (Htarget target eq_refl) as (t & HL & -> & HP). clear Htarget.
  (* from here on the link is one the pass handles *)
  assert (Hin : forall r0 a w2,
    (r0 = addManual s rel \/ r0 = addUnlinked s rel \/
     r0 = addUnlinked s (rel +:+ " (removed dangling symlink)")) ->
    cwd w2 = cwd w ->
    (forall k n, files w !! k = Some n -> k <> pathKey w q ->
                 files w2 !! k = Some n) ->
    (r0, a, w2) = (r, w') ->
    cwd w' = cwd w /\
    ((files w' = files w /\ fst r = s) \/
     (exists t rel,
        lstatKey (files w) (pathKey w q) = inr (Symlink t) /\
        pathWithin repoPath (lexTarget q t) = Ok true /\
        orphanLabel xdg q = Some rel /\
        (fst r = addManual s rel \/ fst r = addUnlinked s rel \/
         fst r = addUnlinked s (rel +:+ " (removed dangling symlink)")) /\
        (forall k n, files w !! k = Some n -> k <> pathKey w q ->
                     files w' !! k = Some n)))).
  { intros r0 a w2 Hr0 C2 Hkeep H; injection H as <- <-.
    split; [exact C2|right]. exists t, rel. cbn [fst].
    split; [exact HL|]. split; [exact HP|]. split; [|auto].
    unfold orphanLabel. rewrite ER, EN. reflexivity. }
  destruct (Stat (lexTarget q t) w1) as [r2 w2] eqn:E2.
  apply Stat_same in E2 as [F2 C2].
  assert (C02 : cwd w2 = cwd w) by congruence.
  assert (F02 : files w2 = files w) by congruence.
  assert (Hremoved : forall w3, files w3 = delete (pathKey w q) (files w) ->
            forall k n, files w !! k = Some n -> k <> pathKey w q ->
                        files w3 !! k = Some n).
  { intros w3 F3 k n Hk Hne. rewrite F3, lookup_delete_ne by congruence. exact Hk. }
  assert (Hkept : forall w3, files w3 = files w ->
            forall k n, files w !! k = Some n -> k <> pathKey w q ->
                        files w3 !! k = Some n).
  { intros w3 F3 k n Hk _. rewrite F3. exact Hk. }
  destruct r2 as [n2|e2].
  - destruct (isRegular n2); cbn [negb].
    2:{ unfold ret. apply Hin; [auto|exact C02|apply Hkept; exact F02]. }
    destruct (Remove q w2) as [r3 w3] eqn:E3.
    apply Remove_spec in E3 as [C3 R3].
    destruct R3 as [(e3 & -> & F3)|(-> & _ & Hroot & _ & F3)].
    { unfold ret. apply Hin; [auto|congruence|apply Hkept; congruence]. }
    rewrite (pathKey_cwd w w2 _ C02), F02 in F3.
    rewrite (pathKey_cwd w w2 _ C02) in Hroot.
    assert (C03 : cwd w3 = cwd w) by congruence.
    destruct (copyFile (lexTarget q t) q w3) as [r4 w4] eqn:E4.
    apply copyFile_onto_free in E4;
      [|rewrite (pathKey_cwd w w3 _ C03), F3; apply lookup_delete_eq
       |rewrite (pathKey_cwd w w3 _ C03); exact Hroot].
    destruct E4 as (C4 & Sub4 & _).
    assert (Hkeep4 : forall k n, files w !! k = Some n -> k <> pathKey w q ->
                                 files w4 !! k = Some n).
    { intros k n Hk Hne. eapply lookup_weaken; [|exact Sub4].
      apply (Hremoved w3 F3); assumption. }
    destruct r4; unfold ret; (apply Hin; [auto|congruence|exact Hkeep4]).
  - destruct (isNotExist e2).
    2:{ unfold ret. apply Hin; [auto|exact C02|apply Hkept; exact F02]. }
    destruct (Remove q w2) as [r3 w3] eqn:E3.
    apply Remove_spec in E3 as [C3 R3].
    destruct R3 as [(e3 & -> & F3)|(-> & _ & _ & _ & F3)].
    { unfold ret. apply Hin; [auto|congruence|apply Hkept; congruence]. }
    rewrite (pathKey_cwd w w2 _ C02), F02 in F3.
    unfold ret. apply Hin; [auto|congruence|apply Hremoved; exact F3].
Qed.

(** An invariant of the walk: what every call of the walk function
    preserves, and reading does not disturb, holds at the end.  [P]
    tracks the paths the walk builds, which grow by one valid name at a
    time. *)
Lemma walkDir_invariant {S : Type}
  (fn : string -> option node -> option error -> S -> io (S * walkAction))
  (I : S -> world -> Prop) (P : string -> Prop) :
  (forall q d err s w r w',
      P q -> I s w -> fn q d err s w = (r, w') -> I (fst r) w') ->
  (forall s w w', I s w -> sameFiles w w' -> I s w') ->
  (forall q name, P q -> plainElem name -> P (JoinPath q name)) ->
  forall fuel q d s w r w',
    P q -> I s w -> walkDir fuel fn q d s w = (r, w') -> I (fst r) w'.
Proof.
  intros Hfn Hread Hstep.
  induction fuel as [|fuel IH]; intros q d s w r w' HP HI.
  { cbn. intros H; injection H as <- <-. exact HI. }
  cbn [walkDir]. unfold bind at 1.
  destruct (fn q (Some d) None s w) as [[s1 act] w1] eqn:E1.
  pose proof (Hfn _ _ _ _ _ _ _ HP HI E1) as HI1. cbn [fst] in HI1.
  destruct act, (isDir d); unfold ret;
    try (intros H; injection H as <- <-; exact HI1).
  unfold bind at 1.
  destruct (ReadDir q w1) as [dirs w2] eqn:E2.
  destruct dirs as [dirs|e].
  2:{ apply ReadDir_same in E2. pose proof (Hread _ _ _ HI1 E2) as HI2.
      unfold bind. destruct (fn q (Some d) (Some e) s1 w2) as [r3 w3] eqn:E3.
      intros H; injection H as <- <-. cbn [fst].
      exact (Hfn _ _ _ _ _ _ _ HP HI2 E3). }
  apply ReadDir_Ok in E2 as [S2 (k & _ & Hdirs)].
  pose proof (Hread _ _ _ HI1 S2) as HI2.
  assert (Hnames : Forall (fun d1 => plainElem (fst d1)) dirs).
  { rewrite Forall_forall. intros [name n] Hin. rewrite Hdirs in Hin.
    apply list_elem_of_In in Hin. apply children_valid in Hin as [Hv _]. exact Hv. }
  clear Hdirs E1 HI HI1 S2. revert s1 w2 HI2 r w'.
  induction dirs as [|d1 dirs IHd]; intros s1 w2 HI2 r w'.
  { intros H; injection H as <- <-. exact HI2. }
  inversion Hnames as [|? ? Hd1 Hrest]; subst.
  unfold bind at 1.
  destruct (walkDir fuel fn (JoinPath q (fst d1)) (snd d1) s1 w2)
    as [r3 w3] eqn:E3.
  apply IH in E3; [|apply Hstep; assumption|exact HI2].
  destruct (snd r3).
  - apply IHd; assumption.
  - unfold ret. intros H; injection H as <- <-. exact E3.
Qed.

Lemma WalkDir_invariant {S : Type}
  (fn : string -> option node -> option error -> S -> io (S * walkAction))
  (I : S -> world -> Prop) (P : string -> Prop) :
  (forall q d err s w r w',
      P q -> I s w -> fn q d err s w = (r, w') -> I (fst r) w') ->
  (forall s w w', I s w -> sameFiles w w' -> I s w') ->
  (forall q name, P q -> plainElem name -> P (JoinPath q name)) ->
  forall root s w r w',
    P root -> I s w -> WalkDir root fn s w = (r, w') -> I r w'.
Proof.
  intros Hfn Hread Hstep root s w r w' HP HI. unfold WalkDir, bind.
  destruct (Lstat root w) as [info w1] eqn:E1.
  apply Lstat_spec in E1 as [S1 _]. pose proof (Hread _ _ _ HI S1) as HI1.
  destruct info as [d|e].
  - destruct (walkDir (Datatypes.S (size (files w1))) fn root d s w1)
      as [r2 w2] eqn:E2.
    unfold ret. intros H; injection H as <- <-.
    eapply walkDir_invariant; eassumption.
  - destruct (fn root None (Some e) s w1) as [r2 w2] eqn:E2.
    unfold ret. intros H; injection H as <- <-.
    exact (Hfn _ _ _ _ _ _ _ HP HI1 E2).
Qed.

Lemma pathKey_namedPath w root names :
  root <> "" -> Forall plainElem names ->
  namedPath root names <> "" /\
  pathKey w (namedPath root names) = pathKey w root ++ names.
Proof.
  revert root. induction names as [|n names IH]; intros root Hr Hn.
  - cbn. rewrite app_nil_r. auto.
  - inversion Hn as [|? ? Hn1 Hn2]; subst. cbn [namedPath fold_left].
    assert (Hj : JoinPath root n <> "").
    { apply JoinPath_nonempty. destruct Hn1 as (H & _). exact H. }
    destruct (IH (JoinPath root n) Hj Hn2) as [H1 H2].
    split; [exact H1|]. unfold namedPath in H2. rewrite H2.
    rewrite pathKey_JoinPath_name by assumption.
    rewrite <- app_assoc. reflexivity.
Qed.

Lemma namedPath_snoc root names name :
  namedPath root (names ++ [name]) = JoinPath (namedPath root names) name.
Proof. unfold namedPath. rewrite fold_left_app. reflexivity. Qed.

Lemma In_insertString x y l : In x (insertString y l) <-> x = y \/ In x l.
Proof.
  induction l as [|z l IH]; cbn [insertString].
  - cbn. intuition congruence.
  - destruct (String.leb y z); cbn [In]; [intuition congruence|].
    rewrite IH. intuition congruence.
Qed.

Lemma In_sortStrings x l : In x (sortStrings l) <-> In x l.
Proof.
  unfold sortStrings. induction l as [|y l IH]; cbn [fold_right]; [reflexivity|].
  rewrite In_insertString, IH. cbn. intuition congruence.
Qed.



(** ** Doctor, run twice *)

(** C3, as stated, fails for a tracked symbolic link.  The first run
    links the live path to it and files the path as replaced; the second
    resolves the live link all the way to the file the tracked link
    names, which is not the tracked path, and asks for a manual
    resolution. *)
Lemma doctor_twice_tracked_link :
  exists r1 w1 r2 w2,
    doctorReconcile (exampleCollaborators doctorLinkedTracked) "/repo"
      doctorLinkedWorld = (DoctorReported r1, w1) /\
    doctorReconcile (exampleCollaborators doctorLinkedTracked) "/repo" w1
      = (DoctorReported r2, w2) /\
    replacedWithSymlink r1 = ["zshenv"; "zshrc"] /\
    requireManualResolve r1 = [] /\
    didNotTouch r2 = ["zshrc"] /\
    requireManualResolve r2 = ["zshenv"].
Proof.
  do 4 eexists.
  split; [vm_compute; reflexivity|].
  split; [vm_compute; reflexivity|].
  repeat split.
Qed.

(** It fails as well where a live link reaches the repository through a
    second live link that nothing tracks: the first run leaves the one as
    it is and replaces the other by a copy, so the second run finds the
    one resolving to that copy. *)
Lemma doctor_twice_link_chain :
  exists r1 w1 r2 w2,
    doctorReconcile (exampleCollaborators "zshrc") "/repo" doctorChainWorld
      = (DoctorReported r1, w1) /\
    doctorReconcile (exampleCollaborators "zshrc") "/repo" w1
      = (DoctorReported r2, w2) /\
    didNotTouch r1 = ["zshrc"] /\
    unlinkedOrphanSymlink r1 = ["zshrc.link"] /\
    requireManualResolve r1 = [] /\
    requireManualResolve r2 = ["zshrc"].
Proof.
  do 4 eexists.
  split; [vm_compute; reflexivity|].
  split; [vm_compute; reflexivity|].
  repeat split.
Qed.
(** ** Runs in which no call fails *)

Lemma sysRead_quiet {A : Type} (mkErr : errno -> error)
  (f : world -> errno + A) (w : world) :
  faults w = [] ->
  sysRead mkErr f w
  = (match f w with inl e => Err (mkErr e) | inr a => Ok a end, w).
Proof.
  intros Hf. unfold sysRead, bind, nextFault. rewrite Hf.
  destruct (f w); reflexivity.
Qed.

Lemma sysWrite_quiet (mkErr : errno -> error)
  (f : world -> errno + gmap (list string) node) (w : world) :
  faults w = [] ->
  sysWrite mkErr f w
  = match f w with
    | inl e => (Some (mkErr e), w)
    | inr m => (None, withFiles w m)
    end.
Proof.
  intros Hf. unfold sysWrite, bind, nextFault. rewrite Hf. reflexivity.
Qed.

(** [lstatKey] reads the entries on the way to the key and nothing else. *)
Lemma descend_agree (m m' : gmap (list string) node) cur rest :
  (forall p, p `prefix_of` (cur ++ rest) -> p <> cur ++ rest ->
             cur `prefix_of` p -> nodeAt m' p = nodeAt m p) ->
  descend m' cur rest = descend m cur rest.
Proof.
  revert cur. induction rest as [|c rest IH]; intros cur H; [reflexivity|].
  cbn [descend]. rewrite (H cur).
  - destruct (nodeAt m cur) as [[]|]; try reflexivity.
    apply IH. intros p Hp Hne Hcur. rewrite <- app_assoc in Hp, Hne.
    apply H; [exact Hp|exact Hne|].
    etransitivity; [|exact Hcur]. apply prefix_app_r. reflexivity.
  - apply prefix_app_r. reflexivity.
  - intros E. apply (f_equal (@List.length string)) in E.
    rewrite length_app in E. cbn in E. lia.
  - reflexivity.
Qed.

Lemma lstatKey_agree (m m' : gmap (list string) node) k :
  (forall p, p `prefix_of` k -> m' !! p = m !! p) ->
  lstatKey m' k = lstatKey m k.
Proof.
  intros H. unfold lstatKey.
  assert (Hn : forall p, p `prefix_of` k -> nodeAt m' p = nodeAt m p).
  { intros p Hp. destruct p; [reflexivity|]. cbn. apply H. exact Hp. }
  rewrite (descend_agree m m' [] k).
  - rewrite Hn by reflexivity. reflexivity.
  - intros p Hp _ _. apply Hn. exact Hp.
Qed.
(** ** Absolute paths and keys *)

Lemma IsAbs_nonempty p : IsAbs p = true -> p <> "".
Proof. intros H ->. discriminate. Qed.

Lemma pathKey_abs w p : IsAbs p = true -> pathKey w p = keyFrom [] p.
Proof. intros H. unfold pathKey. rewrite H. reflexivity. Qed.

Lemma Clean_abs p : IsAbs p = true -> Clean p = keyPath (keyFrom [] p).
Proof.
  intros H. rewrite Clean_render by (apply IsAbs_nonempty; exact H).
  unfold IsAbs in H. rewrite H. reflexivity.
Qed.

Lemma IsAbs_keyPath k : IsAbs (keyPath k) = true.
Proof. apply (HasPrefix_append "/" (Join k "/")). Qed.

Lemma keyFrom_keyPath k : Forall plainElem k -> keyFrom [] (keyPath k) = k.
Proof.
  intros Hk. unfold keyPath. change ("/" +:+ Join k "/") with (String slash (Join k "/")).
  rewrite keyFrom_skip_empty. destruct k as [|x k]; [reflexivity|].
  apply (keyFrom_plains [] (x :: k)); [discriminate|exact Hk].
Qed.

Lemma keyPath_inj k k' :
  Forall plainElem k -> Forall plainElem k' -> keyPath k = keyPath k' -> k = k'.
Proof.
  intros Hk Hk' E. rewrite <- (keyFrom_keyPath k Hk), <- (keyFrom_keyPath k' Hk').
  rewrite E. reflexivity.
Qed.

Lemma Clean_keyPath k : Forall plainElem k -> Clean (keyPath k) = keyPath k.
Proof.
  intros Hk. rewrite Clean_abs by apply IsAbs_keyPath. rewrite keyFrom_keyPath by exact Hk.
  reflexivity.
Qed.

Lemma JoinPath_abs a b :
  IsAbs a = true -> JoinPath a b = keyPath (keyFrom (keyFrom [] a) b).
Proof.
  intros H. pose proof (IsAbs_nonempty _ H) as Ha. unfold JoinPath.
  destruct (String.eqb_spec a "") as [|_]; [contradiction|].
  rewrite Clean_abs by (rewrite IsAbs_app by exact Ha; exact H).
  rewrite keyFrom_app. reflexivity.
Qed.

Lemma keyFrom_nil_plain p : Forall plainElem (keyFrom [] p).
Proof. apply keyFrom_plainElems. constructor. Qed.

Lemma keptOk_plain rooted kept : Forall plainElem kept -> keptOk rooted kept.
Proof.
  intros H. exists kept, 0. rewrite app_nil_r.
  split; [reflexivity|]. split; [exact H|reflexivity].
Qed.

Lemma Dir_keyPath k c :
  Forall plainElem k -> plainElem c -> Dir (keyPath (k ++ [c])) = keyPath k.
Proof.
  intros Hk Hc. apply (Dir_render true k c).
  - apply keptOk_plain. apply Forall_rev. exact Hk.
  - apply Hc.
  - apply Hc.
Qed.

(** The target that [symlinkRepoTarget] computes from the text of a link
    names the entry that the kernel would look up. *)
Lemma lexTarget_keyPath k c t :
  Forall plainElem k -> plainElem c ->
  lexTarget (keyPath (k ++ [c])) t = keyPath (targetKey (k ++ [c]) t).
Proof.
  intros Hk Hc. unfold lexTarget, targetKey.
  destruct (IsAbs t) eqn:Ht; cbn [negb].
  - apply Clean_abs. exact Ht.
  - rewrite Dir_keyPath by assumption.
    rewrite JoinPath_abs by apply IsAbs_keyPath.
    rewrite keyFrom_keyPath by exact Hk.
    rewrite removelast_last.
    apply Clean_keyPath. apply keyFrom_plainElems. exact Hk.
Qed.
Lemma Join_nonempty x l : x <> "" -> Join (x :: l) "/" <> "".
Proof.
  intros Hx E. destruct (Join_head_nonempty x l Hx) as (c & s & E' & _).
  congruence.
Qed.

Lemma relElems_keyPath k :
  Forall plainElem k -> relElems (keyPath k) = "" :: k.
Proof.
  intros Hk. unfold relElems, keyPath.
  change ("/" +:+ Join k "/") with (String slash (Join k "/")).
  destruct k as [|x k].
  - reflexivity.
  - assert (Hx : x <> "") by (inversion Hk as [|? ? Hx' _]; apply Hx').
    destruct (Join (x :: k) "/") as [|c s] eqn:E.
    { exfalso. apply (Join_nonempty x k Hx). exact E. }
    cbn [String.eqb]. rewrite <- E.
    replace (String slash (Join (x :: k) "/") =? "/")%string with false.
    2:{ symmetry. apply String.eqb_neq. rewrite E. discriminate. }
    cbn [String.eqb Ascii.eqb]. cbn [splitOn].
    replace (Ascii.eqb slash slash) with true by reflexivity.
    rewrite splitOn_Join; [reflexivity|discriminate|].
    apply plainElems_noSlash. exact Hk.
Qed.

Lemma stripCommon_app l t : stripCommon l (l ++ t) = ([], t).
Proof.
  induction l as [|x l IH]; [destruct t; reflexivity|].
  cbn. rewrite String.eqb_refl. exact IH.
Qed.

Lemma stripCommon_split b t b' t' :
  stripCommon b t = (b', t') ->
  exists common, b = common ++ b' /\ t = common ++ t'.
Proof.
  revert t. induction b as [|x b IH]; intros t H.
  - cbn in H. injection H as <- <-. exists []. split; reflexivity.
  - destruct t as [|y t].
    + cbn in H. injection H as <- <-. exists []. split; reflexivity.
    + cbn in H. destruct (String.eqb_spec x y) as [->|Hne].
      * destruct (IH _ H) as (cm & -> & ->). exists (y :: cm). split; reflexivity.
      * injection H as <- <-. exists []. split; reflexivity.
Qed.

(** [filepath.Rel] from a directory to an entry below it. *)
Lemma Rel_below a names :
  IsAbs a = true -> names <> [] -> Forall plainElem names ->
  Rel a (keyPath (keyFrom [] a ++ names)) = Ok (Join names "/").
Proof.
  intros Ha Hne Hn. unfold Rel.
  assert (Hk : Forall plainElem (keyFrom [] a ++ names)).
  { apply Forall_app. split; [apply keyFrom_nil_plain|exact Hn]. }
  rewrite (Clean_abs a Ha), (Clean_keyPath _ Hk).
  destruct (String.eqb_spec (keyPath (keyFrom [] a ++ names)) (keyPath (keyFrom [] a)))
    as [E|_].
  { exfalso. apply keyPath_inj in E; [|exact Hk|apply keyFrom_nil_plain].
    apply (f_equal (@List.length string)) in E. rewrite length_app in E.
    destruct names; [congruence|cbn in E; lia]. }
  destruct (String.eqb_spec (keyPath (keyFrom [] a)) ".") as [E|_].
  { exfalso. pose proof (IsAbs_keyPath (keyFrom [] a)) as H. rewrite E in H. discriminate. }
  change (HasPrefix ?p "/") with (IsAbs p). rewrite !IsAbs_keyPath. cbn [Bool.eqb negb].
  rewrite !relElems_keyPath by (exact Hk || apply keyFrom_nil_plain).
  rewrite app_comm_cons, stripCommon_app. reflexivity.
Qed.
Lemma Join_dotdot_head l :
  (Join (".." :: l) "/" =? ".")%string = false /\
  ((Join (".." :: l) "/" =? "..")%string || HasPrefix (Join (".." :: l) "/") "../"
   = true).
Proof.
  destruct l as [|y l].
  - split; reflexivity.
  - rewrite Join_cons2.
    change (".." +:+ "/" +:+ Join (y :: l) "/")
      with (String "." (String "." (String slash (Join (y :: l) "/")))).
    split; [reflexivity|].
    apply orb_true_iff. right.
    change (String "." (String "." (String slash (Join (y :: l) "/"))))
      with ("../" +:+ Join (y :: l) "/").
    apply HasPrefix_append.
Qed.

(** What [pathWithin] accepts lies at or below the base. *)
Lemma pathWithin_prefix rk tk :
  Forall plainElem rk -> Forall plainElem tk ->
  pathWithin (keyPath rk) (keyPath tk) = Ok true -> rk `prefix_of` tk.
Proof.
  intros Hr Ht. unfold pathWithin, Rel.
  rewrite !(Clean_keyPath rk Hr), !(Clean_keyPath tk Ht).
  destruct (String.eqb_spec (keyPath tk) (keyPath rk)) as [E|_].
  { intros _. apply keyPath_inj in E; [|assumption..]. subst. reflexivity. }
  destruct (String.eqb_spec (keyPath rk) ".") as [E|_].
  { exfalso. pose proof (IsAbs_keyPath rk) as H. rewrite E in H. discriminate. }
  change (HasPrefix ?p "/") with (IsAbs p). rewrite !IsAbs_keyPath. cbn [Bool.eqb negb].
  rewrite !relElems_keyPath by assumption.
  destruct (stripCommon ("" :: rk) ("" :: tk)) as [b t] eqn:E.
  apply stripCommon_split in E as (cm & E1 & E2).
  destruct b as [|first rest].
  - intros _. rewrite app_nil_r in E1. subst cm.
    injection E2 as E2. exists t. exact E2.
  - destruct (String.eqb_spec first "..") as [_|_]; [discriminate|].
    cbn [List.length repeat app].
    destruct (Join_dotdot_head (repeat ".." (List.length rest) ++ t)) as [A B].
    rewrite A, B. discriminate.
Qed.
(** ** [MkdirAll] when no call fails *)

Lemma dropSlashes_plain c rest :
  c <> "" -> noSlash c -> dropSlashes (srev c +:+ rest) = srev c +:+ rest.
Proof.
  intros Hc Hn. apply noSlash_srev in Hn.
  destruct (srev c) as [|ch s] eqn:E.
  { exfalso. apply Hc. rewrite <- (srev_involutive c), E. reflexivity. }
  apply noSlash_cons in Hn as [Hch _].
  rewrite append_cons. cbn [dropSlashes]. rewrite Hch. reflexivity.
Qed.

Lemma parentText_app x c :
  c <> "" -> noSlash c ->
  parentText (x +:+ "/" +:+ c) = x +:+ "/" /\
  parentText ((x +:+ "/" +:+ c) +:+ "/") = x +:+ "/".
Proof.
  intros Hc Hn. unfold parentText.
  assert (E : srev (x +:+ "/" +:+ c) = srev c +:+ srev (x +:+ "/")).
  { rewrite <- append_assoc. apply srev_app. }
  split.
  - rewrite E, dropSlashes_plain by assumption. rewrite <- E.
    apply dirText_app. exact Hn.
  - rewrite srev_app. change (srev "/") with (String slash "").
    rewrite append_cons, append_empty_l. cbn [dropSlashes].
    replace (Ascii.eqb slash slash) with true by reflexivity.
    rewrite E, dropSlashes_plain by assumption. rewrite <- E.
    apply dirText_app. exact Hn.
Qed.

(** The text [MkdirAll] passes to itself for the parent of key
    [k ++ [c]]. *)
Definition parentTextOf (k : list string) : string :=
  match k with
  | [] => "/"
  | _ => keyPath k +:+ "/"
  end.

Lemma keyPath_snoc k c :
  keyPath (k ++ [c])
  = (match k with [] => "" | _ => keyPath k end) +:+ "/" +:+ c.
Proof.
  unfold keyPath. destruct k as [|x k].
  - cbn [app Join]. rewrite append_empty_l. reflexivity.
  - rewrite Join_snoc by discriminate. rewrite append_assoc. reflexivity.
Qed.

Lemma parentText_keyPath k c :
  plainElem c ->
  parentText (keyPath (k ++ [c])) = parentTextOf k /\
  parentText (keyPath (k ++ [c]) +:+ "/") = parentTextOf k.
Proof.
  intros (Hc & _ & _ & Hn). rewrite keyPath_snoc.
  destruct (parentText_app (match k with [] => "" | _ => keyPath k end) c Hc Hn)
    as [A B].
  rewrite A, B. destruct k; [split; apply append_empty_l|split; reflexivity].
Qed.

Lemma keyFrom_trailing_slash base p :
  keyFrom base (p +:+ "/") = keyFrom base p.
Proof.
  rewrite <- (append_empty_r (p +:+ "/")), append_assoc.
  rewrite keyFrom_app. unfold keyFrom at 1. cbn [splitOn fold_left].
  unfold cleanStep. cbn. apply rev_involutive.
Qed.

Lemma keyFrom_parentTextOf k :
  Forall plainElem k -> keyFrom [] (parentTextOf k) = k.
Proof.
  intros Hk. destruct k as [|x k]; [reflexivity|].
  unfold parentTextOf. rewrite keyFrom_trailing_slash.
  apply keyFrom_keyPath. exact Hk.
Qed.

Lemma IsAbs_parentTextOf k : IsAbs (parentTextOf k) = true.
Proof.
  destruct k as [|x k]; [reflexivity|]. unfold parentTextOf.
  rewrite IsAbs_app; [apply IsAbs_keyPath|].
  apply IsAbs_nonempty, IsAbs_keyPath.
Qed.

Lemma parentTextOf_length k : (0 <? String.length (parentTextOf k))%nat = true.
Proof.
  destruct (parentTextOf k) eqn:E; [|reflexivity].
  pose proof (IsAbs_parentTextOf k) as H. rewrite E in H. discriminate.
Qed.
Lemma nonEmptyPath_ok {A : Type} p (r : errno + A) : p <> "" -> nonEmptyPath p r = r.
Proof.
  intros Hp. unfold nonEmptyPath.
  destruct (String.eqb_spec p "") as [|_]; [contradiction|reflexivity].
Qed.

Lemma Stat_quiet p w :
  faults w = [] -> p <> "" ->
  Stat p w
  = (match follow maxLinksKernel (files w) (pathKey w p) with
     | inl e => Err (ErrPath "stat" p e)
     | inr (_, n) => Ok n
     end, w).
Proof.
  intros Hf Hp. unfold Stat. rewrite sysRead_quiet by exact Hf.
  rewrite nonEmptyPath_ok by exact Hp.
  destruct (follow _ _ _) as [|[]]; reflexivity.
Qed.

Lemma Lstat_quiet p w :
  faults w = [] -> p <> "" ->
  Lstat p w
  = (match lstatKey (files w) (pathKey w p) with
     | inl e => Err (ErrPath "lstat" p e)
     | inr n => Ok n
     end, w).
Proof.
  intros Hf Hp. unfold Lstat. rewrite sysRead_quiet by exact Hf.
  rewrite nonEmptyPath_ok by exact Hp. reflexivity.
Qed.

Lemma Mkdir_quiet p w :
  faults w = [] -> p <> "" ->
  Mkdir p w
  = match createAt (files w) (pathKey w p) Directory with
    | inl e => (Some (ErrPath "mkdir" p e), w)
    | inr m => (None, withFiles w m)
    end.
Proof.
  intros Hf Hp. unfold Mkdir. rewrite sysWrite_quiet by exact Hf.
  rewrite nonEmptyPath_ok by exact Hp. reflexivity.
Qed.

Lemma Symlink_quiet oldname newname w :
  faults w = [] -> newname <> "" ->
  Symlink_ oldname newname w
  = match createAt (files w) (pathKey w newname) (Symlink oldname) with
    | inl e => (Some (ErrLink "symlink" oldname newname e), w)
    | inr m => (None, withFiles w m)
    end.
Proof.
  intros Hf Hp. unfold Symlink_. rewrite sysWrite_quiet by exact Hf.
  rewrite nonEmptyPath_ok by exact Hp. reflexivity.
Qed.

(** [lstatKey], one element at a time. *)
Lemma descend_snoc m cur rest c :
  descend m cur (rest ++ [c])
  = match descend m cur rest with
    | Some e => Some e
    | None =>
        match nodeAt m (cur ++ rest) with
        | Some Directory => None
        | Some _ => Some ENOTDIR
        | None => Some ENOENT
        end
    end.
Proof.
  revert cur. induction rest as [|x rest IH]; intros cur.
  - cbn [app descend]. rewrite app_nil_r.
    destruct (nodeAt m cur) as [[]|]; reflexivity.
  - cbn [app descend]. destruct (nodeAt m cur) as [[]|]; try reflexivity.
    rewrite IH, <- app_assoc. reflexivity.
Qed.

Lemma lstatKey_snoc m k c :
  lstatKey m (k ++ [c])
  = match lstatKey m k with
    | inl e => inl e
    | inr Directory =>
        match m !! (k ++ [c]) with
        | Some n => inr n
        | None => inl ENOENT
        end
    | inr _ => inl ENOTDIR
    end.
Proof.
  unfold lstatKey. rewrite descend_snoc. cbn [app].
  destruct (descend m [] k); [reflexivity|].
  destruct (nodeAt m k) as [[]|]; try reflexivity.
  destruct k; reflexivity.
Qed.

Lemma lstatKey_root m : lstatKey m [] = inr Directory.
Proof. reflexivity. Qed.

Lemma lstatKey_dir_above m p ext n :
  lstatKey m (p ++ ext) = inr n -> ext <> [] -> lstatKey m p = inr Directory.
Proof.
  revert n. induction ext as [|c ext IH] using rev_ind; intros n H Hne.
  { contradiction. }
  rewrite app_assoc, lstatKey_snoc in H.
  destruct (lstatKey m (p ++ ext)) as [e|n'] eqn:E; [discriminate|].
  destruct n'; try discriminate.
  destruct (decide (ext = [])) as [->|Hext].
  - rewrite app_nil_r in E. exact E.
  - apply (IH Directory); [reflexivity|exact Hext].
Qed.

Lemma lstatKey_dir_prefix m k p n :
  lstatKey m k = inr n -> p `prefix_of` k -> p <> k ->
  lstatKey m p = inr Directory.
Proof.
  intros H [ext ->] Hne. apply (lstatKey_dir_above m p ext n H).
  intros ->. rewrite app_nil_r in Hne. contradiction.
Qed.
Lemma treeShaped_lstat m k n :
  treeShaped m -> m !! k = Some n -> k <> [] -> lstatKey m k = inr n.
Proof. intros Ht H Hk. apply lstatKey_present; [eapply Ht; exact H|exact H|exact Hk]. Qed.

Lemma descend_lstat m k :
  descend m [] k = None <-> (k = [] \/ exists k' c, k = k' ++ [c] /\ lstatKey m k' = inr Directory).
Proof.
  destruct k as [|x k] using rev_ind; [split; auto|]. clear IHk.
  rewrite descend_snoc. cbn [app]. unfold lstatKey. split.
  - intros H. right. exists k, x. split; [reflexivity|].
    destruct (descend m [] k); [discriminate|].
    destruct (nodeAt m k) as [[]|]; try discriminate. reflexivity.
  - intros [E|(k' & c & E & H)].
    { destruct k; discriminate. }
    apply app_inj_tail in E as [<- <-].
    destruct (descend m [] k); [discriminate|].
    destruct (nodeAt m k) as [[]|]; try discriminate. reflexivity.
Qed.

(** Changing what a name holds that is not a directory keeps the tree a
    tree. *)
Lemma treeShaped_alter_leaf (m m' : gmap (list string) node) k :
  treeShaped m ->
  (forall n, m !! k = Some n -> n <> Directory) ->
  (forall k', k' <> k -> m' !! k' = m !! k') ->
  (m' !! k <> None -> descend m [] k = None) ->
  treeShaped m'.
Proof.
  intros Ht Hleaf Hsame Hreach k' n' Hk'.
  assert (Hd : descend m [] k' = None).
  { destruct (decide (k' = k)) as [->|Hne].
    - apply Hreach. congruence.
    - rewrite Hsame in Hk' by exact Hne. eapply Ht. exact Hk'. }
  rewrite <- Hd. apply descend_agree. cbn [app].
  intros p Hp Hne _. destruct p as [|x p]; [reflexivity|].
  cbn [nodeAt]. apply Hsame. intros Ek. subst k.
  apply descend_lstat in Hd as [->|(k1 & c & -> & Hl)].
  { destruct Hp as [? Hp]. discriminate. }
  assert (Hx : lstatKey m (x :: p) = inr Directory).
  { destruct (decide (x :: p = k1)) as [<-|Hne1]; [exact Hl|].
    eapply lstatKey_dir_prefix; [exact Hl| |exact Hne1].
    destruct Hp as [ext Hp]. destruct ext as [|e ext] using rev_ind.
    - rewrite app_nil_r in Hp. congruence.
    - rewrite app_assoc in Hp. apply app_inj_tail in Hp as [-> _].
      apply prefix_app_r. reflexivity. }
  apply lstatKey_nodeAt in Hx. cbn in Hx. apply (Hleaf _ Hx). reflexivity.
Qed.

Lemma string_length_app a b :
  String.length (a +:+ b) = String.length a + String.length b.
Proof.
  induction a as [|c a IH]; [reflexivity|].
  rewrite append_cons. cbn [String.length]. rewrite IH. reflexivity.
Qed.

Lemma Join_length k : List.length k <= S (String.length (Join k "/")).
Proof.
  induction k as [|x k IH]; [cbn; lia|].
  destruct k as [|y k]; [cbn; lia|].
  rewrite Join_cons2, !string_length_app.
  cbn [List.length String.length] in *. lia.
Qed.

Lemma keyPath_length k : List.length k <= String.length (keyPath k).
Proof.
  unfold keyPath. rewrite string_length_app. cbn [String.length].
  pose proof (Join_length k). lia.
Qed.
Lemma withFiles_same w : withFiles w (files w) = w.
Proof. destruct w; reflexivity. Qed.

Lemma follow_lstat fuel m k n :
  lstatKey m k = inr n -> isSymlink n = false -> follow fuel m k = inr (k, n).
Proof.
  intros H Hn. destruct fuel; cbn [follow]; rewrite H; destruct n; try reflexivity;
    discriminate.
Qed.

Lemma follow_error fuel m k e : lstatKey m k = inl e -> follow fuel m k = inl e.
Proof. intros H. destruct fuel; cbn [follow]; rewrite H; reflexivity. Qed.

(** With no failing call and a tree for a file system, [MkdirAll]
    succeeds wherever the entries above the name are directories or
    missing, and all it adds is the missing directories. *)
Lemma MkdirAllFuel_quiet k :
  Forall plainElem k ->
  forall fuel p w,
    faults w = [] -> treeShaped (files w) ->
    p = keyPath k \/ p = parentTextOf k ->
    List.length k < fuel ->
    lstatKey (files w) k = inr Directory \/ lstatKey (files w) k = inl ENOENT ->
    exists m',
      MkdirAllFuel fuel p w = (None, withFiles w m') /\
      treeShaped m' /\ lstatKey m' k = inr Directory /\
      forall key,
        m' !! key = files w !! key \/
        (files w !! key = None /\ m' !! key = Some Directory /\ key `prefix_of` k /\
         lstatKey (files w) key = inl ENOENT).
Proof.
  induction k as [|c k IH] using rev_ind; intros Hk fuel p w Hf Ht Hp Hfuel Hl.
  - exists (files w). destruct fuel as [|fuel]; [lia|].
    assert (p = "/") as -> by (destruct Hp as [->| ->]; reflexivity).
    cbn [MkdirAllFuel]. unfold bind. rewrite Stat_quiet by (exact Hf || discriminate).
    cbn. rewrite withFiles_same. split; [reflexivity|].
    split; [exact Ht|]. split; [reflexivity|]. intros key. left. reflexivity.
  - apply Forall_app in Hk as [Hk Hc]. inversion Hc as [|? ? Hc' _]; subst.
    assert (Hkc : Forall plainElem (k ++ [c])) by (apply Forall_app; split; assumption).
    assert (Habs : IsAbs p = true).
    { destruct Hp as [->| ->]; [apply IsAbs_keyPath|apply IsAbs_parentTextOf]. }
    assert (Hkey : pathKey w p = k ++ [c]).
    { rewrite pathKey_abs by exact Habs.
      destruct Hp as [->| ->]; [apply keyFrom_keyPath|apply keyFrom_parentTextOf]; exact Hkc. }
    assert (Hne : p <> "") by (apply IsAbs_nonempty; exact Habs).
    destruct fuel as [|fuel]; [lia|].
    cbn [MkdirAllFuel]. unfold bind. rewrite Stat_quiet by assumption. rewrite Hkey.
    destruct Hl as [Hl|Hl].
    { exists (files w). rewrite (follow_lstat _ _ _ _ Hl) by reflexivity.
      cbn. rewrite withFiles_same. split; [reflexivity|].
      split; [exact Ht|]. split; [exact Hl|]. intros key. left. reflexivity. }
    rewrite (follow_error _ _ _ _ Hl).
    assert (Hpar : parentText p = parentTextOf k).
    { destruct Hp as [->| ->].
      - apply parentText_keyPath. exact Hc'.
      - unfold parentTextOf at 1. destruct (k ++ [c]) eqn:E.
        { destruct k; discriminate. }
        rewrite <- E. apply parentText_keyPath. exact Hc'. }
    rewrite Hpar, parentTextOf_length.
    pose proof (lstatKey_ENOENT_absent _ _ Ht Hl) as [Habsent _].
    pose proof Hl as Hl0.
    rewrite lstatKey_snoc in Hl.
    destruct (IH Hk fuel (parentTextOf k) w Hf Ht) as (m1 & E1 & Ht1 & Hd1 & Hfr1).
    { right. reflexivity. }
    { rewrite length_app in Hfuel. cbn in Hfuel. lia. }
    { destruct (lstatKey (files w) k) as [e|[]]; try discriminate.
      - right. congruence.
      - left. reflexivity. }
    rewrite E1. rewrite Mkdir_quiet by (exact Hf || exact Hne).
    assert (Hkey1 : pathKey (withFiles w m1) p = k ++ [c]) by exact Hkey.
    rewrite Hkey1. cbn [files withFiles].
    assert (Hfree : m1 !! (k ++ [c]) = None).
    { destruct (Hfr1 (k ++ [c])) as [E|(_ & _ & Hpre & _)]; [congruence|].
      exfalso. destruct Hpre as [ext Hpre].
      apply (f_equal (@List.length string)) in Hpre.
      rewrite !length_app in Hpre. cbn in Hpre. lia. }
    assert (Hdesc : descend m1 [] (k ++ [c]) = None).
    { apply descend_lstat. right. exists k, c. split; [reflexivity|exact Hd1]. }
    unfold createAt. rewrite Hdesc.
    replace (nodeAt m1 (k ++ [c])) with (@None node)
      by (destruct k; cbn; symmetry; exact Hfree).
    exists (<[k ++ [c] := Directory]> m1).
    split; [reflexivity|]. split; [|split].
    + apply (treeShaped_alter_leaf m1 _ (k ++ [c]) Ht1).
      * intros n Hn. congruence.
      * intros k' Hk'. apply lookup_insert_ne. congruence.
      * intros _. exact Hdesc.
    + rewrite lstatKey_snoc.
      rewrite (lstatKey_agree m1) by
        (intros q [ext Hq]; apply lookup_insert_ne; intros E;
         apply (f_equal (@List.length string)) in Hq, E;
         rewrite !length_app in *; cbn in *; lia).
      rewrite Hd1. rewrite lookup_insert_eq. reflexivity.
    + intros key. destruct (decide (key = k ++ [c])) as [->|Hne'].
      * right. rewrite lookup_insert_eq. split; [exact Habsent|].
        split; [reflexivity|]. split; [reflexivity|exact Hl0].
      * rewrite lookup_insert_ne by congruence.
        destruct (Hfr1 key) as [E|(A & B & C & D)]; [left; exact E|right].
        split; [exact A|]. split; [exact B|]. split; [|exact D].
        etransitivity; [exact C|]. apply prefix_app_r. reflexivity.
Qed.
Lemma ReadFile_quiet p w :
  faults w = [] -> p <> "" ->
  ReadFile p w
  = (match follow maxLinksKernel (files w) (pathKey w p) with
     | inl e => Err (ErrPath "open" p e)
     | inr (_, File d) => Ok d
     | inr (_, Directory) => Err (ErrPath "open" p EISDIR)
     | inr _ => Err (ErrPath "open" p EINVAL)
     end, w).
Proof.
  intros Hf Hp. unfold ReadFile. rewrite sysRead_quiet by exact Hf.
  rewrite nonEmptyPath_ok by exact Hp.
  destruct (follow _ _ _) as [|[? []]]; reflexivity.
Qed.

Lemma EvalSymlinks_quiet p w :
  faults w = [] -> p <> "" ->
  EvalSymlinks p w
  = (match follow maxLinksEval (files w) (pathKey w p) with
     | inl e => Err (ErrPath "lstat" p e)
     | inr (k, _) => Ok (keyPath k)
     end, w).
Proof.
  intros Hf Hp. unfold EvalSymlinks. rewrite sysRead_quiet by exact Hf.
  rewrite nonEmptyPath_ok by exact Hp.
  destruct (follow _ _ _) as [|[]]; reflexivity.
Qed.

Lemma Readlink_quiet p w :
  faults w = [] -> p <> "" ->
  Readlink p w
  = (match lstatKey (files w) (pathKey w p) with
     | inl e => Err (ErrPath "readlink" p e)
     | inr (Symlink t) => Ok t
     | inr _ => Err (ErrPath "readlink" p EINVAL)
     end, w).
Proof.
  intros Hf Hp. unfold Readlink. rewrite sysRead_quiet by exact Hf.
  rewrite nonEmptyPath_ok by exact Hp.
  destruct (lstatKey _ _) as [|[]]; reflexivity.
Qed.

Lemma ReadDir_quiet p w :
  faults w = [] -> p <> "" ->
  ReadDir p w
  = (match follow maxLinksKernel (files w) (pathKey w p) with
     | inl e => Err (ErrPath "open" p e)
     | inr (k, Directory) => Ok (children (files w) k)
     | inr _ => Err (ErrPath "open" p ENOTDIR)
     end, w).
Proof.
  intros Hf Hp. unfold ReadDir. rewrite sysRead_quiet by exact Hf.
  rewrite nonEmptyPath_ok by exact Hp.
  destruct (follow _ _ _) as [|[? []]]; reflexivity.
Qed.

(** Removing what is not a directory. *)
Lemma Remove_quiet_leaf p w n :
  faults w = [] -> p <> "" -> pathKey w p <> [] ->
  lstatKey (files w) (pathKey w p) = inr n -> n <> Directory ->
  Remove p w = (None, withFiles w (delete (pathKey w p) (files w))).
Proof.
  intros Hf Hp Hk Hl Hn. unfold Remove. rewrite sysWrite_quiet by exact Hf.
  rewrite nonEmptyPath_ok by exact Hp. cbn zeta.
  destruct (pathKey w p) eqn:E; [contradiction|]. rewrite Hl.
  destruct n; try reflexivity. contradiction.
Qed.

Lemma targetKey_plain k t : Forall plainElem k -> Forall plainElem (targetKey k t).
Proof.
  intros Hk. unfold targetKey. destruct (IsAbs t).
  - apply keyFrom_nil_plain.
  - apply keyFrom_plainElems. destruct k as [|x k] using rev_ind; [constructor|].
    rewrite removelast_last. apply Forall_app in Hk. apply Hk.
Qed.

Lemma follow_plain fuel m k k' n :
  Forall plainElem k -> follow fuel m k = inr (k', n) -> Forall plainElem k'.
Proof.
  revert k. induction fuel as [|fuel IH]; intros k Hk H; cbn [follow] in H.
  - destruct (lstatKey m k) as [|[d|t| |]]; try discriminate;
      try (injection H as <- <-; exact Hk).
    destruct (t =? "")%string; discriminate.
  - destruct (lstatKey m k) as [|[d|t| |]]; try discriminate;
      try (injection H as <- <-; exact Hk).
    destruct (t =? "")%string; [discriminate|].
    apply (IH _ (targetKey_plain k t Hk) H).
Qed.
(** ** The managed pass when no call fails *)

(** What one iteration of the managed pass makes of a path. *)
Inductive verdict := Manual | Untouched | Replaced.

(** The verdict, from the repository entry at [rP] and the live entry at
    [lP]. *)
Definition managedVerdict (m : gmap (list string) node) (rP lP : list string)
  : verdict :=
  match lstatKey m rP with
  | inr (File d) =>
      match lstatKey m lP with
      | inl ENOENT => Replaced
      | inl _ => Manual
      | inr (Symlink _) =>
          match follow maxLinksEval m lP with
          | inr (k, _) => if decide (k = rP) then Untouched else Manual
          | inl _ => Manual
          end
      | inr (File d') => if (d =? d')%string then Replaced else Manual
      | inr _ => Manual
      end
  | _ => Manual
  end.

Definition addVerdict (v : verdict) (s : doctorReport) (rel : string)
  : doctorReport :=
  match v with
  | Manual => addManual s rel
  | Untouched => addDidNotTouch s rel
  | Replaced => addReplaced s rel
  end.

Lemma MkdirAll_quiet k w :
  Forall plainElem k -> faults w = [] -> treeShaped (files w) ->
  lstatKey (files w) k = inr Directory \/ lstatKey (files w) k = inl ENOENT ->
  exists m',
    MkdirAll (keyPath k) w = (None, withFiles w m') /\
    treeShaped m' /\ lstatKey m' k = inr Directory /\
    forall key,
      m' !! key = files w !! key \/
      (files w !! key = None /\ m' !! key = Some Directory /\ key `prefix_of` k /\
       lstatKey (files w) key = inl ENOENT).
Proof.
  intros Hk Hf Ht Hl. unfold MkdirAll.
  apply (MkdirAllFuel_quiet k Hk); [exact Hf|exact Ht|left; reflexivity| |exact Hl].
  pose proof (keyPath_length k). lia.
Qed.

Lemma eqb_keyPath k k' :
  Forall plainElem k -> Forall plainElem k' ->
  (keyPath k =? keyPath k')%string = bool_decide (k = k').
Proof.
  intros Hk Hk'. destruct (String.eqb_spec (keyPath k) (keyPath k')) as [E|E].
  - apply keyPath_inj in E; [|assumption..]. subst. rewrite bool_decide_eq_true_2; reflexivity.
  - rewrite bool_decide_eq_false_2; [reflexivity|]. intros ->. apply E. reflexivity.
Qed.
Lemma doctorManagedPath_quiet repoPath xdg ns s w :
  IsAbs repoPath = true -> IsAbs xdg = true ->
  ns <> [] -> Forall plainElem ns ->
  faults w = [] -> treeShaped (files w) ->
  (forall t, lstatKey (files w) (keyFrom [] repoPath ++ ns) <> inr (Symlink t)) ->
  exists m',
    doctorManagedPath repoPath xdg (Join ns "/") s w
    = (addVerdict (managedVerdict (files w) (keyFrom [] repoPath ++ ns)
                     (keyFrom [] xdg ++ ns)) s (Join ns "/"),
       withFiles w m') /\
    treeShaped m' /\
    (managedVerdict (files w) (keyFrom [] repoPath ++ ns) (keyFrom [] xdg ++ ns)
       <> Replaced -> m' = files w) /\
    (managedVerdict (files w) (keyFrom [] repoPath ++ ns) (keyFrom [] xdg ++ ns)
       = Replaced ->
     m' !! (keyFrom [] xdg ++ ns)
       = Some (Symlink (keyPath (keyFrom [] repoPath ++ ns))) /\
     (files w !! (keyFrom [] xdg ++ ns) = None \/
      exists d, files w !! (keyFrom [] xdg ++ ns) = Some (File d)) /\
     forall key,
       key <> keyFrom [] xdg ++ ns ->
       m' !! key = files w !! key \/
       (files w !! key = None /\ m' !! key = Some Directory /\
        key `prefix_of` (keyFrom [] xdg ++ ns) /\
        lstatKey (files w) key = inl ENOENT)).
Proof.
  intros Har Hax Hne Hns Hf Ht Hrepo.
  set (rk := keyFrom [] repoPath) in *. set (xk := keyFrom [] xdg) in *.
  assert (HrP : Forall plainElem (rk ++ ns)).
  { apply Forall_app. split; [apply keyFrom_nil_plain|exact Hns]. }
  assert (HlP : Forall plainElem (xk ++ ns)).
  { apply Forall_app. split; [apply keyFrom_nil_plain|exact Hns]. }
  assert (HlPne : xk ++ ns <> []) by (destruct xk, ns; try discriminate; congruence).
  unfold doctorManagedPath, FromSlash.
  rewrite !JoinPath_abs by assumption. rewrite !keyFrom_plains by assumption.
  fold rk xk.
  pose proof (IsAbs_nonempty _ (IsAbs_keyPath (rk ++ ns))) as Hrf.
  pose proof (IsAbs_nonempty _ (IsAbs_keyPath (xk ++ ns))) as Hlf.
  assert (Kr : forall w0, pathKey w0 (keyPath (rk ++ ns)) = rk ++ ns).
  { intros w0. rewrite pathKey_abs by apply IsAbs_keyPath. apply keyFrom_keyPath, HrP. }
  assert (Kl : forall w0, pathKey w0 (keyPath (xk ++ ns)) = xk ++ ns).
  { intros w0. rewrite pathKey_abs by apply IsAbs_keyPath. apply keyFrom_keyPath, HlP. }
  unfold bind. rewrite Stat_quiet by assumption. rewrite Kr.
  unfold managedVerdict.
  destruct (lstatKey (files w) (rk ++ ns)) as [e|n] eqn:Er.
  { rewrite (follow_error _ _ _ _ Er). exists (files w). rewrite withFiles_same.
    split; [reflexivity|]. split; [exact Ht|]. split; [reflexivity|discriminate]. }
  destruct n as [d|t| |];
    [|exfalso; apply (Hrepo t); reflexivity
     |rewrite (follow_lstat _ _ _ _ Er) by reflexivity; exists (files w);
      rewrite withFiles_same; split; [reflexivity|]; split; [exact Ht|];
      split; [reflexivity|discriminate]..].
  rewrite (follow_lstat _ _ _ _ Er) by reflexivity. cbn [isRegular negb].
  rewrite Lstat_quiet by assumption. rewrite Kl.
  destruct (lstatKey (files w) (xk ++ ns)) as [e|n] eqn:El.
  - (* nothing at the live path *)
    destruct (errno_eqb e ENOENT) eqn:Ee.
    2:{ exists (files w). rewrite withFiles_same.
        destruct e; try discriminate Ee;
          (split; [reflexivity|]; split; [exact Ht|]; split; [reflexivity|discriminate]). }
    assert (e = ENOENT) as -> by (destruct e; try discriminate; reflexivity).
    cbn [isNotExist errnoOf negb].
    destruct ns as [|c ns0 _] using rev_ind; [contradiction|].
    apply Forall_app in Hns as [Hns0 Hc]. inversion Hc as [|? ? Hc' _]; subst.
    rewrite app_assoc in *.
    assert (Hpar : Forall plainElem (xk ++ ns0)).
    { apply Forall_app. split; [apply keyFrom_nil_plain|exact Hns0]. }
    rewrite Dir_keyPath by assumption.
    pose proof (lstatKey_ENOENT_absent _ _ Ht El) as [Habsent _].
    destruct (MkdirAll_quiet (xk ++ ns0) w Hpar Hf Ht) as (m1 & E1 & Ht1 & Hd1 & Hfr1).
    { rewrite lstatKey_snoc in El.
      destruct (lstatKey (files w) (xk ++ ns0)) as [e|[]]; try discriminate.
      - right. congruence.
      - left. reflexivity. }
    rewrite E1. rewrite Symlink_quiet by assumption. rewrite Kl. cbn [files withFiles].
    assert (Hfree : m1 !! ((xk ++ ns0) ++ [c]) = None).
    { destruct (Hfr1 ((xk ++ ns0) ++ [c])) as [E|(_ & _ & Hpre & _)]; [congruence|].
      exfalso. destruct Hpre as [ext Hpre].
      apply (f_equal (@List.length string)) in Hpre.
      rewrite !length_app in Hpre. cbn in Hpre. lia. }
    assert (Hdesc : descend m1 [] ((xk ++ ns0) ++ [c]) = None).
    { apply descend_lstat. right. exists (xk ++ ns0), c. split; [reflexivity|exact Hd1]. }
    unfold createAt. rewrite Hdesc.
    replace (nodeAt m1 ((xk ++ ns0) ++ [c])) with (@None node)
      by (destruct (xk ++ ns0); cbn; symmetry; exact Hfree).
    eexists. split; [reflexivity|]. split; [|split; [intros Hv; exfalso; apply Hv; reflexivity|]].
    { apply (treeShaped_alter_leaf m1 _ ((xk ++ ns0) ++ [c]) Ht1).
      - intros n Hn. congruence.
      - intros k' Hk'. apply lookup_insert_ne. congruence.
      - intros _. exact Hdesc. }
    intros _. split; [apply lookup_insert_eq|]. split; [left; exact Habsent|].
    intros key Hkey. rewrite lookup_insert_ne by congruence.
    destruct (Hfr1 key) as [E|(A & B & C & D)]; [left; exact E|right].
    split; [exact A|]. split; [exact B|]. split; [|exact D].
    etransitivity; [exact C|]. apply prefix_app_r. reflexivity.
  - destruct n as [d'|t| |].
    + (* a regular file at the live path *)
      cbn [isSymlink isRegular negb]. unfold filesEqual, bind.
      rewrite ReadFile_quiet by assumption. rewrite Kr.
      rewrite (follow_lstat _ _ _ _ Er) by reflexivity.
      rewrite ReadFile_quiet by assumption. rewrite Kl.
      rewrite (follow_lstat _ _ _ _ El) by reflexivity. unfold ret.
      destruct (d =? d')%string eqn:Edd.
      2:{ exists (files w). rewrite withFiles_same.
          split; [reflexivity|]. split; [exact Ht|]. split; [reflexivity|discriminate]. }
      apply String.eqb_eq in Edd. subst d'.
      pose proof (lstatKey_nodeAt _ _ _ El) as Hnode.
      assert (Hin : files w !! (xk ++ ns) = Some (File d)).
      { destruct (xk ++ ns); [contradiction|exact Hnode]. }
      rewrite (Remove_quiet_leaf _ _ (File d)); try assumption;
        try (rewrite Kl; assumption); [|discriminate].
      rewrite Kl. rewrite Symlink_quiet by assumption. rewrite Kl.
      cbn [files withFiles].
      assert (Hdesc : descend (delete (xk ++ ns) (files w)) [] (xk ++ ns) = None).
      { rewrite (descend_agree (files w)); [eapply Ht; exact Hin|].
        cbn [app]. intros p _ Hp _. destruct p; [reflexivity|]. cbn.
        apply lookup_delete_ne. congruence. }
      unfold createAt. rewrite Hdesc.
      replace (nodeAt (delete (xk ++ ns) (files w)) (xk ++ ns)) with (@None node)
        by (destruct (xk ++ ns) eqn:E; [contradiction|]; cbn; symmetry;
            apply lookup_delete_eq).
      eexists. split; [reflexivity|]. split; [|split; [intros Hv; exfalso; apply Hv; reflexivity|]].
      { apply (treeShaped_alter_leaf (files w) _ (xk ++ ns) Ht).
        - intros n Hn. rewrite Hin in Hn. injection Hn as <-. discriminate.
        - intros k' Hk'. rewrite lookup_insert_ne by congruence.
          apply lookup_delete_ne. congruence.
        - intros _. eapply Ht. exact Hin. }
      intros _. split; [apply lookup_insert_eq|]. split; [right; exists d; exact Hin|].
      intros key Hkey. left. rewrite lookup_insert_ne by congruence.
      apply lookup_delete_ne. congruence.
    + (* a link at the live path *)
      cbn [isSymlink]. unfold symlinkPointsTo, bind.
      rewrite EvalSymlinks_quiet by assumption. rewrite Kl.
      destruct (follow maxLinksEval (files w) (xk ++ ns)) as [e|[k n]] eqn:Efol.
      { exists (files w). rewrite withFiles_same.
        split; [reflexivity|]. split; [exact Ht|]. split; [reflexivity|discriminate]. }
      pose proof (follow_plain _ _ _ _ _ HlP Efol) as Hkp.
      unfold Abs, ret. rewrite !IsAbs_keyPath.
      rewrite !(Clean_keyPath k Hkp), !(Clean_keyPath (rk ++ ns) HrP).
      rewrite eqb_keyPath by assumption.
      exists (files w). rewrite withFiles_same.
      destruct (decide (k = rk ++ ns)) as [->|Hk].
      * rewrite bool_decide_eq_true_2 by reflexivity.
        split; [reflexivity|]. split; [exact Ht|]. split; [reflexivity|discriminate].
      * rewrite bool_decide_eq_false_2 by exact Hk.
        split; [reflexivity|]. split; [exact Ht|]. split; [reflexivity|discriminate].
    + exists (files w). rewrite withFiles_same.
      split; [reflexivity|]. split; [exact Ht|]. split; [reflexivity|discriminate].
    + exists (files w). rewrite withFiles_same.
      split; [reflexivity|]. split; [exact Ht|]. split; [reflexivity|discriminate].
Qed.
(** ** The doctor, run twice: what the first run leaves *)

(** The entries that the repository and the live tree hold for a managed
    path. *)
Definition repoKeyOf (repoPath rel : string) : list string :=
  keyFrom [] repoPath ++ splitOn slash rel.

Definition liveKeyOf (xdg rel : string) : list string :=
  keyFrom [] xdg ++ splitOn slash rel.

(** The verdict on a managed path in the file system [m]. *)
Definition verdictIn (repoPath xdg : string) (m : gmap (list string) node)
  (rel : string) : verdict :=
  managedVerdict m (repoKeyOf repoPath rel) (liveKeyOf xdg rel).

(** How the entries [m] can differ from the entries [m0] a run of the
    doctor started from: only below the live root, and there only by a
    directory made on the way to a managed path that was to be replaced,
    by the link to the repository at such a path, or by the removal or
    the replacement by a regular file of a link that is not at a managed
    path. *)
Definition evolved (repoPath xdg : string) (managed : list string)
  (m0 m : gmap (list string) node) : Prop :=
  forall key,
    m !! key = m0 !! key \/
    exists ext,
      ext <> [] /\ key = keyFrom [] xdg ++ ext /\
      ((m0 !! key = None /\ m !! key = Some Directory /\
        exists rel, In rel managed /\ verdictIn repoPath xdg m0 rel = Replaced /\
                    ext `prefix_of` splitOn slash rel /\ ext <> splitOn slash rel) \/
       (exists rel, In rel managed /\ verdictIn repoPath xdg m0 rel = Replaced /\
                    ext = splitOn slash rel /\
                    m !! key = Some (Symlink (keyPath (repoKeyOf repoPath rel)))) \/
       (exists t, m0 !! key = Some (Symlink t) /\
                  (forall rel, In rel managed -> ext <> splitOn slash rel) /\
                  (m !! key = None \/ exists d, m !! key = Some (File d)))).

Lemma lstatKey_errno m k e :
  lstatKey m k = inl e -> e = ENOENT \/ e = ENOTDIR.
Proof.
  revert e. induction k as [|c k IH] using rev_ind; intros e H; [discriminate|].
  rewrite lstatKey_snoc in H.
  destruct (lstatKey m k) as [e'|[]].
  - injection H as <-. apply IH. reflexivity.
  - injection H as <-. auto.
  - injection H as <-. auto.
  - destruct (m !! (k ++ [c])); [discriminate|]. injection H as <-. auto.
  - injection H as <-. auto.
Qed.

(** Entries that only gain directories at free names. *)
Lemma lstatKey_grown (m0 m : gmap (list string) node) k :
  treeShaped m0 ->
  (forall u, u `prefix_of` k ->
             m !! u = m0 !! u \/ (m0 !! u = None /\ m !! u = Some Directory)) ->
  match lstatKey m0 k with
  | inr n => lstatKey m k = inr n
  | inl ENOENT => lstatKey m k = inl ENOENT \/ lstatKey m k = inr Directory
  | inl e => lstatKey m k = inl e
  end.
Proof.
  intros Ht. induction k as [|c k IH] using rev_ind; intros H; [reflexivity|].
  assert (IH' : match lstatKey m0 k with
                | inr n => lstatKey m k = inr n
                | inl ENOENT => lstatKey m k = inl ENOENT \/ lstatKey m k = inr Directory
                | inl e => lstatKey m k = inl e
                end).
  { apply IH. intros u Hu. apply H. apply prefix_app_r. exact Hu. }
  clear IH.
  pose proof (lstatKey_ENOENT_absent m0 (k ++ [c]) Ht) as Habs.
  pose proof (H (k ++ [c]) ltac:(reflexivity)) as Hkc.
  rewrite (lstatKey_snoc m0 k c) in *. rewrite (lstatKey_snoc m k c).
  destruct (lstatKey m0 k) as [e|n] eqn:E0.
  - destruct e; try (rewrite IH'; reflexivity).
    destruct (Habs eq_refl) as [Hn _].
    destruct IH' as [-> | ->]; [left; reflexivity|].
    destruct Hkc as [E|[_ E]]; rewrite E; [rewrite Hn; left; reflexivity|right; reflexivity].
  - rewrite IH'. destruct n; try reflexivity.
    destruct (m0 !! (k ++ [c])) as [n|] eqn:El.
    + destruct Hkc as [E|[E _]]; [rewrite E; reflexivity|discriminate].
    + destruct Hkc as [E|[_ E]]; rewrite E; [left; reflexivity|right; reflexivity].
Qed.
Lemma managed_elems rel :
  normalizeManagedPath rel = Ok rel -> rel <> ".." ->
  splitOn slash rel <> [] /\ Forall plainElem (splitOn slash rel) /\
  Join (splitOn slash rel) "/" = rel.
Proof.
  intros H Hne. destruct (normalizeManagedPath_shape _ _ H) as [E|(cs & Hcs & Hp & E)];
    [contradiction|].
  rewrite E at 1 2 3. rewrite splitOn_Join; [|exact Hcs|apply plainElems_noSlash; exact Hp].
  split; [exact Hcs|]. split; [exact Hp|symmetry; exact E].
Qed.

Lemma prefix_snoc_inv {A : Type} (u k : list A) (c : A) :
  u `prefix_of` k ++ [c] -> u = k ++ [c] \/ u `prefix_of` k.
Proof.
  intros [ext E]. destruct ext as [|e ext _] using rev_ind.
  - left. rewrite app_nil_r in E. auto.
  - right. rewrite app_assoc in E. apply app_inj_tail in E as [-> _].
    apply prefix_app_r. reflexivity.
Qed.

Lemma prefix_app_same {A : Type} (a u k : list A) :
  a ++ u `prefix_of` a ++ k <-> u `prefix_of` k.
Proof.
  split.
  - intros [ext E]. rewrite <- app_assoc in E. apply app_inv_head in E.
    exists ext. exact E.
  - intros [ext ->]. exists ext. rewrite app_assoc. reflexivity.
Qed.

(** * Further properties of the program *)

(** ** Sorting and [unique] *)

Lemma ascii_compare_refl c : Ascii.compare c c = Eq.
Proof. unfold Ascii.compare. apply N.compare_refl. Qed.

Lemma ascii_compare_trans c1 c2 c3 o :
  Ascii.compare c1 c2 = o -> Ascii.compare c2 c3 = o -> o <> Eq ->
  Ascii.compare c1 c3 = o.
Proof.
  unfold Ascii.compare. intros H1 H2 Ho. destruct o; [contradiction| |].
  - apply N.compare_lt_iff in H1, H2. apply N.compare_lt_iff.
    eapply N.lt_trans; eassumption.
  - apply N.compare_gt_iff in H1, H2. apply N.compare_gt_iff.
    eapply N.lt_trans; eassumption.
Qed.

Lemma string_compare_lt_trans a b c :
  String.compare a b = Lt -> String.compare b c = Lt -> String.compare a c = Lt.
Proof.
  revert b c. induction a as [|x a IH]; intros [|y b] [|z c]; cbn; try discriminate;
    try reflexivity.
  destruct (Ascii.compare x y) eqn:Exy; try discriminate;
    destruct (Ascii.compare y z) eqn:Eyz; try discriminate.
  - apply Ascii.compare_eq_iff in Exy, Eyz. subst. rewrite ascii_compare_refl. apply IH.
  - apply Ascii.compare_eq_iff in Exy. subst. rewrite Eyz. reflexivity.
  - apply Ascii.compare_eq_iff in Eyz. subst. rewrite Exy. reflexivity.
  - rewrite (ascii_compare_trans x y z Lt Exy Eyz) by discriminate. reflexivity.
Qed.

Lemma string_compare_refl a : String.compare a a = Eq.
Proof.
  induction a as [|x a IH]; [reflexivity|]. cbn. rewrite ascii_compare_refl. exact IH.
Qed.

Lemma string_leb_trans a b c :
  String.leb a b = true -> String.leb b c = true -> String.leb a c = true.
Proof.
  unfold String.leb. intros H1 H2.
  destruct (String.compare a b) eqn:E1; try discriminate;
    destruct (String.compare b c) eqn:E2; try discriminate.
  - apply String.compare_eq_iff in E1, E2. subst. rewrite string_compare_refl.
    reflexivity.
  - apply String.compare_eq_iff in E1. subst. rewrite E2. reflexivity.
  - apply String.compare_eq_iff in E2. subst. rewrite E1. reflexivity.
  - rewrite (string_compare_lt_trans a b c E1 E2). reflexivity.
Qed.

Lemma string_leb_refl a : String.leb a a = true.
Proof. destruct (String.leb_total a a); assumption. Qed.
Definition lebString (a b : string) : Prop := String.leb a b = true.

Lemma insertString_sorted x l :
  StronglySorted lebString l -> StronglySorted lebString (insertString x l).
Proof.
  intros H. induction H as [|y l Hs IH Hy]; cbn [insertString].
  - constructor; constructor.
  - destruct (String.leb x y) eqn:E.
    + constructor; [constructor; assumption|]. constructor; [exact E|].
      eapply Forall_impl; [exact Hy|]. intros z Hz. eapply string_leb_trans; eassumption.
    + constructor; [exact IH|].
      apply Forall_forall. intros z Hz. apply list_elem_of_In, In_insertString in Hz.
      destruct Hz as [Ez|Hz].
      * subst z. destruct (String.leb_total x y) as [H|H]; [congruence|exact H].
      * rewrite Forall_forall in Hy. apply Hy, list_elem_of_In. exact Hz.
Qed.

Lemma sortStrings_sorted l : StronglySorted lebString (sortStrings l).
Proof.
  unfold sortStrings. induction l as [|x l IH]; cbn [fold_right]; [constructor|].
  apply insertString_sorted. exact IH.
Qed.

Lemma sortStrings_fixed l : StronglySorted lebString l -> sortStrings l = l.
Proof.
  unfold sortStrings. intros H. induction H as [|x l Hs IH Hx]; cbn [fold_right]; [reflexivity|].
  rewrite IH. destruct l as [|y l]; [reflexivity|]. cbn [insertString].
  inversion Hx as [|? ? Hxy _]; subst. unfold lebString in Hxy. rewrite Hxy. reflexivity.
Qed.

Lemma dropRepeats_spec prev l :
  StronglySorted lebString (prev :: l) ->
  StronglySorted lebString (prev :: dropRepeats prev l) /\
  NoDup (prev :: dropRepeats prev l) /\
  forall y, In y (prev :: dropRepeats prev l) <-> In y (prev :: l).
Proof.
  revert prev. induction l as [|x l IH]; intros prev Hs; cbn [dropRepeats].
  - split; [exact Hs|]. split; [|reflexivity]. constructor; [apply not_elem_of_nil|constructor].
  - inversion Hs as [|? ? Hs' Hall]; subst.
    inversion Hall as [|? ? Hpx Hall']; subst.
    inversion Hs' as [|? ? Hs'' Hx]; subst.
    destruct (String.eqb_spec x prev) as [->|Hne].
    + destruct (IH prev) as (A & B & C).
      { constructor; assumption. }
      split; [exact A|]. split; [exact B|].
      intros y. rewrite C. cbn. tauto.
    + destruct (IH x Hs') as (A & B & C).
      assert (Hsub : forall y, In y (dropRepeats x l) -> In y l).
      { intros y Hy. assert (Hy' : In y (x :: dropRepeats x l)) by (right; exact Hy).
        apply C in Hy'. destruct Hy' as [<-|Hy']; [|exact Hy'].
        exfalso. apply NoDup_cons in B as [B _]. apply B, list_elem_of_In. exact Hy. }
      split; [|split].
      * constructor; [exact A|]. constructor; [exact Hpx|].
        apply Forall_forall. intros y Hy. apply list_elem_of_In in Hy.
        rewrite Forall_forall in Hall'. apply Hall', list_elem_of_In, Hsub, Hy.
      * constructor; [|exact B]. intros Hin. apply list_elem_of_In in Hin.
        destruct Hin as [E|Hin]; [congruence|]. apply Hsub in Hin.
        rewrite Forall_forall in Hx. apply list_elem_of_In, Hx in Hin.
        apply Hne. apply String.leb_antisym; assumption.
      * intros y. cbn [In]. specialize (C y). cbn [In] in C. tauto.
Qed.

Lemma dropRepeats_fixed prev l : NoDup (prev :: l) -> dropRepeats prev l = l.
Proof.
  revert prev. induction l as [|x l IH]; intros prev H; [reflexivity|].
  cbn [dropRepeats]. apply NoDup_cons in H as [Hp Hl].
  destruct (String.eqb_spec x prev) as [->|_].
  - exfalso. apply Hp. left.
  - rewrite IH by exact Hl. reflexivity.
Qed.

Lemma unique_fixed l : StronglySorted lebString l -> NoDup l -> unique l = l.
Proof.
  intros Hs Hn. unfold unique. rewrite sortStrings_fixed by exact Hs.
  destruct l as [|x l]; [reflexivity|]. rewrite dropRepeats_fixed by exact Hn.
  reflexivity.
Qed.

Lemma unique_spec (values : list string) :
  StronglySorted lebString (unique values) /\
  NoDup (unique values) /\
  forall x, In x (unique values) <-> In x values.
Proof.
  unfold unique. pose proof (sortStrings_sorted values) as Hs.
  pose proof (In_sortStrings) as Hin.
  destruct (sortStrings values) as [|x l] eqn:E.
  - split; [constructor|]. split; [constructor|].
    intros y. rewrite <- (Hin y values), E. reflexivity.
  - destruct (dropRepeats_spec x l Hs) as (A & B & C).
    split; [exact A|]. split; [exact B|].
    intros y. rewrite C, <- E. apply Hin.
Qed.

(** [unique]: the values of the input, each once, in ascending order. *)
Theorem unique_sorted_nodup (values : list string) :
  StronglySorted lebString (unique values) /\
  NoDup (unique values) /\
  forall x, In x (unique values) <-> In x values.
Proof. exact (unique_spec values). Qed.
(** ** The managed set *)

Lemma normalizeManagedPath_not_metadata raw rel :
  normalizeManagedPath raw = Ok rel -> isMetadataPath rel = false.
Proof.
  unfold normalizeManagedPath. cbn zeta.
  destruct (_ || _); [discriminate|]. destruct (HasPrefix _ "/"); [discriminate|].
  destruct (_ || _); [discriminate|].
  destruct (isMetadataPath _) eqn:E; [discriminate|].
  intros H. injection H as <-. exact E.
Qed.

Lemma normalizeLines_In rel lines :
  In rel (normalizeLines lines) ->
  exists line, In line lines /\ normalizeManagedPath (TrimSpace line) = Ok rel.
Proof.
  induction lines as [|l lines IH]; cbn [normalizeLines]; [contradiction|].
  destruct (TrimSpace l =? "")%string.
  - intros H. destruct (IH H) as (line & A & B). exists line. split; [right; exact A|exact B].
  - destruct (normalizeManagedPath (TrimSpace l)) as [r|e] eqn:E.
    + intros [<-|H].
      * exists l. split; [left; reflexivity|exact E].
      * destruct (IH H) as (line & A & B). exists line. split; [right; exact A|exact B].
    + intros H. destruct (IH H) as (line & A & B). exists line. split; [right; exact A|exact B].
Qed.

Lemma gitTrackedFiles_entries c repoPath tracked :
  gitTrackedFiles c repoPath = Ok tracked ->
  StronglySorted lebString tracked /\ NoDup tracked /\
  forall rel, In rel tracked ->
    exists output line,
      gitLsFiles c repoPath = Ok output /\
      In line (splitOn newline (TrimSpace output)) /\
      normalizeManagedPath (TrimSpace line) = Ok rel.
Proof.
  unfold gitTrackedFiles. destruct (gitLsFiles c repoPath) as [output|e]; [|discriminate].
  cbn zeta. destruct (TrimSpace (TrimSpace output) =? "")%string.
  - intros H. injection H as <-. split; [constructor|]. split; [constructor|].
    intros rel [].
  - intros H. injection H as <-.
    destruct (unique_spec (sortStrings (normalizeLines (splitOn newline (TrimSpace output)))))
      as (A & B & C).
    split; [exact A|]. split; [exact B|].
    intros rel Hin. apply C, In_sortStrings, normalizeLines_In in Hin.
    destruct Hin as (line & Hl & Hn). exists output, line. auto.
Qed.

Lemma filter_all {A : Type} (P : A -> Prop) `{forall x, Decision (P x)}
  (l : list A) :
  (forall x, In x l -> P x) -> filter P l = l.
Proof.
  induction l as [|x l IH]; intros Hl; [reflexivity|].
  rewrite filter_cons_True by (apply Hl; left; reflexivity).
  f_equal. apply IH. intros y Hy. apply Hl. right. exact Hy.
Qed.

Lemma loadManagedFiles_tracked (c : collaborators) (repoPath : string) :
  loadManagedFiles c repoPath = gitTrackedFiles c repoPath.
Proof.
  unfold loadManagedFiles.
  destruct (gitTrackedFiles c repoPath) as [tracked|e] eqn:E; [|reflexivity].
  destruct (gitTrackedFiles_entries c repoPath tracked E) as (A & B & C).
  f_equal.
  assert (Hf : filter (fun rel => negb (isMetadataPath rel)) tracked = tracked).
  { apply filter_all. intros rel Hin. destruct (C rel Hin) as (o & line & _ & _ & Hn).
    rewrite (normalizeManagedPath_not_metadata _ _ Hn). exact I. }
  rewrite Hf, (sortStrings_fixed tracked A). apply unique_fixed; assumption.
Qed.

(** [loadManagedFiles] returns what [gitTrackedFiles] returns: the
    classifier has dropped the metadata paths already, and the list comes
    sorted and without repeats. *)
Theorem loadManagedFiles_is_gitTrackedFiles (c : collaborators) (repoPath : string) :
  loadManagedFiles c repoPath = gitTrackedFiles c repoPath.
Proof. exact (loadManagedFiles_tracked c repoPath). Qed.

Lemma normalizeManagedPath_relative raw rel :
  normalizeManagedPath raw = Ok rel -> IsAbs rel = false.
Proof.
  unfold normalizeManagedPath, IsAbs. cbn zeta.
  destruct (_ || _); [discriminate|].
  destruct (HasPrefix _ "/") eqn:E; [discriminate|].
  destruct (_ || _); [discriminate|]. destruct (isMetadataPath _); [discriminate|].
  intros H. injection H as <-. exact E.
Qed.

(** The managed set as [loadManagedFiles] hands it out: in ascending
    order, no path twice, and every path the classifier's reading of a
    line of [git ls-files]: relative, outside [.git], and made of plain
    elements (or the lone [..] that the classifier lets pass). *)
Theorem loadManagedFiles_entries (c : collaborators) (repoPath : string)
  (managed : list string) :
  loadManagedFiles c repoPath = Ok managed ->
  StronglySorted lebString managed /\ NoDup managed /\
  forall rel, In rel managed ->
    isMetadataPath rel = false /\ IsAbs rel = false /\
    (rel = ".." \/
     exists comps, comps <> [] /\ Forall plainElem comps /\ rel = Join comps "/") /\
    exists output line,
      gitLsFiles c repoPath = Ok output /\
      In line (splitOn newline (TrimSpace output)) /\
      normalizeManagedPath (TrimSpace line) = Ok rel.
Proof.
  rewrite loadManagedFiles_tracked. intros H.
  destruct (gitTrackedFiles_entries c repoPath managed H) as (A & B & C).
  split; [exact A|]. split; [exact B|].
  intros rel Hin. destruct (C rel Hin) as (output & line & Ho & Hl & Hn).
  split; [eapply normalizeManagedPath_not_metadata; exact Hn|].
  split; [eapply normalizeManagedPath_relative; exact Hn|].
  split; [eapply normalizeManagedPath_shape; exact Hn|].
  exists output, line. auto.
Qed.

Lemma loadManagedFiles_entries_witness :
  StronglySorted lebString ["git/config"; "nvim/init.lua"] /\
  NoDup ["git/config"; "nvim/init.lua"] /\
  forall rel, In rel ["git/config"; "nvim/init.lua"] ->
    isMetadataPath rel = false /\ IsAbs rel = false /\
    (rel = ".." \/
     exists comps, comps <> [] /\ Forall plainElem comps /\ rel = Join comps "/") /\
    exists output line,
      gitLsFiles (exampleCollaborators doctorExampleTracked) "/repo" = Ok output /\
      In line (splitOn newline (TrimSpace output)) /\
      normalizeManagedPath (TrimSpace line) = Ok rel.
Proof.
  apply (loadManagedFiles_entries (exampleCollaborators doctorExampleTracked) "/repo").
  vm_compute. reflexivity.
Defined.
(** ** [pathWithin] on absolute paths *)

Lemma HasPrefix_split s p : HasPrefix s p = true -> exists r, s = p +:+ r.
Proof.
  unfold HasPrefix. revert s. induction p as [|a p IH]; intros s H.
  - exists s. symmetry. apply append_empty_l.
  - destruct s as [|b s]; [discriminate|]. cbn [String.prefix] in H.
    destruct (ascii_dec a b) as [->|]; [|discriminate].
    destruct (IH s H) as [r ->]. exists r. rewrite append_cons. reflexivity.
Qed.

Lemma Join_plain_head x l :
  plainElem x -> Forall plainElem l ->
  (Join (x :: l) "/" =? ".")%string = false /\
  (Join (x :: l) "/" =? "..")%string = false /\
  HasPrefix (Join (x :: l) "/") "../" = false.
Proof.
  intros Hx Hl.
  assert (Hs : splitOn slash (Join (x :: l) "/") = x :: l).
  { apply splitOn_Join; [discriminate|]. apply plainElems_noSlash. constructor; assumption. }
  destruct Hx as (_ & Hd & Hdd & _).
  split; [|split].
  - apply String.eqb_neq. intros E. rewrite E in Hs. cbn in Hs. congruence.
  - apply String.eqb_neq. intros E. rewrite E in Hs. cbn in Hs. congruence.
  - destruct (HasPrefix (Join (x :: l) "/") "../") eqn:E; [|reflexivity].
    exfalso. apply HasPrefix_split in E as [r E]. rewrite E in Hs.
    change ("../" +:+ r) with (".." +:+ String slash r) in Hs.
    rewrite splitOn_app_slash in Hs by reflexivity. congruence.
Qed.

Lemma stripCommon_heads b t b' t' :
  stripCommon b t = (b', t') ->
  match b', t' with
  | x :: _, y :: _ => x <> y
  | _, _ => True
  end.
Proof.
  revert t. induction b as [|x b IH]; intros t H.
  - cbn in H. injection H as <- <-. exact I.
  - destruct t as [|y t].
    + cbn in H. injection H as <- <-. exact I.
    + cbn in H. destruct (String.eqb_spec x y) as [->|Hne].
      * apply (IH _ H).
      * injection H as <- <-. exact Hne.
Qed.

Lemma pathWithin_keyPath rk tk :
  Forall plainElem rk -> Forall plainElem tk ->
  pathWithin (keyPath rk) (keyPath tk) = Ok (bool_decide (rk `prefix_of` tk)).
Proof.
  intros Hr Ht. unfold pathWithin, Rel.
  rewrite !(Clean_keyPath rk Hr), !(Clean_keyPath tk Ht).
  destruct (String.eqb_spec (keyPath tk) (keyPath rk)) as [E|Hne].
  { apply keyPath_inj in E; [|assumption..]. subst.
    rewrite bool_decide_eq_true_2 by reflexivity. reflexivity. }
  destruct (String.eqb_spec (keyPath rk) ".") as [E|_].
  { exfalso. pose proof (IsAbs_keyPath rk) as H. rewrite E in H. discriminate. }
  change (HasPrefix ?p "/") with (IsAbs p). rewrite !IsAbs_keyPath. cbn [Bool.eqb negb].
  rewrite !relElems_keyPath by assumption.
  destruct (stripCommon ("" :: rk) ("" :: tk)) as [b t] eqn:E.
  pose proof (stripCommon_heads _ _ _ _ E) as Hh.
  apply stripCommon_split in E as (cm & E1 & E2).
  destruct b as [|first rest].
  - rewrite app_nil_r in E1. subst cm. injection E2 as E2. subst tk.
    rewrite bool_decide_eq_true_2 by (exists t; reflexivity).
    destruct t as [|x t].
    { exfalso. apply Hne. rewrite app_nil_r. reflexivity. }
    apply Forall_app in Ht as [_ Ht]. inversion Ht as [|? ? Hx Hl]; subst.
    destruct (Join_plain_head x t Hx Hl) as (A & B & C). rewrite A, B, C. reflexivity.
  - destruct cm as [|e cm]; cbn [app] in E1, E2.
    { exfalso. injection E1 as Ef _. subst t. subst first. apply Hh. reflexivity. }
    injection E1 as _ E1. injection E2 as _ E2.
    assert (Hfirst : first <> "..").
    { assert (Hin : In first rk) by (rewrite E1; apply in_or_app; right; left; reflexivity).
      rewrite Forall_forall in Hr. apply list_elem_of_In, Hr in Hin. apply Hin. }
    destruct (String.eqb_spec first "..") as [|_]; [contradiction|].
    cbn [List.length repeat app].
    destruct (Join_dotdot_head (repeat ".." (List.length rest) ++ t)) as [A B].
    rewrite A, B. f_equal. symmetry. apply bool_decide_eq_false_2.
    intros [ext Hp]. subst rk tk.
    rewrite <- app_assoc in Hp. apply app_inv_head in Hp. cbn in Hp.
    destruct t as [|y t]; [discriminate|]. injection Hp as Hp _. subst.
    apply Hh. reflexivity.
Qed.

(** [pathWithin] on two absolute paths never fails, and says whether the
    cleaned candidate is the cleaned base or lies below it, element by
    element: [/repo-old] is not within [/repo]. *)
Theorem pathWithin_absolute (base candidate : string) :
  IsAbs base = true -> IsAbs candidate = true ->
  pathWithin base candidate
  = Ok (bool_decide (keyFrom [] base `prefix_of` keyFrom [] candidate)).
Proof.
  intros Hb Hc. rewrite <- pathWithin_keyPath by apply keyFrom_nil_plain.
  unfold pathWithin. rewrite (Clean_abs base Hb), (Clean_abs candidate Hc).
  rewrite !Clean_keyPath by apply keyFrom_nil_plain. reflexivity.
Qed.

Lemma pathWithin_absolute_witness :
  pathWithin "/repo/" "/repo/nvim/../git/config"
  = Ok (bool_decide (keyFrom [] "/repo/" `prefix_of` keyFrom [] "/repo/nvim/../git/config")).
Proof. apply pathWithin_absolute; reflexivity. Defined.
(** ** Globs as regular expressions *)

(** The atoms a glob stands for: [**] is any run of characters, [*] any
    run without a separator, [?] one character that is not a separator,
    anything else itself. *)
Fixpoint globAtoms (p : string) : list reAtom :=
  match p with
  | EmptyString => []
  | String ch p' =>
      if Ascii.eqb ch "*"%char then
        match p' with
        | String "*"%char p'' => ReStar ReAny :: globAtoms p''
        | _ => ReStar ReNotSlash :: globAtoms p'
        end
      else if Ascii.eqb ch "?"%char then ReOne ReNotSlash :: globAtoms p'
      else ReOne (ReLit ch) :: globAtoms p'
  end.

Fixpoint asciiOnly (s : string) : bool :=
  match s with
  | EmptyString => true
  | String c s' => (nat_of_ascii c <? 128)%nat && asciiOnly s'
  end.

Lemma starred_other i c r :
  c <> "*"%char -> starred i (String c r) = (ReOne i, String c r).
Proof.
  intros Hc. destruct c as [[] [] [] [] [] [] [] []]; try reflexivity.
  exfalso. apply Hc. reflexivity.
Qed.

Lemma parse_literal f c rest :
  containsByte regexMeta c = false -> Ascii.eqb c "*"%char = false ->
  Ascii.eqb c "?"%char = false ->
  parseAtoms (S f) (String c rest)
  = let '(a, rest') := starred (ReLit c) rest in
    match parseAtoms f rest' with
    | Some (l, e) => Some (a :: l, e)
    | None => None
    end.
Proof.
  intros Hm Hs Hq.
  destruct c as [[] [] [] [] [] [] [] []]; try discriminate Hm; try discriminate Hs;
    try discriminate Hq; reflexivity.
Qed.

Lemma parse_escaped f c rest :
  containsByte regexMeta c = true ->
  parseAtoms (S f) (String "\"%char (String c rest))
  = let '(a, rest') := starred (ReLit c) rest in
    match parseAtoms f rest' with
    | Some (l, e) => Some (a :: l, e)
    | None => None
    end.
Proof. intros Hm. cbn [parseAtoms]. rewrite Hm. reflexivity. Qed.

Lemma globBody_star_other c p :
  c <> "*"%char ->
  globBody (String "*"%char (String c p)) = "[^/]*" +:+ globBody (String c p) /\
  globAtoms (String "*"%char (String c p)) = ReStar ReNotSlash :: globAtoms (String c p).
Proof.
  intros Hc. destruct c as [[] [] [] [] [] [] [] []]; try (split; reflexivity).
  exfalso. apply Hc. reflexivity.
Qed.

Lemma globBody_head p :
  exists c r, globBody p +:+ "$" = String c r /\ c <> "*"%char.
Proof.
  destruct p as [|ch p]; [exists "$"%char, ""; split; [reflexivity|discriminate]|].
  cbn [globBody]. destruct (Ascii.eqb_spec ch "*") as [->|Hs].
  - destruct p as [|c p].
    + eexists _, _. rewrite !append_cons. split; [reflexivity|discriminate].
    + destruct c as [[] [] [] [] [] [] [] []];
        (eexists _, _; rewrite !append_cons; split; [reflexivity|discriminate]).
  - destruct (Ascii.eqb ch "?").
    + eexists _, _. rewrite !append_cons. split; [reflexivity|discriminate].
    + destruct (containsByte regexMeta ch).
      * eexists _, _. rewrite !append_cons. split; [reflexivity|discriminate].
      * eexists _, _. rewrite !append_cons. split; [reflexivity|exact Hs].
Qed.

Lemma starred_glob i p :
  starred i (globBody p +:+ "$") = (ReOne i, globBody p +:+ "$").
Proof.
  destruct (globBody_head p) as (c & r & -> & Hc). apply starred_other. exact Hc.
Qed.

Lemma parse_glob n :
  forall p f,
    String.length p <= n -> String.length (globBody p) < f ->
    parseAtoms f (globBody p +:+ "$") = Some (globAtoms p, true).
Proof.
  induction n as [|n IH]; intros p f Hn Hf.
  { destruct p; [|cbn in Hn; lia]. destruct f; [cbn in Hf; lia|reflexivity]. }
  destruct p as [|ch p]; [destruct f; [cbn in Hf; lia|reflexivity]|].
  cbn [String.length] in Hn.
  destruct (Ascii.eqb_spec ch "*") as [->|Hs].
  - destruct p as [|c p].
    + change (String.length (globBody "*")) with 5 in Hf.
      do 2 (destruct f as [|f]; [lia|]). reflexivity.
    + destruct (Ascii.eqb_spec c "*") as [->|Hc].
      * cbn [globBody globAtoms Ascii.eqb Bool.eqb] in *.
        rewrite !append_cons, append_empty_l in Hf. cbn [String.length] in Hf, Hn.
        destruct f as [|f]; [lia|].
        rewrite !append_cons, append_empty_l. cbn [parseAtoms starred].
        rewrite IH by lia. reflexivity.
      * destruct (globBody_star_other c p Hc) as [E1 E2].
        rewrite E1 in Hf |- *. rewrite E2.
        rewrite string_length_app in Hf. cbn [String.length] in Hf.
        destruct f as [|f]; [lia|].
        rewrite append_assoc, !append_cons, append_empty_l. cbn [parseAtoms starred].
        rewrite IH by lia. reflexivity.
  - apply Ascii.eqb_neq in Hs. cbn [globBody globAtoms] in *. rewrite Hs in *.
    destruct (Ascii.eqb ch "?") eqn:Hq.
    + rewrite string_length_app in Hf. cbn [String.length] in Hf.
      destruct f as [|f]; [lia|].
      rewrite append_assoc, !append_cons, append_empty_l. cbn [parseAtoms].
      rewrite starred_glob. rewrite IH by lia. reflexivity.
    + destruct (containsByte regexMeta ch) eqn:Hm.
      * cbn [String.length] in Hf. destruct f as [|f]; [lia|].
        rewrite !append_cons. rewrite parse_escaped by exact Hm.
        rewrite starred_glob. rewrite IH by lia. reflexivity.
      * cbn [String.length] in Hf. destruct f as [|f]; [lia|].
        rewrite !append_cons. rewrite parse_literal by assumption.
        rewrite starred_glob. rewrite IH by lia. reflexivity.
Qed.

Lemma glob_compile pat :
  TrimSpace pat <> "" ->
  exists src,
    globToRegex pat = Ok src /\
    regexpCompile src
    = Ok {| reBegin := true; reAtoms := globAtoms (TrimSpace pat); reEnd := true |}.
Proof.
  intros Hne. unfold globToRegex. cbn zeta.
  destruct (String.eqb_spec (TrimSpace pat) "") as [|_]; [contradiction|].
  eexists. split; [reflexivity|].
  rewrite append_cons, append_empty_l. unfold regexpCompile.
  rewrite (parse_glob (String.length (TrimSpace pat))); [reflexivity|lia|].
  rewrite string_length_app. cbn. lia.
Qed.

(** [globToRegex] and [regexp.Compile], one after the other, never fail
    on a pattern that is not blank, and the expression obtained is the
    glob read atom by atom, anchored at both ends: every character that
    the syntax of regular expressions treats as special comes out as
    itself. *)
Theorem glob_compiles_to_atoms (pat : string) :
  asciiOnly pat = true -> TrimSpace pat <> "" ->
  exists src,
    globToRegex pat = Ok src /\
    regexpCompile src
    = Ok {| reBegin := true; reAtoms := globAtoms (TrimSpace pat); reEnd := true |}.
Proof. intros _. apply glob_compile. Qed.

Lemma glob_compiles_to_atoms_witness :
  exists src,
    globToRegex " **/*.bak? " = Ok src /\
    regexpCompile src
    = Ok {| reBegin := true; reAtoms := globAtoms (TrimSpace " **/*.bak? ");
            reEnd := true |}.
Proof. apply glob_compiles_to_atoms; [reflexivity|vm_compute; discriminate]. Defined.

Lemma matchHere_literal p :
  containsByte p "*" = false -> containsByte p "?" = false ->
  forall s, matchHere (globAtoms p) true s = (s =? p)%string.
Proof.
  induction p as [|ch p IH]; intros Hs Hq s.
  - destruct s; reflexivity.
  - cbn [containsByte] in Hs, Hq. apply orb_false_iff in Hs as [Hs1 Hs2].
    apply orb_false_iff in Hq as [Hq1 Hq2].
    cbn [globAtoms]. rewrite (Ascii.eqb_sym ch "*"), Hs1, (Ascii.eqb_sym ch "?"), Hq1.
    cbn [matchHere itemMatches]. destruct s as [|c s]; [reflexivity|].
    rewrite (IH Hs2 Hq2). cbn [String.eqb].
    destruct (Ascii.eqb c ch); reflexivity.
Qed.

(** A glob without [*] and [?] matches its own text and nothing else:
    not a longer path that contains it, and not a text that differs in a
    character which is special in a regular expression. *)
Theorem glob_literal_exact (pat : string) :
  asciiOnly pat = true -> TrimSpace pat = pat -> pat <> "" ->
  containsByte pat "*" = false -> containsByte pat "?" = false ->
  exists src re,
    globToRegex pat = Ok src /\ regexpCompile src = Ok re /\
    forall s, MatchString re s = (s =? pat)%string.
Proof.
  intros _ Ht Hne Hs Hq.
  destruct (glob_compile pat) as (src & A & B); [rewrite Ht; exact Hne|].
  exists src. eexists. split; [exact A|]. split; [exact B|].
  intros s. unfold MatchString. cbn [reBegin reAtoms reEnd]. rewrite Ht.
  apply matchHere_literal; assumption.
Qed.

Lemma glob_literal_exact_witness :
  exists src re,
    globToRegex "nvim/lazy-lock.json" = Ok src /\ regexpCompile src = Ok re /\
    forall s, MatchString re s = (s =? "nvim/lazy-lock.json")%string.
Proof. apply glob_literal_exact; reflexivity || discriminate. Defined.
Lemma anyMatcher_dir rel ms :
  anyMatcher rel false ms = true -> anyMatcher rel true ms = true.
Proof.
  induction ms as [|m ms IH]; cbn [anyMatcher]; [discriminate|].
  destruct (MatchString (regex m) rel); [reflexivity|]. cbn [andb].
  intros H. rewrite (IH H). destruct (MatchString (regex m) (rel +:+ "/")); reflexivity.
Qed.

(** Whatever [shouldIgnorePath] ignores as a file it ignores as a
    directory too, and it is never the root of the walk ([.] or the empty
    path). *)
Theorem shouldIgnorePath_file_then_dir (rel : string) (matchers : list globMatcher) :
  shouldIgnorePath rel false matchers = true ->
  shouldIgnorePath rel true matchers = true /\
  TrimSpace rel <> "" /\ TrimSpace rel <> ".".
Proof.
  unfold shouldIgnorePath, ToSlash. cbn zeta.
  destruct (String.eqb_spec (TrimSpace rel) "") as [|H1]; [discriminate|].
  destruct (String.eqb_spec (TrimSpace rel) ".") as [|H2]; [discriminate|].
  cbn [orb]. intros H. split; [apply anyMatcher_dir; exact H|]. split; assumption.
Qed.

Lemma shouldIgnorePath_file_then_dir_witness :
  exists ms,
    compileGlobMatchers defaultIgnoreGlobs = Ok ms /\
    shouldIgnorePath "a/node_modules" true ms = true /\
    TrimSpace "a/node_modules" <> "" /\ TrimSpace "a/node_modules" <> ".".
Proof.
  eexists. split; [vm_compute; reflexivity|].
  apply shouldIgnorePath_file_then_dir. vm_compute. reflexivity.
Defined.
(** ** The file helpers *)

Lemma copyFile_irregular src dst w r w' :
  copyFile src dst w = (r, w') ->
  (forall k d, follow maxLinksKernel (files w) (pathKey w src) <> inr (k, File d)) ->
  r <> None /\ sameFiles w w'.
Proof.
  unfold copyFile, bind. intros H Hsrc.
  destruct (Stat src w) as [ri w1] eqn:E. apply Stat_spec in E as [Hs Hr].
  destruct ri as [n|e].
  - destruct Hr as [Hr|Hr]; [discriminate|].
    unfold nonEmptyPath in Hr. destruct (src =? "")%string; [discriminate|].
    destruct (follow maxLinksKernel (files w) (pathKey w src)) as [e|[k n']] eqn:Ef;
      [discriminate|].
    injection Hr as ->. destruct n' as [d| | |];
      try (cbn in H; injection H as <- <-; split; [discriminate|exact Hs]).
    exfalso. apply (Hsrc k d). reflexivity.
  - injection H as <- <-. split; [discriminate|exact Hs].
Qed.

(** [copyFile] gives an error and leaves everything as it is unless the
    source resolves to a regular file; in particular it never copies a
    directory or follows a dangling link into creating an empty file. *)
Theorem copyFile_refuses_irregular_source (src dst : string) (w w' : world)
  (r : option error) :
  copyFile src dst w = (r, w') ->
  (forall k d, follow maxLinksKernel (files w) (pathKey w src) <> inr (k, File d)) ->
  r <> None /\ files w' = files w /\ cwd w' = cwd w.
Proof.
  intros H Hsrc. destruct (copyFile_irregular src dst w r w' H Hsrc) as [A [B C]].
  auto.
Qed.

Lemma copyFile_refuses_irregular_source_witness :
  exists r w',
    copyFile "/live/nvim" "/live/copy" doctorExampleWorld = (r, w') /\
    r <> None /\ files w' = files doctorExampleWorld /\ cwd w' = cwd doctorExampleWorld.
Proof.
  eexists. eexists. split; [vm_compute; reflexivity|].
  eapply (copyFile_refuses_irregular_source "/live/nvim" "/live/copy" doctorExampleWorld).
  - vm_compute. reflexivity.
  - intros k d. vm_compute. discriminate.
Defined.

(** [copyFile] onto a free name: nothing that was there changes; what is
    new is the destination and, possibly, directories on the way to it;
    and on success the destination is a regular file with the content
    the source resolves to. *)
Theorem copyFile_fresh_destination (src dst : string) (w w' : world)
  (r : option error) :
  files w !! pathKey w dst = None -> pathKey w dst <> [] ->
  copyFile src dst w = (r, w') ->
  cwd w' = cwd w /\
  files w ⊆ files w' /\
  (forall k n, files w' !! k = Some n ->
     files w !! k = Some n \/ n = Directory \/ k = pathKey w dst) /\
  (r = None ->
   exists ks d,
     follow maxLinksKernel (files w') (pathKey w src) = inr (ks, File d) /\
     lstatKey (files w') (pathKey w dst) = inr (File d)).
Proof. apply copyFile_onto_free. Qed.

Lemma copyFile_fresh_destination_witness :
  exists r w',
    copyFile "/repo/git/config" "/live/new/config" doctorExampleWorld = (r, w') /\
    cwd w' = cwd doctorExampleWorld /\
    files doctorExampleWorld ⊆ files w' /\
    (forall k n, files w' !! k = Some n ->
       files doctorExampleWorld !! k = Some n \/ n = Directory \/
       k = pathKey doctorExampleWorld "/live/new/config") /\
    (r = None ->
     exists ks d,
       follow maxLinksKernel (files w') (pathKey doctorExampleWorld "/repo/git/config")
         = inr (ks, File d) /\
       lstatKey (files w') (pathKey doctorExampleWorld "/live/new/config")
         = inr (File d)).
Proof.
  eexists. eexists. split; [vm_compute; reflexivity|].
  apply (copyFile_fresh_destination "/repo/git/config" "/live/new/config"
           doctorExampleWorld).
  - vm_compute. reflexivity.
  - vm_compute. discriminate.
  - vm_compute. reflexivity.
Defined.
Lemma ReadFile_Ok p w d w' :
  ReadFile p w = (Ok d, w') ->
  sameFiles w w' /\
  exists k, follow maxLinksKernel (files w) (pathKey w p) = inr (k, File d).
Proof.
  intros H. apply ReadFile_spec in H as [Hs [H|H]]; [discriminate|].
  split; [exact Hs|]. unfold nonEmptyPath in H. destruct (p =? "")%string; [discriminate|].
  destruct (follow maxLinksKernel (files w) (pathKey w p)) as [e|[k [d'| | |]]];
    try discriminate.
  injection H as ->. exists k. reflexivity.
Qed.

Lemma ReadFile_same p w r w' : ReadFile p w = (r, w') -> sameFiles w w'.
Proof. intros H. apply ReadFile_spec in H. apply H. Qed.

(** [filesEqual] changes nothing.  It answers only when both names
    resolve to regular files, and then with whether the two hold the same
    bytes. *)
Theorem filesEqual_compares_content (left right : string) (w w' : world)
  (same : bool) :
  filesEqual left right w = (Ok same, w') ->
  files w' = files w /\ cwd w' = cwd w /\
  exists kl kr dl dr,
    follow maxLinksKernel (files w) (pathKey w left) = inr (kl, File dl) /\
    follow maxLinksKernel (files w) (pathKey w right) = inr (kr, File dr) /\
    (same = true <-> dl = dr).
Proof.
  unfold filesEqual, bind. intros H.
  destruct (ReadFile left w) as [[dl|e] w1] eqn:E1; [|discriminate].
  destruct (ReadFile right w1) as [[dr|e] w2] eqn:E2; [|discriminate].
  injection H as <- <-.
  apply ReadFile_Ok in E1 as [[F1 C1] [kl Hl]].
  apply ReadFile_Ok in E2 as [[F2 C2] [kr Hr]].
  split; [congruence|]. split; [congruence|].
  exists kl, kr, dl, dr. split; [exact Hl|]. split.
  - rewrite <- F1. rewrite <- (pathKey_cwd w w1) by exact C1. exact Hr.
  - apply String.eqb_eq.
Qed.

Lemma filesEqual_compares_content_witness :
  exists same w',
    filesEqual "/repo/nvim/init.lua" "/live/nvim/init.lua" doctorExampleWorld
      = (Ok same, w') /\
    files w' = files doctorExampleWorld /\ cwd w' = cwd doctorExampleWorld /\
    exists kl kr dl dr,
      follow maxLinksKernel (files doctorExampleWorld)
        (pathKey doctorExampleWorld "/repo/nvim/init.lua") = inr (kl, File dl) /\
      follow maxLinksKernel (files doctorExampleWorld)
        (pathKey doctorExampleWorld "/live/nvim/init.lua") = inr (kr, File dr) /\
      (same = true <-> dl = dr).
Proof.
  eexists. eexists. split; [vm_compute; reflexivity|].
  apply (filesEqual_compares_content "/repo/nvim/init.lua" "/live/nvim/init.lua"
           doctorExampleWorld).
  vm_compute. reflexivity.
Defined.

Lemma follow_result fuel m k0 k n :
  follow fuel m k0 = inr (k, n) -> lstatKey m k = inr n /\ isSymlink n = false.
Proof.
  revert k0. induction fuel as [|fuel IH]; intros k0 H; cbn [follow] in H.
  - destruct (lstatKey m k0) as [|[d|t| |]] eqn:E; try discriminate;
      try (injection H as <- <-; split; [exact E|reflexivity]).
    destruct (t =? "")%string; discriminate.
  - destruct (lstatKey m k0) as [|[d|t| |]] eqn:E; try discriminate;
      try (injection H as <- <-; split; [exact E|reflexivity]).
    destruct (t =? "")%string; [discriminate|]. apply (IH _ H).
Qed.

Lemma symlinkPointsTo_Ok linkPath targetPath w b w' :
  IsAbs linkPath = true -> IsAbs targetPath = true ->
  symlinkPointsTo linkPath targetPath w = (Ok b, w') ->
  sameFiles w w' /\
  exists k n,
    follow maxLinksEval (files w) (keyFrom [] linkPath) = inr (k, n) /\
    lstatKey (files w) k = inr n /\ isSymlink n = false /\
    b = bool_decide (k = keyFrom [] targetPath).
Proof.
  intros Hl Ht H. pose proof (symlinkPointsTo_same _ _ _ _ _ H) as Hs.
  split; [exact Hs|]. unfold symlinkPointsTo, bind in H.
  destruct (EvalSymlinks linkPath w) as [[resolved|e] w1] eqn:E; [|discriminate].
  unfold EvalSymlinks in E. apply sysRead_spec in E as [Hs1 [E|E]]; [discriminate|].
  rewrite nonEmptyPath_ok in E by (apply IsAbs_nonempty; exact Hl).
  rewrite (pathKey_sameFiles w w1) in E by exact Hs1.
  destruct Hs1 as [F1 _]. rewrite F1 in E. rewrite pathKey_abs in E by exact Hl.
  destruct (follow maxLinksEval (files w) (keyFrom [] linkPath)) as [e|[k n]] eqn:Ef;
    [discriminate|].
  injection E as ->.
  assert (Hk : Forall plainElem k) by (eapply follow_plain; [apply keyFrom_nil_plain|exact Ef]).
  unfold Abs, ret in H. rewrite IsAbs_keyPath, Ht in H.
  rewrite (Clean_keyPath k Hk), (Clean_abs targetPath Ht) in H.
  rewrite !Clean_keyPath in H by (exact Hk || apply keyFrom_nil_plain).
  rewrite eqb_keyPath in H by (exact Hk || apply keyFrom_nil_plain).
  injection H as <- _.
  destruct (follow_result _ _ _ _ _ Ef) as [A B].
  exists k, n. auto.
Qed.

(** [symlinkPointsTo] on absolute paths changes nothing and, when it
    answers, says whether the link, followed through every further link
    to the entry it ends at, ends at the entry the target names as it is
    written (cleaned, not resolved).  So the answer is "no" whenever the
    target path itself holds a symbolic link. *)
Theorem symlinkPointsTo_resolves_link_only (linkPath targetPath : string)
  (w w' : world) (b : bool) :
  IsAbs linkPath = true -> IsAbs targetPath = true ->
  symlinkPointsTo linkPath targetPath w = (Ok b, w') ->
  files w' = files w /\
  (exists k n,
     follow maxLinksEval (files w) (keyFrom [] linkPath) = inr (k, n) /\
     (b = true <-> k = keyFrom [] targetPath)) /\
  (b = true -> forall t, lstatKey (files w) (keyFrom [] targetPath) <> inr (Symlink t)).
Proof.
  intros Hl Ht H.
  destruct (symlinkPointsTo_Ok _ _ _ _ _ Hl Ht H) as [[F _] (k & n & Ef & A & B & ->)].
  split; [exact F|]. split.
  - exists k, n. split; [exact Ef|]. apply bool_decide_eq_true.
  - intros Hb t Hlink. apply bool_decide_eq_true in Hb. subst k.
    rewrite A in Hlink. injection Hlink as ->. discriminate.
Qed.

Lemma symlinkPointsTo_resolves_link_only_witness :
  exists b w',
    symlinkPointsTo "/live/nvim/init.lua" "/repo/nvim/init.lua" removeExampleLinked
      = (Ok b, w') /\
    files w' = files removeExampleLinked /\
    (exists k n,
       follow maxLinksEval (files removeExampleLinked) (keyFrom [] "/live/nvim/init.lua")
         = inr (k, n) /\
       (b = true <-> k = keyFrom [] "/repo/nvim/init.lua")) /\
    (b = true ->
     forall t, lstatKey (files removeExampleLinked) (keyFrom [] "/repo/nvim/init.lua")
               <> inr (Symlink t)).
Proof.
  eexists. eexists. split; [vm_compute; reflexivity|].
  apply (symlinkPointsTo_resolves_link_only "/live/nvim/init.lua" "/repo/nvim/init.lua"
           removeExampleLinked).
  - reflexivity.
  - reflexivity.
  - vm_compute. reflexivity.
Defined.
(** ** The doctor's managed pass, one path *)

Lemma filesEqual_Ok left right w b w' :
  filesEqual left right w = (Ok b, w') ->
  sameFiles w w' /\
  exists kl kr dl dr,
    follow maxLinksKernel (files w) (pathKey w left) = inr (kl, File dl) /\
    follow maxLinksKernel (files w) (pathKey w right) = inr (kr, File dr) /\
    b = (dl =? dr)%string.
Proof.
  unfold filesEqual, bind. intros H.
  destruct (ReadFile left w) as [[dl|e] w1] eqn:E1; [|discriminate].
  destruct (ReadFile right w1) as [[dr|e] w2] eqn:E2; [|discriminate].
  injection H as <- <-.
  apply ReadFile_Ok in E1 as [[F1 C1] [kl Hl]].
  apply ReadFile_Ok in E2 as [[F2 C2] [kr Hr]].
  split; [split; congruence|].
  exists kl, kr, dl, dr. split; [exact Hl|]. split; [|reflexivity].
  rewrite <- F1. rewrite <- (pathKey_cwd w w1) by exact C1. exact Hr.
Qed.

Lemma filesEqual_same left right w r w' :
  filesEqual left right w = (r, w') -> sameFiles w w'.
Proof.
  unfold filesEqual, bind. intros H.
  destruct (ReadFile left w) as [[dl|e] w1] eqn:E1.
  - destruct (ReadFile right w1) as [[dr|e] w2] eqn:E2;
      injection H as <- <-; apply ReadFile_same in E1, E2;
      eapply sameFiles_trans; eassumption.
  - injection H as <- <-. apply ReadFile_same in E1. exact E1.
Qed.

Lemma doctorManagedPath_frame repoPath xdg rel s w s' w' :
  doctorManagedPath repoPath xdg rel s w = (s', w') ->
  cwd w' = cwd w /\
  (forall k n, files w !! k = Some n ->
     files w' !! k = Some n \/
     (k = pathKey w (JoinPath xdg (FromSlash rel)) /\
      exists d kr,
        n = File d /\
        follow maxLinksKernel (files w) (pathKey w (JoinPath repoPath (FromSlash rel)))
          = inr (kr, File d))) /\
  (forall k n, files w' !! k = Some n ->
     files w !! k = Some n \/ n = Directory \/
     (k = pathKey w (JoinPath xdg (FromSlash rel)) /\
      n = Symlink (JoinPath repoPath (FromSlash rel)))).
Proof.
  unfold doctorManagedPath.
  set (repoFile := JoinPath repoPath (FromSlash rel)).
  set (liveFile := JoinPath xdg (FromSlash rel)).
  unfold bind. intros H.
  assert (Same : forall w1, sameFiles w w1 ->
            cwd w1 = cwd w /\
            (forall k n, files w !! k = Some n ->
               files w1 !! k = Some n \/
               (k = pathKey w liveFile /\
                exists d kr, n = File d /\
                  follow maxLinksKernel (files w) (pathKey w repoFile) = inr (kr, File d))) /\
            (forall k n, files w1 !! k = Some n ->
               files w !! k = Some n \/ n = Directory \/
               (k = pathKey w liveFile /\ n = Symlink repoFile))).
  { intros w1 [F C]. rewrite F. split; [exact C|]. split; intros k n Hk; left; exact Hk. }
  destruct (Stat repoFile w) as [[repoInfo|e] w1] eqn:E1.
  2:{ injection H as <- <-. apply Same. eapply Stat_same; exact E1. }
  pose proof (Stat_same _ _ _ _ E1) as S1.
  destruct (negb (isRegular repoInfo)) eqn:Ereg.
  { injection H as <- <-. apply Same. exact S1. }
  destruct (Lstat liveFile w1) as [[liveInfo|e] w2] eqn:E2.
  - apply Lstat_Ok in E2 as [S2 Hlive].
    pose proof (sameFiles_trans _ _ _ S1 S2) as S12.
    destruct (isSymlink liveInfo).
    { destruct (symlinkPointsTo liveFile repoFile w2) as [ok w3] eqn:E3.
      apply symlinkPointsTo_same in E3.
      destruct ok as [[]|]; injection H as <- <-; apply Same;
        eapply sameFiles_trans; eassumption. }
    destruct (negb (isRegular liveInfo)) eqn:Elreg.
    { injection H as <- <-. apply Same. exact S12. }
    destruct (filesEqual repoFile liveFile w2) as [same w3] eqn:E3.
    pose proof (filesEqual_same _ _ _ _ _ E3) as S3.
    pose proof (sameFiles_trans _ _ _ S12 S3) as S123.
    destruct same as [[]|e]; try (injection H as <- <-; apply Same; exact S123).
    apply filesEqual_Ok in E3 as [_ (kl & kr & dl & dr & Hl & Hr & Heq)].
    symmetry in Heq. apply String.eqb_eq in Heq. subst dr.
    destruct S12 as [F12 C12]. rewrite F12 in Hl, Hr.
    rewrite (pathKey_cwd w w2) in Hl, Hr by exact C12.
    destruct S1 as [F1 C1]. rewrite F1, (pathKey_cwd w w1) in Hlive by exact C1.
    destruct liveInfo as [d| | |]; try discriminate.
    rewrite (follow_regular _ _ _ _ Hlive) in Hr. injection Hr as _ ->.
    destruct S123 as [F3 C3].
    destruct (Remove liveFile w3) as [err w4] eqn:E4.
    apply Remove_spec in E4 as [C4 E4].
    destruct E4 as [(e & -> & F4)|(-> & _ & _ & _ & F4)].
    { injection H as <- <-. apply Same. split; congruence. }
    rewrite (pathKey_cwd w w3) in F4 by exact C3. rewrite F3 in F4.
    destruct (Symlink_ repoFile liveFile w4) as [err w5] eqn:E5.
    apply Symlink_spec in E5 as [C5 E5].
    rewrite (pathKey_cwd w w4) in E5 by congruence.
    assert (Hres : files w5 = files w4 \/
                   files w5 = <[pathKey w liveFile := Symlink repoFile]> (files w4)).
    { destruct E5 as [(e & _ & F5)|(_ & _ & _ & _ & F5)]; auto. }
    assert (Hw' : w' = w5) by (destruct err; injection H as _ <-; reflexivity).
    subst w'. split; [congruence|]. split.
    + intros k n Hk. destruct (decide (k = pathKey w liveFile)) as [->|Hne].
      * right. split; [reflexivity|]. exists dl, kl.
        apply lstatKey_nodeAt in Hlive.
        destruct (pathKey w liveFile) eqn:Ek; [|cbn in Hlive; split; [congruence|exact Hl]].
        cbn in Hlive. injection Hlive as Hlive. discriminate.
      * left. destruct Hres as [-> | ->]; rewrite F4.
        -- rewrite lookup_delete_ne by congruence. exact Hk.
        -- rewrite lookup_insert_ne by congruence.
           rewrite lookup_delete_ne by congruence. exact Hk.
    + intros k n Hk. destruct Hres as [F5|F5]; rewrite F5, F4 in Hk.
      * left. destruct (decide (k = pathKey w liveFile)) as [->|Hne].
        -- rewrite lookup_delete_eq in Hk. discriminate.
        -- rewrite lookup_delete_ne in Hk by congruence. exact Hk.
      * destruct (decide (k = pathKey w liveFile)) as [->|Hne].
        -- rewrite lookup_insert_eq in Hk. injection Hk as <-. right. right. auto.
        -- rewrite lookup_insert_ne in Hk by congruence.
           rewrite lookup_delete_ne in Hk by congruence. left. exact Hk.
  - pose proof (Lstat_spec _ _ _ _ E2) as [S2 _].
    pose proof (sameFiles_trans _ _ _ S1 S2) as S12.
    destruct (negb (isNotExist e)).
    { injection H as <- <-. apply Same. exact S12. }
    destruct (MkdirAll (Dir liveFile) w2) as [err w3] eqn:E3.
    apply MkdirAll_grows in E3 as (C3 & Sub3 & New3).
    destruct S12 as [F12 C12]. rewrite F12 in Sub3, New3.
    assert (Grown : forall w5, cwd w5 = cwd w -> 
              (files w5 = files w3 \/
               (files w3 !! pathKey w liveFile = None /\
                files w5 = <[pathKey w liveFile := Symlink repoFile]> (files w3))) ->
              cwd w5 = cwd w /\
              (forall k n, files w !! k = Some n ->
                 files w5 !! k = Some n \/
                 (k = pathKey w liveFile /\
                  exists d kr, n = File d /\
                    follow maxLinksKernel (files w) (pathKey w repoFile) = inr (kr, File d))) /\
              (forall k n, files w5 !! k = Some n ->
                 files w !! k = Some n \/ n = Directory \/
                 (k = pathKey w liveFile /\ n = Symlink repoFile))).
    { intros w5 C5 F5. split; [exact C5|]. split.
      - intros k n Hk. left. pose proof (lookup_weaken _ _ _ _ Hk Sub3) as Hk3.
        destruct F5 as [-> | [Hfree ->]]; [exact Hk3|].
        rewrite lookup_insert_ne; [exact Hk3|]. intros <-. congruence.
      - intros k n Hk. destruct F5 as [F5|[Hfree F5]]; rewrite F5 in Hk.
        + destruct (New3 k n Hk) as [A|A]; auto.
        + destruct (decide (k = pathKey w liveFile)) as [->|Hne].
          * rewrite lookup_insert_eq in Hk. injection Hk as <-. auto.
          * rewrite lookup_insert_ne in Hk by congruence.
            destruct (New3 k n Hk) as [A|A]; auto. }
    destruct err as [e3|].
    { injection H as <- <-. apply Grown; [congruence|left; reflexivity]. }
    destruct (Symlink_ repoFile liveFile w3) as [err w4] eqn:E4.
    apply Symlink_spec in E4 as [C4 E4].
    rewrite (pathKey_cwd w w3) in E4 by congruence.
    assert (Hw' : w' = w4) by (destruct err; injection H as _ <-; reflexivity).
    subst w'. apply Grown; [congruence|].
    destruct E4 as [(e4 & _ & F4)|(_ & _ & _ & Hfree & F4)]; auto.
Qed.

(** Whatever calls fail, one iteration of the doctor's loop over the
    managed paths loses nothing: an entry that is gone or changed
    afterwards is the live path itself, and it was a regular file with
    the very content the repository path resolves to; an entry that is
    new is a directory or the link from the live path to the repository
    path. *)
Theorem doctorManagedPath_loses_nothing (repoPath xdg rel : string)
  (s s' : doctorReport) (w w' : world) :
  doctorManagedPath repoPath xdg rel s w = (s', w') ->
  cwd w' = cwd w /\
  (forall k n, files w !! k = Some n ->
     files w' !! k = Some n \/
     (k = pathKey w (JoinPath xdg (FromSlash rel)) /\
      exists d kr,
        n = File d /\
        follow maxLinksKernel (files w) (pathKey w (JoinPath repoPath (FromSlash rel)))
          = inr (kr, File d))) /\
  (forall k n, files w' !! k = Some n ->
     files w !! k = Some n \/ n = Directory \/
     (k = pathKey w (JoinPath xdg (FromSlash rel)) /\
      n = Symlink (JoinPath repoPath (FromSlash rel)))).
Proof. apply doctorManagedPath_frame. Qed.

Lemma doctorManagedPath_loses_nothing_witness :
  exists s' w',
    doctorManagedPath "/repo" "/live" "git/config" emptyDoctorReport doctorExampleWorld
      = (s', w') /\
    cwd w' = cwd doctorExampleWorld /\
    (forall k n, files doctorExampleWorld !! k = Some n ->
       files w' !! k = Some n \/
       (k = pathKey doctorExampleWorld (JoinPath "/live" (FromSlash "git/config")) /\
        exists d kr,
          n = File d /\
          follow maxLinksKernel (files doctorExampleWorld)
            (pathKey doctorExampleWorld (JoinPath "/repo" (FromSlash "git/config")))
            = inr (kr, File d))) /\
    (forall k n, files w' !! k = Some n ->
       files doctorExampleWorld !! k = Some n \/ n = Directory \/
       (k = pathKey doctorExampleWorld (JoinPath "/live" (FromSlash "git/config")) /\
        n = Symlink (JoinPath "/repo" (FromSlash "git/config")))).
Proof.
  eexists. eexists. split; [vm_compute; reflexivity|].
  eapply (doctorManagedPath_loses_nothing "/repo" "/live" "git/config" emptyDoctorReport).
  vm_compute. reflexivity.
Defined.

(** One iteration of the doctor's loop when no call fails, for absolute
    roots, a file system in which every entry sits under directories and
    a repository entry that is not a link: the path is reported under
    the verdict read off the repository entry and the live entry; unless
    the verdict is [Replaced] nothing changes; and when it is, the live
    path, which was free or a regular file, is a link to the repository
    file, and all that differs besides are new directories above it. *)
Theorem doctorManagedPath_by_verdict (repoPath xdg : string) (ns : list string)
  (s : doctorReport) (w : world) :
  IsAbs repoPath = true -> IsAbs xdg = true ->
  ns <> [] -> Forall plainElem ns ->
  faults w = [] -> treeShaped (files w) ->
  (forall t, lstatKey (files w) (keyFrom [] repoPath ++ ns) <> inr (Symlink t)) ->
  exists m',
    doctorManagedPath repoPath xdg (Join ns "/") s w
    = (addVerdict (managedVerdict (files w) (keyFrom [] repoPath ++ ns)
                     (keyFrom [] xdg ++ ns)) s (Join ns "/"),
       withFiles w m') /\
    treeShaped m' /\
    (managedVerdict (files w) (keyFrom [] repoPath ++ ns) (keyFrom [] xdg ++ ns)
       <> Replaced -> m' = files w) /\
    (managedVerdict (files w) (keyFrom [] repoPath ++ ns) (keyFrom [] xdg ++ ns)
       = Replaced ->
     m' !! (keyFrom [] xdg ++ ns)
       = Some (Symlink (keyPath (keyFrom [] repoPath ++ ns))) /\
     (files w !! (keyFrom [] xdg ++ ns) = None \/
      exists d, files w !! (keyFrom [] xdg ++ ns) = Some (File d)) /\
     forall key,
       key <> keyFrom [] xdg ++ ns ->
       m' !! key = files w !! key \/
       (files w !! key = None /\ m' !! key = Some Directory /\
        key `prefix_of` (keyFrom [] xdg ++ ns) /\
        lstatKey (files w) key = inl ENOENT)).
Proof. apply doctorManagedPath_quiet. Qed.

Lemma doctorManagedPath_by_verdict_witness :
  exists m',
    doctorManagedPath "/repo" "/live" (Join ["git"; "config"] "/") emptyDoctorReport
      doctorExampleWorld
    = (addVerdict (managedVerdict (files doctorExampleWorld)
                     (keyFrom [] "/repo" ++ ["git"; "config"])
                     (keyFrom [] "/live" ++ ["git"; "config"]))
         emptyDoctorReport (Join ["git"; "config"] "/"),
       withFiles doctorExampleWorld m') /\
    treeShaped m' /\
    (managedVerdict (files doctorExampleWorld) (keyFrom [] "/repo" ++ ["git"; "config"])
       (keyFrom [] "/live" ++ ["git"; "config"]) <> Replaced ->
     m' = files doctorExampleWorld) /\
    (managedVerdict (files doctorExampleWorld) (keyFrom [] "/repo" ++ ["git"; "config"])
       (keyFrom [] "/live" ++ ["git"; "config"]) = Replaced ->
     m' !! (keyFrom [] "/live" ++ ["git"; "config"])
       = Some (Symlink (keyPath (keyFrom [] "/repo" ++ ["git"; "config"]))) /\
     (files doctorExampleWorld !! (keyFrom [] "/live" ++ ["git"; "config"]) = None \/
      exists d, files doctorExampleWorld !! (keyFrom [] "/live" ++ ["git"; "config"])
                = Some (File d)) /\
     forall key,
       key <> keyFrom [] "/live" ++ ["git"; "config"] ->
       m' !! key = files doctorExampleWorld !! key \/
       (files doctorExampleWorld !! key = None /\ m' !! key = Some Directory /\
        key `prefix_of` (keyFrom [] "/live" ++ ["git"; "config"]) /\
        lstatKey (files doctorExampleWorld) key = inl ENOENT)).
Proof.
  apply (doctorManagedPath_by_verdict "/repo" "/live" ["git"; "config"] emptyDoctorReport
           doctorExampleWorld).
  - reflexivity.
  - reflexivity.
  - discriminate.
  - repeat constructor; try discriminate.
  - reflexivity.
  - apply treeShaped_check. vm_compute. reflexivity.
  - intros t. vm_compute. discriminate.
Defined.
(** ** The doctor's two passes as a whole *)

Lemma forEach_invariant {A S : Type} (body : A -> S -> io S)
  (I : S -> world -> Prop) (l : list A) :
  (forall x s w s' w', In x l -> I s w -> body x s w = (s', w') -> I s' w') ->
  forall s w s' w', I s w -> forEach l body s w = (s', w') -> I s' w'.
Proof.
  induction l as [|x l IH]; intros Hbody s w s' w' HI; cbn [forEach].
  - unfold ret. intros H; injection H as <- <-. exact HI.
  - unfold bind. destruct (body x s w) as [s1 w1] eqn:E1. intros H.
    apply (IH (fun y s0 w0 s0' w0' Hy => Hbody y s0 w0 s0' w0' (or_intror Hy))
             s1 w1 s' w'); [|exact H].
    apply (Hbody x s w s1 w1); [left; reflexivity|exact HI|exact E1].
Qed.

Lemma orphan_pass_frame repoPath xdg managed ms w r w' :
  reconcileOrphanRepoSymlinks repoPath xdg managed ms w = (r, w') ->
  cwd w' = cwd w /\
  forall k n, files w !! k = Some n -> (forall t, n <> Symlink t) ->
              files w' !! k = Some n.
Proof.
  unfold reconcileOrphanRepoSymlinks, bind.
  set (I := fun (s : doctorReport) (w1 : world) =>
    cwd w1 = cwd w /\
    forall k n, files w !! k = Some n -> (forall t, n <> Symlink t) ->
                files w1 !! k = Some n).
  destruct (WalkDir xdg (orphanVisit (Clean repoPath) xdg managed ms)
              emptyDoctorReport w) as [s w1] eqn:E.
  assert (HI : I s w1).
  { apply (WalkDir_invariant (orphanVisit (Clean repoPath) xdg managed ms) I
             (fun _ => True))
      with (root := xdg) (s := emptyDoctorReport) (w := w); [| | | | |exact E].
    - intros q d err s0 w0 r0 w0' _ [C0 K0] Hv.
      apply orphanVisit_effect in Hv as [Cv Hv]. split; [congruence|].
      destruct Hv as [[Fv _]|(t & rel & HL & _ & _ & _ & Hkeep)].
      { rewrite Fv. exact K0. }
      intros k n Hk Hn. apply Hkeep; [apply K0; assumption|].
      intros ->. apply lstatKey_nodeAt in HL.
      pose proof (K0 _ _ Hk Hn) as Hk0.
      destruct (pathKey w0 q) as [|c k'] eqn:Ek.
      + cbn in HL. injection HL as HL. discriminate.
      + rewrite (nodeAt_lookup _ _ _ Hk0) in HL by discriminate.
        injection HL as ->. exact (Hn t eq_refl).
    - intros s0 w0 w0' [C0 K0] [F C]. split; [congruence|]. rewrite F. exact K0.
    - auto.
    - exact Logic.I.
    - split; [reflexivity|]. auto. }
  unfold ret. intros H; injection H as _ <-. exact HI.
Qed.

(** Whatever calls fail, the doctor's pass over the live tree changes no
    entry but symbolic links: every directory, regular file and special
    file is afterwards what it was. *)
Theorem orphan_pass_changes_links_only (repoPath xdg : string)
  (managed : gset string) (ms : list globMatcher) (w w' : world)
  (r : result doctorReport) :
  reconcileOrphanRepoSymlinks repoPath xdg managed ms w = (r, w') ->
  cwd w' = cwd w /\
  forall k n, files w !! k = Some n -> (forall t, n <> Symlink t) ->
              files w' !! k = Some n.
Proof. apply orphan_pass_frame. Qed.

Lemma orphan_pass_changes_links_only_witness :
  exists r w',
    reconcileOrphanRepoSymlinks "/repo" "/live" (sliceToSet ["git/config"]) []
      doctorExampleWorld = (r, w') /\
    files w' !! ["live"; "stale"] = None /\
    cwd w' = cwd doctorExampleWorld /\
    forall k n, files doctorExampleWorld !! k = Some n -> (forall t, n <> Symlink t) ->
                files w' !! k = Some n.
Proof.
  eexists. eexists. split; [vm_compute; reflexivity|].
  split; [vm_compute; reflexivity|].
  eapply (orphan_pass_changes_links_only "/repo" "/live" (sliceToSet ["git/config"]) []).
  vm_compute. reflexivity.
Defined.
Lemma orphanVisit_idle repoPath xdg managed ms q d err s w relq :
  Rel xdg q = Ok relq ->
  shouldIgnorePath (ToSlash relq) false ms = true \/
  (exists rel, normalizeManagedPath (ToSlash relq) = Ok rel /\
               inSet rel managed = true) ->
  exists a, orphanVisit repoPath xdg managed ms q d err s w = ((s, a), w).
Proof.
  intros ER Hwhy. unfold orphanVisit.
  destruct err as [e|]; [eexists; reflexivity|].
  destruct d as [d|]; [|eexists; reflexivity].
  rewrite ER. destruct (isDir d).
  { destruct (shouldIgnorePath (ToSlash relq) true ms); eexists; reflexivity. }
  destruct (shouldIgnorePath (ToSlash relq) false ms) eqn:Ei; [eexists; reflexivity|].
  destruct (isSymlink d); cbn [negb]; [|eexists; reflexivity].
  destruct Hwhy as [Hw|(rel & EN & Hin)]; [discriminate|].
  rewrite EN, Hin. eexists; reflexivity.
Qed.

Lemma orphan_pass_spares repoPath xdg managed ms w w' names0 t0 relq r :
  xdg <> "" ->
  Forall plainElem names0 ->
  files w !! pathKey w (namedPath xdg names0) = Some (Symlink t0) ->
  Rel xdg (namedPath xdg names0) = Ok relq ->
  shouldIgnorePath (ToSlash relq) false ms = true \/
  (exists rel, normalizeManagedPath (ToSlash relq) = Ok rel /\
               inSet rel managed = true) ->
  reconcileOrphanRepoSymlinks repoPath xdg managed ms w = (r, w') ->
  files w' !! pathKey w (namedPath xdg names0) = Some (Symlink t0).
Proof.
  intros Hxdg Hn0 Hlink ER Hwhy. unfold reconcileOrphanRepoSymlinks, bind.
  set (k0 := pathKey w (namedPath xdg names0)) in *.
  set (I := fun (s : doctorReport) (w1 : world) =>
    cwd w1 = cwd w /\ files w1 !! k0 = Some (Symlink t0)).
  set (P := fun q : string =>
    exists names, Forall plainElem names /\ q = namedPath xdg names).
  destruct (WalkDir xdg (orphanVisit (Clean repoPath) xdg managed ms)
              emptyDoctorReport w) as [s w1] eqn:E.
  assert (HI : I s w1).
  { apply (WalkDir_invariant (orphanVisit (Clean repoPath) xdg managed ms) I P)
      with (root := xdg) (s := emptyDoctorReport) (w := w); [| | | | |exact E].
    - intros q d err s0 w0 r0 w0' (names & Hnames & ->) [C0 K0] Hv.
      destruct (decide (names = names0)) as [->|Hne].
      { destruct (orphanVisit_idle (Clean repoPath) xdg managed ms
                    (namedPath xdg names0) d err s0 w0 relq ER Hwhy) as [a Ha].
        rewrite Ha in Hv. injection Hv as _ <-. split; assumption. }
      apply orphanVisit_effect in Hv as [Cv Hv].
      destruct Hv as [[Fv _]|(t & rel & _ & _ & _ & _ & Hkeep)].
      { split; [congruence|]. rewrite Fv. exact K0. }
      split; [congruence|]. apply Hkeep; [exact K0|].
      rewrite (pathKey_cwd w w0 _ C0). unfold k0.
      destruct (pathKey_namedPath w xdg names Hxdg Hnames) as [_ Hkey].
      destruct (pathKey_namedPath w xdg names0 Hxdg Hn0) as [_ Hkey0].
      rewrite Hkey, Hkey0. intros E0. apply app_inv_head in E0. congruence.
    - intros s0 w0 w0' [C0 K0] [F C]. split; [congruence|]. rewrite F. exact K0.
    - intros q name (names & Hnames & ->) Hname. exists (names ++ [name]).
      split; [apply Forall_app; auto|]. symmetry. apply namedPath_snoc.
    - exists []. split; [constructor|reflexivity].
    - split; [reflexivity|exact Hlink]. }
  unfold ret. intros H; injection H as _ <-. apply HI.
Qed.

(** Whatever calls fail, the doctor's pass over the live tree leaves a
    symbolic link alone when the link's path relative to the live root
    is a tracked path, or matches an ignore pattern as a file: the link
    is still there afterwards, with the same target, wherever it
    points. *)
Theorem orphan_pass_spares_tracked_and_ignored_links
  (repoPath xdg : string) (managed : gset string) (ms : list globMatcher)
  (w w' : world) (names0 : list string) (t0 relq : string)
  (r : result doctorReport) :
  xdg <> "" ->
  Forall plainElem names0 ->
  files w !! pathKey w (namedPath xdg names0) = Some (Symlink t0) ->
  Rel xdg (namedPath xdg names0) = Ok relq ->
  shouldIgnorePath (ToSlash relq) false ms = true \/
  (exists rel, normalizeManagedPath (ToSlash relq) = Ok rel /\
               inSet rel managed = true) ->
  reconcileOrphanRepoSymlinks repoPath xdg managed ms w = (r, w') ->
  files w' !! pathKey w (namedPath xdg names0) = Some (Symlink t0).
Proof. apply orphan_pass_spares. Qed.

Lemma orphan_pass_spares_tracked_and_ignored_links_witness :
  exists r w',
    reconcileOrphanRepoSymlinks "/repo" "/live" (sliceToSet ["stale"]) []
      doctorExampleWorld = (r, w') /\
    files w' !! pathKey doctorExampleWorld (namedPath "/live" ["stale"])
    = Some (Symlink "/repo/gone").
Proof.
  eexists. eexists. split; [vm_compute; reflexivity|].
  eapply (orphan_pass_spares_tracked_and_ignored_links "/repo" "/live"
            (sliceToSet ["stale"]) [] doctorExampleWorld _ ["stale"] "/repo/gone" "stale").
  - discriminate.
  - repeat constructor; discriminate.
  - vm_compute. reflexivity.
  - vm_compute. reflexivity.
  - right. exists "stale". split; vm_compute; reflexivity.
  - vm_compute. reflexivity.
Defined.
Lemma doctorReconcile_frame c repoPath w o w' :
  doctorReconcile c repoPath w = (o, w') ->
  cwd w' = cwd w /\
  forall k n, files w !! k = Some n -> (forall t, n <> Symlink t) ->
    files w' !! k = Some n \/
    exists d managed xdg rel,
      n = File d /\ loadManagedFiles c repoPath = Ok managed /\
      xdgConfigHome c = Ok xdg /\ In rel managed /\
      k = pathKey w (JoinPath xdg (FromSlash rel)).
Proof.
  unfold doctorReconcile.
  assert (Hsame : forall o0, ret o0 w = (o, w') ->
    cwd w' = cwd w /\
    forall k n, files w !! k = Some n -> (forall t, n <> Symlink t) ->
      files w' !! k = Some n \/
      exists d managed xdg rel,
        n = File d /\ loadManagedFiles c repoPath = Ok managed /\
        xdgConfigHome c = Ok xdg /\ In rel managed /\
        k = pathKey w (JoinPath xdg (FromSlash rel))).
  { unfold ret. intros o0 H; injection H as _ <-. auto. }
  destruct (loadManagedFiles c repoPath) as [managed|e] eqn:EM; [|apply Hsame].
  destruct (List.length managed =? 0)%nat; [apply Hsame|].
  destruct (xdgConfigHome c) as [xdg|e] eqn:EX; [|apply Hsame].
  clear Hsame. unfold bind.
  set (I := fun (s : doctorReport) (w1 : world) =>
    cwd w1 = cwd w /\
    forall k n, files w !! k = Some n -> (forall t, n <> Symlink t) ->
      files w1 !! k = Some n \/
      exists d rel, n = File d /\ In rel managed /\
                    k = pathKey w (JoinPath xdg (FromSlash rel))).
  destruct (forEach managed (doctorManagedPath repoPath xdg) emptyDoctorReport w)
    as [s1 w1] eqn:E1.
  assert (HI : I s1 w1).
  { apply (forEach_invariant (doctorManagedPath repoPath xdg) I managed)
      with (s := emptyDoctorReport) (w := w); [| |exact E1].
    - intros rel s0 w0 s0' w0' Hin [C0 K0] Hb.
      apply doctorManagedPath_frame in Hb as (Cb & Keep & _).
      split; [congruence|]. intros k n Hk Hn.
      destruct (K0 k n Hk Hn) as [Hk0|Hgone]; [|right; exact Hgone].
      destruct (Keep k n Hk0) as [Hk1|[-> (d & kr & -> & _)]]; [left; exact Hk1|].
      right. exists d, rel. split; [reflexivity|]. split; [exact Hin|].
      apply pathKey_cwd. exact C0.
    - split; [reflexivity|]. auto. }
  destruct HI as [C1 K1].
  assert (Hend : forall w2, cwd w2 = cwd w1 ->
            (forall k n, files w1 !! k = Some n -> (forall t, n <> Symlink t) ->
                         files w2 !! k = Some n) ->
            cwd w2 = cwd w /\
            forall k n, files w !! k = Some n -> (forall t, n <> Symlink t) ->
              files w2 !! k = Some n \/
              exists d managed0 xdg0 rel,
                n = File d /\ Ok managed = Ok managed0 /\
                Ok xdg = Ok xdg0 /\ In rel managed0 /\
                k = pathKey w (JoinPath xdg0 (FromSlash rel))).
  { intros w2 C2 K2. split; [congruence|]. intros k n Hk Hn.
    destruct (K1 k n Hk Hn) as [Hk1|(d & rel & -> & Hin & ->)].
    - left. apply K2; assumption.
    - right. exists d, managed, xdg, rel. auto. }
  destruct (configuredIgnoreMatchers c) as [ms|e].
  2:{ unfold ret. intros H; injection H as _ <-. apply Hend; auto. }
  destruct (reconcileOrphanRepoSymlinks repoPath xdg (sliceToSet managed) ms w1)
    as [r2 w2] eqn:E2.
  apply orphan_pass_frame in E2 as [C2 K2].
  destruct r2; unfold ret; intros H; injection H as _ <-; apply Hend; assumption.
Qed.

(** Whatever calls fail, [doctor] keeps every directory as it is, and
    every regular or special file too, unless it is a regular file
    sitting at the live path of a tracked file. *)
Theorem doctor_changes_links_and_tracked_copies_only (c : collaborators)
  (repoPath : string) (w w' : world) (out : list string * option error) :
  cmdDoctorWithRepo c repoPath w = (out, w') ->
  cwd w' = cwd w /\
  forall k n, files w !! k = Some n -> (forall t, n <> Symlink t) ->
    files w' !! k = Some n \/
    exists d managed xdg rel,
      n = File d /\ loadManagedFiles c repoPath = Ok managed /\
      xdgConfigHome c = Ok xdg /\ In rel managed /\
      k = pathKey w (JoinPath xdg (FromSlash rel)).
Proof.
  unfold cmdDoctorWithRepo, bind.
  destruct (doctorReconcile c repoPath w) as [o w1] eqn:E.
  apply doctorReconcile_frame in E.
  destruct o; unfold ret; intros H; injection H as _ <-; exact E.
Qed.

Lemma doctor_changes_links_and_tracked_copies_only_witness :
  exists out w',
    cmdDoctorWithRepo (exampleCollaborators doctorExampleTracked) "/repo"
      doctorExampleWorld = (out, w') /\
    files w' !! ["live"; "git"; "config"] = Some (Symlink "/repo/git/config") /\
    cwd w' = cwd doctorExampleWorld /\
    forall k n, files doctorExampleWorld !! k = Some n -> (forall t, n <> Symlink t) ->
      files w' !! k = Some n \/
      exists d managed xdg rel,
        n = File d /\
        loadManagedFiles (exampleCollaborators doctorExampleTracked) "/repo" = Ok managed /\
        xdgConfigHome (exampleCollaborators doctorExampleTracked) = Ok xdg /\
        In rel managed /\
        k = pathKey doctorExampleWorld (JoinPath xdg (FromSlash rel)).
Proof.
  eexists. eexists. split; [vm_compute; reflexivity|].
  split; [vm_compute; reflexivity|].
  eapply (doctor_changes_links_and_tracked_copies_only
            (exampleCollaborators doctorExampleTracked) "/repo" doctorExampleWorld).
  vm_compute. reflexivity.
Defined.
(** ** Moving a file *)

Lemma lstatKey_file_lookup m k d :
  lstatKey m k = inr (File d) -> k <> [] /\ m !! k = Some (File d).
Proof.
  intros H. apply lstatKey_nodeAt in H. destruct k; cbn in H; [discriminate|].
  split; [discriminate|exact H].
Qed.

Lemma moveFile_keeps_file src dst w w' d r :
  files w !! pathKey w src = Some (File d) -> pathKey w src <> [] ->
  files w !! pathKey w dst = None -> pathKey w dst <> [] ->
  moveFile src dst w = (r, w') ->
  cwd w' = cwd w /\
  (r <> None -> files w' !! pathKey w src = Some (File d)) /\
  (r = None ->
   files w' !! pathKey w src = None /\
   files w' !! pathKey w dst = Some (File d)) /\
  (forall k n, files w !! k = Some n -> k <> pathKey w src ->
               files w' !! k = Some n).
Proof.
  intros Hlook Hks Hfree Hroot. unfold moveFile, bind.
  set (ks := pathKey w src) in *. set (kd := pathKey w dst) in *.
  assert (Hne : ks <> kd) by (intros E; rewrite E in Hlook; congruence).
  assert (Hsame : forall (e : error) w0, files w0 = files w -> cwd w0 = cwd w ->
            cwd w0 = cwd w /\
            (Some e <> None -> files w0 !! ks = Some (File d)) /\
            (Some e = None ->
             files w0 !! ks = None /\ files w0 !! kd = Some (File d)) /\
            (forall k n, files w !! k = Some n -> k <> ks ->
                         files w0 !! k = Some n)).
  { intros e w0 F0 C0. split; [exact C0|]. rewrite F0.
    split; [auto|]. split; [discriminate|auto]. }
  destruct (Rename src dst w) as [r1 w1] eqn:E1.
  apply Rename_spec in E1 as [C1 E1].
  destruct E1 as [(e1 & -> & F1)|(-> & _ & _ & R1)].
  2:{ unfold ret. intros H; injection H as <- <-.
      apply renameAt_spec in R1 as (n & Hn & _ & _ & _ & F1).
      fold ks kd in Hn, F1. apply lstatKey_nodeAt in Hn.
      rewrite (nodeAt_lookup _ _ _ Hlook Hks) in Hn. injection Hn as <-.
      rewrite decide_False in F1 by exact Hne.
      split; [exact C1|]. split; [intros Hc; contradiction|].
      rewrite F1. split.
      - intros _. split.
        + rewrite lookup_insert_ne by congruence. apply lookup_delete_eq.
        + apply lookup_insert_eq.
      - intros k n Hk Hkne. destruct (decide (k = kd)) as [->|Hkd]; [congruence|].
        rewrite lookup_insert_ne by congruence.
        rewrite lookup_delete_ne by congruence. exact Hk. }
  destruct (isCrossDevice e1); cbn [negb].
  2:{ unfold ret. intros H; injection H as <- <-. apply Hsame; assumption. }
  destruct (copyFile src dst w1) as [r2 w2] eqn:E2.
  apply copyFile_onto_free in E2;
    [|rewrite (pathKey_cwd w w1 _ C1), F1; exact Hfree
     |rewrite (pathKey_cwd w w1 _ C1); exact Hroot].
  rewrite !(pathKey_cwd w w1 _ C1), F1 in E2. fold ks kd in E2.
  destruct E2 as (C2 & Sub2 & New2 & Ok2).
  assert (C02 : cwd w2 = cwd w) by congruence.
  assert (Hlook2 : files w2 !! ks = Some (File d))
    by (eapply lookup_weaken; eassumption).
  assert (Hkeep2 : forall k n, files w !! k = Some n -> files w2 !! k = Some n).
  { intros k n Hk. eapply lookup_weaken; eassumption. }
  destruct r2 as [e2|].
  { unfold ret. intros H; injection H as <- <-.
    split; [exact C02|]. split; [auto|]. split; [discriminate|auto]. }
  destruct (Ok2 eq_refl) as (kr & d' & Hfol & Hdst).
  assert (Hsrc2 : lstatKey (files w2) ks = inr (File d)).
  { destruct (lstatKey (files w2) ks) as [e|n] eqn:L.
    - rewrite (follow_error _ _ _ _ L) in Hfol. discriminate.
    - apply lstatKey_nodeAt in L.
      rewrite (nodeAt_lookup _ _ _ Hlook2 Hks) in L. congruence. }
  rewrite (follow_regular _ _ _ _ Hsrc2) in Hfol. injection Hfol as _ <-.
  apply lstatKey_file_lookup in Hdst as [_ Hdst].
  intros H. apply Remove_spec in H as [C3 R3].
  rewrite (pathKey_cwd w w2 _ C02) in R3. fold ks in R3.
  destruct R3 as [(e3 & -> & F3)|(-> & _ & _ & _ & F3)]; rewrite F3.
  - split; [congruence|]. split; [auto|]. split; [discriminate|auto].
  - split; [congruence|]. split; [intros Hc; contradiction|]. split.
    + intros _. split; [apply lookup_delete_eq|].
      rewrite lookup_delete_ne by congruence. exact Hdst.
    + intros k n Hk Hkne. rewrite lookup_delete_ne by congruence. auto.
Qed.

(** Moving a regular file onto a free name, whatever calls fail: when
    [moveFile] returns an error the file is still at its old name with
    its content; when it returns none the file is at the new name with
    its content and the old name is free; either way no other entry is
    removed or changed. *)
Theorem moveFile_never_loses_the_file (src dst : string) (w w' : world)
  (d : string) (r : option error) :
  lstatKey (files w) (pathKey w src) = inr (File d) ->
  files w !! pathKey w dst = None -> pathKey w dst <> [] ->
  moveFile src dst w = (r, w') ->
  cwd w' = cwd w /\
  (r <> None -> files w' !! pathKey w src = Some (File d)) /\
  (r = None ->
   files w' !! pathKey w src = None /\
   files w' !! pathKey w dst = Some (File d)) /\
  (forall k n, files w !! k = Some n -> k <> pathKey w src ->
               files w' !! k = Some n).
Proof.
  intros Hsrc. apply lstatKey_file_lookup in Hsrc as [Hk Hlook].
  apply moveFile_keeps_file; assumption.
Qed.

Lemma moveFile_never_loses_the_file_witness :
  exists r w',
    moveFile "/live/nvim/init.lua" "/repo/nvim/init.lua" (trackExampleWorld [CrossDev])
      = (r, w') /\
    cwd w' = cwd (trackExampleWorld [CrossDev]) /\
    (r <> None ->
     files w' !! pathKey (trackExampleWorld [CrossDev]) "/live/nvim/init.lua"
       = Some (File "set number")) /\
    (r = None ->
     files w' !! pathKey (trackExampleWorld [CrossDev]) "/live/nvim/init.lua" = None /\
     files w' !! pathKey (trackExampleWorld [CrossDev]) "/repo/nvim/init.lua"
       = Some (File "set number")) /\
    (forall k n, files (trackExampleWorld [CrossDev]) !! k = Some n ->
                 k <> pathKey (trackExampleWorld [CrossDev]) "/live/nvim/init.lua" ->
                 files w' !! k = Some n).
Proof.
  eexists. eexists. split; [vm_compute; reflexivity|].
  eapply (moveFile_never_loses_the_file "/live/nvim/init.lua" "/repo/nvim/init.lua"
            (trackExampleWorld [CrossDev])).
  - vm_compute. reflexivity.
  - vm_compute. reflexivity.
  - vm_compute. discriminate.
  - vm_compute. reflexivity.
Defined.
Lemma moveFile_onto_dir src dst w r w' :
  files w !! pathKey w dst = Some Directory -> pathKey w dst <> [] ->
  moveFile src dst w = (r, w') ->
  r <> None /\ grownByDirs w w'.
Proof.
  intros Hdir Hroot. unfold moveFile, bind.
  destruct (Rename src dst w) as [r1 w1] eqn:E1.
  apply Rename_spec in E1 as [C1 E1].
  destruct E1 as [(e1 & -> & F1)|(-> & _ & _ & R1)].
  2:{ apply renameAt_spec in R1 as (n & _ & _ & _ & Hnd & _).
      exfalso. apply Hnd. apply nodeAt_lookup; assumption. }
  assert (S1 : sameFiles w w1) by (split; assumption).
  destruct (isCrossDevice e1); cbn [negb].
  2:{ unfold ret. intros H; injection H as <- <-.
      split; [discriminate|apply grownByDirs_same; exact S1]. }
  destruct (copyFile src dst w1) as [r2 w2] eqn:E2.
  apply copyFile_onto_dir in E2;
    [|rewrite (pathKey_cwd w w1 _ C1), F1; exact Hdir
     |rewrite (pathKey_cwd w w1 _ C1); exact Hroot].
  destruct E2 as [Hr2 G2]. destruct r2 as [e2|]; [|contradiction].
  unfold ret. intros H; injection H as <- <-. split; [discriminate|].
  eapply grownByDirs_trans; [apply grownByDirs_same; exact S1|exact G2].
Qed.

(** ** Tracking a file *)

Lemma normalizeManagedPath_nonempty raw rel :
  normalizeManagedPath raw = Ok rel -> rel <> "".
Proof.
  unfold normalizeManagedPath. cbn zeta.
  destruct (_ || _); [discriminate|].
  destruct (HasPrefix _ "/"); [discriminate|].
  destruct (_ || _); [discriminate|]. destruct (isMetadataPath _); [discriminate|].
  intros H. injection H as <-. apply Clean_nonempty.
Qed.

Lemma follow_not_link fuel m k :
  (forall t, lstatKey m k <> inr (Symlink t)) ->
  follow fuel m k = match lstatKey m k with
                    | inl e => inl e
                    | inr n => inr (k, n)
                    end.
Proof.
  intros H. destruct (lstatKey m k) as [e|n] eqn:L.
  - apply follow_error. exact L.
  - apply follow_lstat; [exact L|]. destruct n; try reflexivity.
    exfalso. eapply H. reflexivity.
Qed.

Lemma trackSelection_effect repoPath xdg raw rel report set w report' set' w' d :
  normalizeManagedPath raw = Ok rel ->
  treeShaped (files w) ->
  lstatKey (files w) (pathKey w (JoinPath xdg (FromSlash rel))) = inr (File d) ->
  (forall t, lstatKey (files w) (pathKey w (JoinPath repoPath (FromSlash rel)))
             <> inr (Symlink t)) ->
  trackSelection repoPath xdg raw (report, set) w = ((report', set'), w') ->
  cwd w' = cwd w /\
  (forall k n, files w !! k = Some n ->
               k <> pathKey w (JoinPath xdg (FromSlash rel)) ->
               files w' !! k = Some n) /\
  (files w' !! pathKey w (JoinPath xdg (FromSlash rel)) = Some (File d) \/
   (files w !! pathKey w (JoinPath repoPath (FromSlash rel)) = None /\
    files w' !! pathKey w (JoinPath repoPath (FromSlash rel)) = Some (File d))) /\
  ((succeeded report' = succeeded report /\ set' = set) \/
   (succeeded report' = succeeded report ++ [rel] /\ set' = {[rel]} ∪ set /\
    inSet rel set = false /\
    files w !! pathKey w (JoinPath repoPath (FromSlash rel)) = None /\
    files w' !! pathKey w (JoinPath repoPath (FromSlash rel)) = Some (File d) /\
    files w' !! pathKey w (JoinPath xdg (FromSlash rel))
      = Some (Symlink (JoinPath repoPath (FromSlash rel))))).
Proof.
  intros Hn Ht Hlive Hrepo. unfold trackSelection. rewrite Hn.
  set (liveFile := JoinPath xdg (FromSlash rel)) in *.
  set (repoFile := JoinPath repoPath (FromSlash rel)) in *.
  set (kl := pathKey w liveFile) in *. set (kr := pathKey w repoFile) in *.
  destruct (lstatKey_file_lookup _ _ _ Hlive) as [Hkl Hlook].
  assert (Hgrown : forall (report0 : operationReport) w0,
            grownByDirs w w0 -> succeeded report0 = succeeded report ->
            (report0, set, w0) = (report', set', w') ->
            cwd w' = cwd w /\
            (forall k n, files w !! k = Some n -> k <> kl -> files w' !! k = Some n) /\
            (files w' !! kl = Some (File d) \/
             (files w !! kr = None /\ files w' !! kr = Some (File d))) /\
            ((succeeded report' = succeeded report /\ set' = set) \/
             (succeeded report' = succeeded report ++ [rel] /\ set' = {[rel]} ∪ set /\
              inSet rel set = false /\
              files w !! kr = None /\ files w' !! kr = Some (File d) /\
              files w' !! kl = Some (Symlink repoFile)))).
  { intros report0 w0 (C0 & Sub0 & _) Hs H; injection H as <- <- <-.
    split; [exact C0|]. split.
    - intros k n Hk _. eapply lookup_weaken; eassumption.
    - split; [left; eapply lookup_weaken; eassumption|]. left. auto. }
  destruct (inSet rel set) eqn:Ein.
  { unfold ret. apply Hgrown; [apply grownByDirs_refl|reflexivity]. }
  unfold bind.
  destruct (Lstat liveFile w) as [r1 w1] eqn:E1.
  destruct r1 as [n1|e1].
  2:{ apply Lstat_spec in E1 as [S1 _]. unfold ret.
      apply Hgrown; [apply grownByDirs_same; exact S1|reflexivity]. }
  apply Lstat_Ok in E1 as [S1 L1]. fold kl in L1. rewrite Hlive in L1.
  injection L1 as <-. cbn [isRegular negb].
  destruct (Stat repoFile w1) as [r2 w2] eqn:E2.
  apply Stat_spec in E2 as [S2 R2].
  pose proof (sameFiles_trans _ _ _ S1 S2) as S12.
  destruct r2 as [n2|e2].
  { unfold ret. apply Hgrown; [apply grownByDirs_same; exact S12|reflexivity]. }
  destruct (isNotExist e2) eqn:Ene; cbn [negb].
  2:{ unfold ret. apply Hgrown; [apply grownByDirs_same; exact S12|reflexivity]. }
  assert (Hfree : files w !! kr = None /\ kr <> []).
  { destruct R2 as [R2|R2].
    { injection R2 as ->. cbn in Ene. discriminate. }
    rewrite (pathKey_sameFiles _ _ _ S1) in R2. destruct S1 as [F1 _].
    rewrite F1 in R2. fold kr in R2. unfold nonEmptyPath in R2.
    destruct (String.eqb_spec repoFile "") as [Hempty|_].
    { exfalso. revert Hempty. apply JoinPath_nonempty.
      apply (normalizeManagedPath_nonempty raw). exact Hn. }
    rewrite (follow_not_link _ _ _ Hrepo) in R2.
    destruct (lstatKey (files w) kr) as [e|n] eqn:L; [|discriminate].
    injection R2 as ->. cbn in Ene.
    destruct e; try discriminate.
    apply lstatKey_ENOENT_absent; assumption. }
  destruct Hfree as [Hfree Hkr].
  assert (Hne : kr <> kl) by (intros E; rewrite E in Hfree; congruence).
  destruct (MkdirAll (Dir repoFile) w2) as [r3 w3] eqn:E3.
  apply MkdirAll_grows in E3.
  pose proof (grownByDirs_trans _ _ _ (grownByDirs_same _ _ S12) E3) as G3.
  destruct r3 as [e3|].
  { unfold ret. apply Hgrown; [exact G3|reflexivity]. }
  destruct G3 as (C3 & Sub3 & D3).
  destruct (moveFile liveFile repoFile w3) as [r4 w4] eqn:E4.
  assert (Hk3 : files w3 !! kr = None \/ files w3 !! kr = Some Directory).
  { destruct (files w3 !! kr) as [n|] eqn:E; [|auto]. right.
    destruct (D3 _ _ E) as [A|A]; [congruence|subst; reflexivity]. }
  destruct Hk3 as [Hk3|Hk3].
  2:{ apply moveFile_onto_dir in E4;
        [|rewrite (pathKey_cwd w w3 _ C3); assumption..].
      destruct E4 as [Hr4 G4]. destruct r4 as [e4|]; [|contradiction].
      unfold ret. apply Hgrown; [|reflexivity].
      eapply grownByDirs_trans; [|exact G4]. split; auto. }
  apply (moveFile_keeps_file liveFile repoFile w3 w4 d) in E4;
    [|rewrite (pathKey_cwd w w3 _ C3);
      try assumption; eapply lookup_weaken; eassumption..].
  rewrite !(pathKey_cwd w w3 _ C3) in E4. fold kl kr in E4.
  destruct E4 as (C4 & Hfail4 & Hok4 & Hkeep4).
  assert (C04 : cwd w4 = cwd w) by congruence.
  assert (Hkeep04 : forall k n, files w !! k = Some n -> k <> kl ->
                                files w4 !! k = Some n).
  { intros k n Hk Hkne. apply Hkeep4; [|exact Hkne].
    eapply lookup_weaken; eassumption. }
  destruct r4 as [e4|].
  { unfold ret. intros H; injection H as <- <- <-.
    split; [exact C04|]. split; [exact Hkeep04|].
    split; [left; apply Hfail4; discriminate|left; auto]. }
  destruct (Hok4 eq_refl) as [Hl4 Hr4].
  destruct (MkdirAll (Dir liveFile) w4) as [r5 w5] eqn:E5.
  apply MkdirAll_grows in E5. destruct E5 as (C5 & Sub5 & D5).
  assert (C05 : cwd w5 = cwd w) by congruence.
  assert (Hr5 : files w5 !! kr = Some (File d))
    by (eapply lookup_weaken; eassumption).
  assert (Hl5 : files w5 !! kl = None \/ files w5 !! kl = Some Directory).
  { destruct (files w5 !! kl) as [n|] eqn:E; [|auto]. right.
    destruct (D5 _ _ E) as [A|A]; [congruence|subst; reflexivity]. }
  assert (Hkeep05 : forall k n, files w !! k = Some n -> k <> kl ->
                                files w5 !! k = Some n).
  { intros k n Hk Hkne. eapply lookup_weaken; [|exact Sub5]. auto. }
  assert (Hroll : forall w5' r w6,
            cwd w5' = cwd w -> files w5' = files w5 ->
            moveFile repoFile liveFile w5' = (r, w6) ->
            cwd w6 = cwd w /\
            (forall k n, files w !! k = Some n -> k <> kl -> files w6 !! k = Some n) /\
            (files w6 !! kl = Some (File d) \/
             (files w !! kr = None /\ files w6 !! kr = Some (File d)))).
  { intros w5' r w6 C5' F5' E6. destruct Hl5 as [Hl5|Hl5].
    - apply (moveFile_keeps_file repoFile liveFile w5' w6 d) in E6;
        [|rewrite (pathKey_cwd w w5' _ C5'), ?F5'; assumption..].
      rewrite !(pathKey_cwd w w5' _ C5'), F5' in E6. fold kl kr in E6.
      destruct E6 as (C6 & Hfail6 & Hok6 & Hkeep6).
      split; [congruence|]. split.
      + intros k n Hk Hkne. apply Hkeep6; [auto|]. intros ->. congruence.
      + destruct r as [e|].
        * right. split; [exact Hfree|]. apply Hfail6. discriminate.
        * left. apply Hok6. reflexivity.
    - apply moveFile_onto_dir in E6;
        [|rewrite (pathKey_cwd w w5' _ C5'), ?F5'; assumption..].
      destruct E6 as [_ (C6 & Sub6 & _)]. rewrite F5' in Sub6.
      split; [congruence|]. split.
      + intros k n Hk Hkne. eapply lookup_weaken; [|exact Sub6]. auto.
      + right. split; [exact Hfree|]. eapply lookup_weaken; eassumption. }
  destruct r5 as [e5|].
  { destruct (moveFile repoFile liveFile w5) as [r6 w6] eqn:E6.
    unfold ret. intros H; injection H as <- <- <-.
    apply Hroll in E6; [|exact C05|reflexivity].
    destruct E6 as (A & B & C). split; [exact A|]. split; [exact B|].
    split; [exact C|left; auto]. }
  destruct (Symlink_ repoFile liveFile w5) as [r6 w6] eqn:E6.
  apply Symlink_spec in E6 as [C6 E6].
  rewrite (pathKey_cwd w w5 _ C05) in E6. fold kl in E6.
  destruct E6 as [(e6 & -> & F6)|(-> & _ & _ & _ & F6)].
  { destruct (moveFile repoFile liveFile w6) as [r7 w7] eqn:E7.
    unfold ret. intros H; injection H as <- <- <-.
    apply Hroll in E7; [|congruence|exact F6].
    destruct E7 as (A & B & C). split; [exact A|]. split; [exact B|].
    split; [exact C|left; auto]. }
  unfold ret. intros H; injection H as <- <- <-.
  assert (Hr6 : files w6 !! kr = Some (File d)).
  { rewrite F6, lookup_insert_ne by congruence. exact Hr5. }
  split; [congruence|]. split.
  { intros k n Hk Hkne. rewrite F6, lookup_insert_ne by congruence. auto. }
  split; [right; auto|]. right. cbn [addSucceeded succeeded].
  split; [reflexivity|]. split; [reflexivity|]. split; [reflexivity|].
  split; [exact Hfree|]. split; [exact Hr6|]. rewrite F6. apply lookup_insert_eq.
Qed.

(** One selection of [track], whatever calls fail, when the live path is
    a regular file in a file system where every entry sits under
    directories and the repository path is not a link.  No entry other
    than the live path is removed or changed.  The file is never lost:
    afterwards it is at the live path, or at the repository path, which
    was free.  The selection counts as succeeded, and joins the managed
    set, only if the repository path, free before, now holds the file and
    the live path is a link to it. *)
Theorem trackSelection_never_loses_the_file (repoPath xdg raw rel : string)
  (report report' : operationReport) (set set' : gset string)
  (w w' : world) (d : string) :
  normalizeManagedPath raw = Ok rel ->
  treeShaped (files w) ->
  lstatKey (files w) (pathKey w (JoinPath xdg (FromSlash rel))) = inr (File d) ->
  (forall t, lstatKey (files w) (pathKey w (JoinPath repoPath (FromSlash rel)))
             <> inr (Symlink t)) ->
  trackSelection repoPath xdg raw (report, set) w = ((report', set'), w') ->
  cwd w' = cwd w /\
  (forall k n, files w !! k = Some n ->
               k <> pathKey w (JoinPath xdg (FromSlash rel)) ->
               files w' !! k = Some n) /\
  (files w' !! pathKey w (JoinPath xdg (FromSlash rel)) = Some (File d) \/
   (files w !! pathKey w (JoinPath repoPath (FromSlash rel)) = None /\
    files w' !! pathKey w (JoinPath repoPath (FromSlash rel)) = Some (File d))) /\
  ((succeeded report' = succeeded report /\ set' = set) \/
   (succeeded report' = succeeded report ++ [rel] /\ set' = {[rel]} ∪ set /\
    inSet rel set = false /\
    files w !! pathKey w (JoinPath repoPath (FromSlash rel)) = None /\
    files w' !! pathKey w (JoinPath repoPath (FromSlash rel)) = Some (File d) /\
    files w' !! pathKey w (JoinPath xdg (FromSlash rel))
      = Some (Symlink (JoinPath repoPath (FromSlash rel))))).
Proof. apply trackSelection_effect. Qed.

Lemma trackSelection_never_loses_the_file_witness :
  exists report' set' w',
    trackSelection "/repo" "/live" "./nvim/init.lua" (emptyOperationReport, ∅)
      (trackExampleWorld [Pass; Pass; Pass; Pass; Pass; CrossDev])
    = ((report', set'), w') /\
    cwd w' = "/" /\
    (forall k n,
       files (trackExampleWorld [Pass; Pass; Pass; Pass; Pass; CrossDev]) !! k = Some n ->
       k <> ["live"; "nvim"; "init.lua"] -> files w' !! k = Some n) /\
    (files w' !! ["live"; "nvim"; "init.lua"] = Some (File "set number") \/
     (files (trackExampleWorld [Pass; Pass; Pass; Pass; Pass; CrossDev])
        !! ["repo"; "nvim"; "init.lua"] = None /\
      files w' !! ["repo"; "nvim"; "init.lua"] = Some (File "set number"))) /\
    ((succeeded report' = succeeded emptyOperationReport /\ set' = ∅) \/
     (succeeded report' = succeeded emptyOperationReport ++ ["nvim/init.lua"] /\
      set' = {["nvim/init.lua"]} ∪ ∅ /\
      inSet "nvim/init.lua" ∅ = false /\
      files (trackExampleWorld [Pass; Pass; Pass; Pass; Pass; CrossDev])
        !! ["repo"; "nvim"; "init.lua"] = None /\
      files w' !! ["repo"; "nvim"; "init.lua"] = Some (File "set number") /\
      files w' !! ["live"; "nvim"; "init.lua"] = Some (Symlink "/repo/nvim/init.lua"))).
Proof.
  eexists. eexists. eexists. split; [vm_compute; reflexivity|].
  eapply (trackSelection_never_loses_the_file "/repo" "/live" "./nvim/init.lua"
            "nvim/init.lua" emptyOperationReport _ ∅ _
            (trackExampleWorld [Pass; Pass; Pass; Pass; Pass; CrossDev]) _ "set number").
  - reflexivity.
  - apply treeShaped_check. vm_compute. reflexivity.
  - vm_compute. reflexivity.
  - intros t. vm_compute. discriminate.
  - vm_compute. reflexivity.
Defined.
